(** * catchAsync: funnelling handler failures into the continuation

    A shallow embedding of [src/catchAsync.ts], followed by one of the error
    classes and the error middleware.  The first part has two halves that
    follow the two halves of the source:

    - the run-time behaviour of a wrapped handler ([wrappedHandler],
      [wrappedNext], the rejection callback), over a small world that holds
      the wrapper's [hasCalledNext] variable, the calls every continuation
      received and the console;
    - the wrap-time object surgery ([wrapHandler], [wrapControllerClass],
      [catchAsync]) over a heap of ordinary objects with property
      descriptors and prototype links. *)

From Stdlib Require Import ZArith DecimalString.
From stdpp Require Import gmap strings list fin_maps sorting.

#[global] Set Warnings "-clear-no-such-hyp".

(** ** Values *)

Definition ref := nat.

(** A reference carries what [typeof] says about its target: [VFun] is a
    callable object, [VObj] one that is not.  [VError] is an object for which
    [instanceof Error] holds, together with its message. *)
Inductive value :=
| VUndefined
| VNull
| VBool (b : bool)
| VNum (n : Z)
| VStr (s : string)
| VObj (r : ref)
| VFun (r : ref)
| VError (r : ref) (message : string).

#[global] Instance value_eq_dec : EqDecision value.
Proof. solve_decision. Defined.

(** What escapes a piece of the code: a [TypeError] of the engine, or a
    value thrown by a function the code calls. *)
Inductive exn :=
| TypeError (msg : string)
| Uncaught (v : value).

(** What the embedding takes from the host: whether the conversion of an
    object to a string returns at all ([converts]: it throws a [TypeError]
    for an object without a usable [toString] or [valueOf], such as
    [Object.create(null)]) and what it yields when it does ([describe]:
    [toString] of a plain object, the source text of a function, ...); how an
    integer beyond the safe range is printed ([large_number]: past
    [2^53 - 1] a number is no longer printed digit for digit, and from
    [1e21] on in exponent form); what calling a getter yields (getters are
    taken to be pure); and whether a continuation ([next]) throws when it is
    called with given arguments, and what ([next_throws], [None] when it
    returns). *)
Class Host := {
  describe : ref -> string;
  getter_result : ref -> value;
  converts : ref -> bool;
  large_number : Z -> string;
  next_throws : ref -> list value -> option value
}.

(** [typeof fn === "function"], line 30. *)
Definition isFunction (fn : value) : bool :=
  match fn with VFun _ => true | _ => false end.

Definition instanceof_Error (v : value) : bool :=
  match v with VError _ _ => true | _ => false end.

(** JavaScript truthiness, for [||], [&&] and [!]. *)
Definition truthy (v : value) : bool :=
  match v with
  | VUndefined | VNull => false
  | VBool b => b
  | VNum n => negb (n =? 0)%Z
  | VStr s => negb (String.eqb s EmptyString)
  | VObj _ | VFun _ | VError _ _ => true
  end.

(** [typeof v === "object"]; [null] is one too. *)
Definition typeof_object (v : value) : bool :=
  match v with VNull | VObj _ | VError _ _ => true | _ => false end.

Definition ref_of (v : value) : option ref :=
  match v with
  | VObj r | VFun r | VError r _ => Some r
  | _ => None
  end.

(** The string a value is converted to, when the conversion returns;
    numbers are integer-valued.  On a string, which is what the [name] of a
    function is ([Function.name: string]), it is the identity. *)
Definition String_ `{Host} (v : value) : string :=
  match v with
  | VUndefined => "undefined"
  | VNull => "null"
  | VBool true => "true"
  | VBool false => "false"
  | VNum n =>
      if (Z.abs n <? 2 ^ 53)%Z then NilZero.string_of_int (Z.to_int n)
      else large_number n
  | VStr s => s
  | VObj r | VFun r | VError r _ => describe r
  end.

(** [String(v)], and the conversion inside a template literal, inside
    [Array.prototype.join] and inside [new Error(message)]: [None] when it
    throws. *)
Definition ToString `{Host} (v : value) : option string :=
  match v with
  | VObj r | VFun r | VError r _ =>
      if converts r then Some (describe r) else None
  | _ => Some (String_ v)
  end.

Definition not_convertible : exn :=
  TypeError "Cannot convert object to primitive value".

(** What the code writes to the console. *)
Inductive diag :=
| InsufficientArguments (expected got : nat)
| LastArgNotFunction
| NextCalledMultipleTimes
| WrapHandlerNonFunction (fn : value)
| WrapClassNonFunction (target : value)
| WrapClassNoPrototype
| FailedToWrapMethod (key : string).

(** ** Part 1: invoking a wrapped handler *)

(** What the original handler does with the continuation it is handed: the
    calls it makes to it, in order, and how it ends.  The asynchronous part
    is what happens behind the promise the handler returned. *)
Inductive async_script :=
| AResolve (v : value)
| AReject (err : value)
| ACallNext (nextArgs : list value) (k : async_script).

Inductive script :=
| SReturn (v : value)
| SReturnPromise (p : async_script)
| SThrow (err : value)
| SCallNext (nextArgs : list value) (k : script).

Definition handler := list value -> script.

(** The world of one wrapper.  [hasCalledNext] is the variable of line 56: it
    is declared once per [wrapHandler] call, so every invocation of the
    wrapper reads and writes the same cell.  [delivered] lists, per
    continuation, the arguments it was called with; what a continuation
    returns is not used by the wrapper, and what it does to the handler that
    called it is part of the handler's script. *)
Record world := World {
  hasCalledNext : bool;
  delivered : list (ref * list value);
  fn_calls : list (list value);
  console : list diag;
  next_ref : ref
}.

Definition set_hasCalledNext (b : bool) (w : world) : world :=
  World b (delivered w) (fn_calls w) (console w) (next_ref w).

Definition call_next (next : ref) (nextArgs : list value) (w : world) : world :=
  World (hasCalledNext w) (delivered w ++ [(next, nextArgs)]) (fn_calls w)
        (console w) (next_ref w).

Definition call_fn (args : list value) (w : world) : world :=
  World (hasCalledNext w) (delivered w) (fn_calls w ++ [args]) (console w)
        (next_ref w).

Definition log (d : diag) (w : world) : world :=
  World (hasCalledNext w) (delivered w) (fn_calls w) (console w ++ [d])
        (next_ref w).

Definition alloc (w : world) : ref * world :=
  (next_ref w,
   World (hasCalledNext w) (delivered w) (fn_calls w) (console w)
         (S (next_ref w))).

(** [new Error(message)] *)
Definition new_Error (message : string) (w : world) : value * world :=
  let '(r, w) := alloc w in (VError r message, w).

(** Lines 87-98. *)
Definition wrappedNext (next : ref) (nextArgs : list value) (w : world)
  : value * world :=
  if hasCalledNext w then (VUndefined, log NextCalledMultipleTimes w)
  else (VUndefined, call_next next nextArgs (set_hasCalledNext true w)).

Inductive sync_result :=
| Normal (v : value)
| Promise (p : async_script)
| Thrown (err : value).

(** [fn.apply(this, args)], the synchronous part. *)
Fixpoint run_sync (next : ref) (s : script) (w : world) : sync_result * world :=
  match s with
  | SReturn v => (Normal v, w)
  | SReturnPromise p => (Promise p, w)
  | SThrow err => (Thrown err, w)
  | SCallNext nextArgs k => run_sync next k (snd (wrappedNext next nextArgs w))
  end.

(** How a call of the wrapper ends: it hands back a plain value, or the
    promise made by [result.catch(...)], still pending on the handler's
    asynchronous part; or it throws. *)
Inductive completion :=
| Returned (v : value)
| Pending (next : ref) (p : async_script)
| Threw (e : exn).

Section Invocation.
Context `{Host}.

(** [wrappedNext(errorToPass)] on lines 113 and 127, where nothing catches
    what the continuation throws. *)
Definition deliver (next : ref) (errorToPass : value) (w : world)
  : option exn * world :=
  (if hasCalledNext w then None
   else Uncaught <$> next_throws next [errorToPass],
   snd (wrappedNext next [errorToPass] w)).

(** Lines 122-128, the body of the [catch] block up to its [return]; [Some]
    when the block throws.  [String(err)] is evaluated inside the block,
    unprotected: when it throws, nothing has been made or delivered. *)
Definition on_thrown (next : ref) (err : value) (w : world)
  : option exn * world :=
  if negb (hasCalledNext w) then
    if instanceof_Error err then deliver next err w
    else
      match ToString err with
      | Some text =>
          let '(errorToPass, w) :=
            new_Error ("Non-Error thrown synchronously: " +:+ text) w in
          deliver next errorToPass w
      | None => (Some not_convertible, w)
      end
  else (None, w).

(** Lines 107-117, the callback given to [result.catch]; [Some] when the
    callback throws, which rejects the promise [result.catch] made. *)
Definition on_rejected (next : ref) (err : value) (w : world)
  : option exn * world :=
  if negb (hasCalledNext w) then
    if instanceof_Error err then deliver next err w
    else
      match ToString err with
      | Some text =>
          let '(errorToPass, w) :=
            new_Error ("Non-Error thrown/rejected: " +:+ text) w in
          deliver next errorToPass w
      | None => (Some not_convertible, w)
      end
  else (None, w).

(** Lines 60-132.  [expectedArgCount] and [fn] are the variables the
    closure captured at wrap time. *)
Definition wrappedHandler (expectedArgCount : nat) (fn : handler)
    (args : list value) (w : world) : completion * world :=
  let w := set_hasCalledNext false w in
  let w :=
    if length args <? expectedArgCount
    then log (InsufficientArguments expectedArgCount (length args)) w
    else w in
  match default VUndefined (last args) with
  | VFun next =>
      let '(guard, w) := alloc w in
      let args := <[pred (length args) := VFun guard]> args in
      match run_sync next (fn args) (call_fn args w) with
      | (Normal result, w) => (Returned result, w)
      | (Promise p, w) => (Pending next p, w)
      | (Thrown err, w) =>
          match on_thrown next err w with
          | (None, w) => (Returned VUndefined, w)
          | (Some e, w) => (Threw e, w)
          end
      end
  | _ => (Returned VUndefined, log LastArgNotFunction w)
  end.

(** How an invocation ends for its caller: the call returned a plain value
    or threw, or the promise it returned was fulfilled or rejected. *)
Inductive outcome :=
| Value (v : value)
| Fulfilled (v : value)
| Rejected (e : exn)
| Raised (e : exn).

(** How the promise made by [result.catch(...)] settles once the handler's
    promise rejected with [err]. *)
Definition caught (next : ref) (err : value) (w : world) : outcome * world :=
  match on_rejected next err w with
  | (None, w) => (Fulfilled VUndefined, w)
  | (Some e, w) => (Rejected e, w)
  end.

(** One turn of the event loop on the asynchronous part of an invocation. *)
Definition async_step (next : ref) (p : async_script) (w : world)
  : (async_script + outcome) * world :=
  match p with
  | AResolve v => (inr (Fulfilled v), w)
  | AReject err => let '(o, w) := caught next err w in (inr o, w)
  | ACallNext nextArgs k => (inl k, snd (wrappedNext next nextArgs w))
  end.

(** The promise returned by the wrapper, run until it settles with nothing
    else scheduled in between. *)
Fixpoint settle (next : ref) (p : async_script) (w : world) : outcome * world :=
  match p with
  | AResolve v => (Fulfilled v, w)
  | AReject err => caught next err w
  | ACallNext nextArgs k => settle next k (snd (wrappedNext next nextArgs w))
  end.

(** One invocation of the wrapper, from the call until its promise (if
    any) has settled, with no other invocation in between. *)
Definition invoke (expectedArgCount : nat) (fn : handler)
    (args : list value) (w : world) : outcome * world :=
  match wrappedHandler expectedArgCount fn args w with
  | (Returned v, w) => (Value v, w)
  | (Pending next p, w) => settle next p w
  | (Threw e, w) => (Raised e, w)
  end.

(** *** Several invocations of one wrapper on the event loop *)

Inductive event :=
| Call (args : list value)
| Tick (i : nat).

(** [promises] has one slot per invocation made so far, in call order; a
    slot is [None] once the invocation has nothing pending. *)
Record loop := Loop {
  lworld : world;
  promises : list (option (ref * async_script))
}.

Definition step (expectedArgCount : nat) (fn : handler) (e : event)
    (l : loop) : loop :=
  match e with
  | Call args =>
      match wrappedHandler expectedArgCount fn args (lworld l) with
      | (Returned _, w) => Loop w (promises l ++ [None])
      | (Pending next p, w) => Loop w (promises l ++ [Some (next, p)])
      | (Threw _, w) => Loop w (promises l ++ [None])
      end
  | Tick i =>
      match promises l !! i with
      | Some (Some (next, p)) =>
          match async_step next p (lworld l) with
          | (inl k, w) => Loop w (<[i := Some (next, k)]> (promises l))
          | (inr _, w) => Loop w (<[i := None]> (promises l))
          end
      | _ => l
      end
  end.

Definition run (expectedArgCount : nat) (fn : handler) (es : list event)
    (l : loop) : loop :=
  foldl (fun l e => step expectedArgCount fn e l) l es.

(** The calls one continuation received. *)
Definition received (next : ref) (w : world) : list (list value) :=
  omap (fun c => if decide (c.1 = next) then Some c.2 else None) (delivered w).

End Invocation.

(** ** Part 2: wrapping at registration time *)

(** *** Ordinary objects *)

Inductive descriptor :=
| Data (v : value) (writable enumerable configurable : bool)
| Accessor (get set : value) (enumerable configurable : bool).

#[global] Instance descriptor_eq_dec : EqDecision descriptor.
Proof. solve_decision. Defined.

(** Own properties are kept in the order [Object.getOwnPropertyNames]
    lists them in: the array indices first, ascending, then the other names
    in creation order.  [o_closure] is set on the
    functions [wrapHandler] creates: the [fn] and [expectedArgCount] their
    closure captured. *)
Record obj := Obj {
  o_proto : option ref;
  o_props : list (string * descriptor);
  o_extensible : bool;
  o_closure : option (value * value)
}.

Definition Object_prototype : ref := 0.
Definition Function_prototype : ref := 1.

Record state := State {
  heap : gmap ref obj;
  out : list diag
}.

(** How a piece of the wrapping code ends.  [Diverged] is the embedding
    running out of fuel; [processPrototype_total] shows it does not happen. *)
Inductive result (A : Type) :=
| Ok (a : A)
| Throw (e : exn)
| Diverged.
Arguments Ok {A} a.
Arguments Throw {A} e.
Arguments Diverged {A}.

Definition M (A : Type) : Type := state -> result A * state.

Definition ret {A} (a : A) : M A := fun st => (Ok a, st).

Definition bind {A B} (m : M A) (f : A -> M B) : M B :=
  fun st =>
    match m st with
    | (Ok a, st) => f a st
    | (Throw e, st) => (Throw e, st)
    | (Diverged, st) => (Diverged, st)
    end.

Definition throw {A} (e : exn) : M A := fun st => (Throw e, st).

Definition try_catch {A} (m : M A) (handle : exn -> M A) : M A :=
  fun st =>
    match m st with
    | (Throw e, st) => handle e st
    | r => r
    end.

Definition console_log (d : diag) : M unit :=
  fun st => (Ok tt, State (heap st) (out st ++ [d])).

Notation "'let*' x ':=' m 'in' k" := (bind m (fun x => k))
  (at level 10, x name, m at level 100, k at level 200).
Notation "m ';;' k" := (bind m (fun _ => k))
  (at level 100, k at level 200, right associativity).

Definition own_property (o : obj) (key : string) : option descriptor :=
  snd <$> List.find (fun kd => String.eqb (fst kd) key) (o_props o).

(** [Object.getOwnPropertyDescriptor] *)
Definition getOwnPropertyDescriptor (h : gmap ref obj) (r : ref) (key : string)
  : option descriptor :=
  o ← h !! r; own_property o key.

(** [Object.getOwnPropertyNames] *)
Definition getOwnPropertyNames (h : gmap ref obj) (r : ref) : list string :=
  match h !! r with
  | Some o => fst <$> o_props o
  | None => []
  end.

(** [Object.getPrototypeOf] *)
Definition getPrototypeOf (h : gmap ref obj) (r : ref) : option ref :=
  o ← h !! r; o_proto o.

Definition is_configurable (d : descriptor) : bool :=
  match d with Data _ _ _ c => c | Accessor _ _ _ c => c end.

Definition is_enumerable (d : descriptor) : bool :=
  match d with Data _ _ e _ => e | Accessor _ _ e _ => e end.

(** ValidateAndApplyPropertyDescriptor, step 4, for a descriptor with every
    field present: may [current] be redefined as [Desc]? *)
Definition may_redefine (current Desc : descriptor) : bool :=
  if is_configurable current then true
  else if is_configurable Desc then false
  else if negb (Bool.eqb (is_enumerable Desc) (is_enumerable current)) then false
  else
    match current, Desc with
    | Data cv cw _ _, Data v w _ _ =>
        if cw then true else negb w && bool_decide (v = cv)
    | Accessor cg cs _ _, Accessor g s _ _ =>
        bool_decide (g = cg) && bool_decide (s = cs)
    | _, _ => false
    end.

(** The array index a property name stands for, if it does: the canonical
    decimal numeral of an integer below [2^32 - 1]. *)
Definition array_index (key : string) : option N :=
  match NilEmpty.uint_of_string key with
  | Some u =>
      let i := N.of_uint u in
      if String.eqb (NilZero.string_of_uint (N.to_uint i)) key
         && (i <? 4294967295)%N
      then Some i else None
  | None => None
  end.

(** An existing property keeps its place. *)
Fixpoint replace_prop (key : string) (d : descriptor)
    (props : list (string * descriptor)) : list (string * descriptor) :=
  match props with
  | [] => []
  | (k, d0) :: props =>
      if String.eqb k key then (key, d) :: props
      else (k, d0) :: replace_prop key d props
  end.

(** A new array index goes after the smaller indices. *)
Fixpoint add_index (i : N) (key : string) (d : descriptor)
    (props : list (string * descriptor)) : list (string * descriptor) :=
  match props with
  | [] => [(key, d)]
  | (k, d0) :: rest =>
      match array_index k with
      | Some j =>
          if (j <? i)%N then (k, d0) :: add_index i key d rest
          else (key, d) :: props
      | None => (key, d) :: props
      end
  end.

(** The own properties once [key] is defined as [d]: an existing property
    keeps its place, a new array index goes among the indices, any other new
    name goes last. *)
Definition set_prop (key : string) (d : descriptor)
    (props : list (string * descriptor)) : list (string * descriptor) :=
  match List.find (fun kd => String.eqb (fst kd) key) props with
  | Some _ => replace_prop key d props
  | None =>
      match array_index key with
      | Some i => add_index i key d props
      | None => props ++ [(key, d)]
      end
  end.

Definition with_props (o : obj) (props : list (string * descriptor)) : obj :=
  Obj (o_proto o) props (o_extensible o) (o_closure o).

(** [Object.defineProperty(O, P, Desc)] on an ordinary object. *)
Definition defineProperty (O : ref) (P : string) (Desc : descriptor) : M unit :=
  fun st =>
    match heap st !! O with
    | None => (Throw (TypeError "Object.defineProperty called on non-object"), st)
    | Some o =>
        let allowed :=
          match own_property o P with
          | None => o_extensible o
          | Some current => may_redefine current Desc
          end in
        if allowed
        then (Ok tt, State (<[O := with_props o (set_prop P Desc (o_props o))]> (heap st)) (out st))
        else (Throw (TypeError "Cannot redefine property"), st)
    end.

Definition fresh_ref (h : gmap ref obj) : ref :=
  fresh ({[Object_prototype; Function_prototype]} ∪ dom h).

Definition allocate (o : ref -> obj) : M ref :=
  fun st =>
    let r := fresh_ref (heap st) in
    (Ok r, State (<[r := o r]> (heap st)) (out st)).

Section Wrapping.
Context `{Host}.

(** [O.key]: the first holder along the prototype chain decides. *)
Fixpoint Get (fuel : nat) (h : gmap ref obj) (r : ref) (key : string) : value :=
  match fuel with
  | 0 => VUndefined
  | S fuel =>
      match h !! r with
      | None => VUndefined
      | Some o =>
          match own_property o key with
          | Some (Data v _ _ _) => v
          | Some (Accessor (VFun g) _ _ _) => getter_result g
          | Some (Accessor _ _ _ _) => VUndefined
          | None =>
              match o_proto o with
              | Some p => Get fuel h p key
              | None => VUndefined
              end
          end
      end
  end.

Definition get (h : gmap ref obj) (v : value) (key : string) : value :=
  match ref_of v with
  | Some r => Get (size h) h r key
  | None => VUndefined
  end.

(** Lines 151-163: one turn of the loop that copies the own properties of
    [fn].  Spreading an accessor descriptor and adding [writable] gives a
    descriptor [Object.defineProperty] refuses. *)
Definition copy_prop (wrapped : ref) (kd : string * descriptor) : M unit :=
  let '(prop, descriptor) := kd in
  if negb (String.eqb prop "length") && negb (String.eqb prop "name") then
    match descriptor with
    | Data v _ e _ => defineProperty wrapped prop (Data v true e true)
    | Accessor _ _ _ _ =>
        throw (TypeError "Invalid property descriptor")
    end
  else ret tt.

Fixpoint copy_props (wrapped : ref) (originalProps : list (string * descriptor))
  : M unit :=
  match originalProps with
  | [] => ret tt
  | kd :: rest => copy_prop wrapped kd ;; copy_props wrapped rest
  end.

(** The function expression of line 60, in strict code: own [length],
    [name] and a non-configurable [prototype]. *)
Definition new_wrappedHandler (fn expectedArgCount : value) : M ref :=
  let* proto := allocate (fun _ => Obj (Some Object_prototype) [] true None) in
  let* wrapped := allocate (fun _ =>
    Obj (Some Function_prototype)
        [("length", Data (VNum 0) false false true);
         ("name", Data (VStr "wrappedHandler") false false true);
         ("prototype", Data (VObj proto) true false false)]
        true (Some (fn, expectedArgCount))) in
  defineProperty proto "constructor" (Data (VFun wrapped) true false true) ;;
  ret wrapped.

(** Lines 49-166.  The [name] of a function is a string
    ([Function.name: string]), so the template literal of line 136 has
    nothing to convert. *)
Definition wrapHandler (fn : value) : M value :=
  if negb (isFunction fn) then
    console_log (WrapHandlerNonFunction fn) ;; ret fn
  else fun st =>
    let h := heap st in
    let expectedArgCount := get h fn "length" in
    let originalName :=
      if truthy (get h fn "name") then get h fn "name" else VStr "handler" in
    let originalProps :=
      match ref_of fn with
      | Some r => match h !! r with Some o => o_props o | None => [] end
      | None => []
      end in
    (let* wrapped := new_wrappedHandler fn expectedArgCount in
     defineProperty wrapped "name"
       (Data (VStr ("wrapped_" +:+ String_ originalName)) true false true) ;;
     defineProperty wrapped "length"
       (Data (get h fn "length") false false true) ;;
     copy_props wrapped originalProps ;;
     ret (VFun wrapped)) st.

(** Lines 209-236: one turn of the loop over the property names. *)
Definition wrap_member (prototype : ref) (key : string) : M unit :=
  if String.eqb key "constructor" then ret tt
  else fun st =>
    match getOwnPropertyDescriptor (heap st) prototype key with
    | Some (Data v w e c) =>
        if isFunction v then
          try_catch
            (let* wrappedMethod := wrapHandler v in
             defineProperty prototype key (Data wrappedMethod w e c))
            (fun _ => console_log (FailedToWrapMethod key)) st
        else (Ok tt, st)
    | _ => (Ok tt, st)
    end.

Fixpoint wrap_members (prototype : ref) (propertyNames : list string) : M unit :=
  match propertyNames with
  | [] => ret tt
  | key :: rest => wrap_member prototype key ;; wrap_members prototype rest
  end.

(** Lines 200-243.  [processedPrototypes] is the WeakSet of line 198; the
    list returned beside it names the levels whose members were gone
    through, in order. *)
Fixpoint processPrototype (fuel : nat) (prototype : ref)
    (processedPrototypes : gset ref) : M (gset ref * list ref) :=
  match fuel with
  | 0 => fun st => (Diverged, st)
  | S fuel =>
      if decide (prototype ∈ processedPrototypes) then
        ret (processedPrototypes, [])
      else fun st =>
        let processedPrototypes := {[prototype]} ∪ processedPrototypes in
        let propertyNames := getOwnPropertyNames (heap st) prototype in
        (wrap_members prototype propertyNames ;;
         fun st =>
           match getPrototypeOf (heap st) prototype with
           | Some parentPrototype =>
               if decide (parentPrototype = Object_prototype)
               then (Ok (processedPrototypes, [prototype]), st)
               else
                 (let* r := processPrototype fuel parentPrototype processedPrototypes in
                  ret (r.1, prototype :: r.2)) st
           | None => (Ok (processedPrototypes, [prototype]), st)
           end) st
  end.

(** Lines 175-248. *)
Definition wrapControllerClass (constructor : value) : M value :=
  if negb (isFunction constructor) then
    console_log (WrapClassNonFunction constructor) ;; ret constructor
  else fun st =>
    let prototype := get (heap st) constructor "prototype" in
    if negb (truthy prototype) then
      (console_log WrapClassNoPrototype ;; ret constructor) st
    else
      match ref_of prototype with
      | Some p =>
          (processPrototype (S (size (heap st))) p ∅ ;; ret constructor) st
      | None => (Throw (TypeError "Invalid value used in weak set"), st)
      end.

(** Lines 334-359. *)
Definition catchAsync (target : value) : M value :=
  fun st =>
    match target with
    | VNull | VUndefined => (Ok target, st)
    | _ =>
        if isFunction target
           && truthy (get (heap st) target "prototype")
           && typeof_object (get (heap st) target "prototype")
        then wrapControllerClass target st
        else if isFunction target then wrapHandler target st
        else (Throw (TypeError "Target must be a function or a class constructor"), st)
    end.

End Wrapping.

(** ** What a script asks of the continuation *)

Fixpoint async_calls (p : async_script) : list (list value) :=
  match p with
  | ACallNext nextArgs k => nextArgs :: async_calls k
  | _ => []
  end.

Fixpoint sync_calls (s : script) : list (list value) :=
  match s with
  | SCallNext nextArgs k => nextArgs :: sync_calls k
  | _ => []
  end.

(** How the synchronous part of a script ends. *)
Fixpoint ending (s : script) : sync_result :=
  match s with
  | SReturn v => Normal v
  | SReturnPromise p => Promise p
  | SThrow err => Thrown err
  | SCallNext _ k => ending k
  end.

Definition returned_promise (s : script) : option async_script :=
  match ending s with Promise p => Some p | _ => None end.

(** Every explicit call of the continuation, before and after the handler
    returned. *)
Definition explicit_calls (s : script) : list (list value) :=
  sync_calls s ++ from_option async_calls [] (returned_promise s).

(** How the promise a handler returned settles: [inl] fulfilled, [inr]
    rejected. *)
Fixpoint async_ending (p : async_script) : value + value :=
  match p with
  | AResolve v => inl v
  | AReject err => inr err
  | ACallNext _ k => async_ending k
  end.

(** The value the handler throws synchronously, if it does. *)
Definition throws (s : script) : option value :=
  match ending s with Thrown err => Some err | _ => None end.

(** The value the promise returned by the handler rejects with, if it does. *)
Definition rejects (s : script) : option value :=
  match ending s with
  | Promise p => match async_ending p with inr err => Some err | inl _ => None end
  | _ => None
  end.

(** The world in which the wrapper applies [fn]: flag reset, arity checked,
    guard created, call recorded. *)
Definition entered (expectedArgCount : nat) (args : list value) (w : world) : world :=
  let w := set_hasCalledNext false w in
  let w :=
    if length args <? expectedArgCount
    then log (InsufficientArguments expectedArgCount (length args)) w
    else w in
  call_fn (<[pred (length args) := VFun (next_ref w)]> args) (snd (alloc w)).

(** The script the handler runs when the wrapper is called with [args] in
    world [w]: it sees the guarded continuation in the last position. *)
Definition script_of (fn : handler) (args : list value) (w : world) : script :=
  fn (<[pred (length args) := VFun (next_ref w)]> args).

Definition contains (s part : string) : Prop :=
  exists pre post, s = pre +:+ part +:+ post.

(** What a failure is turned into before it is handed to the guard. *)
Definition normalized `{Host} (err errorToPass : value) : Prop :=
  if instanceof_Error err then errorToPass = err
  else exists r message,
      errorToPass = VError r message /\ contains message (String_ err).

(** Can the failure be handed on (lines 109-112 and 123-126)?  An [Error]
    is passed as it is; anything else has to be converted to a string
    first. *)
Definition normalizable `{Host} (err : value) : bool :=
  instanceof_Error err || bool_decide (is_Some (ToString err)).

(** The world after [calls] went through the guard of [next]. *)
Definition after_calls (next : ref) (calls : list (list value)) (w : world) : world :=
  foldl (fun w nextArgs => snd (wrappedNext next nextArgs w)) w calls.

(** ** What the traversal is expected to do *)

(** The levels of a bundle (4.3, steps 1, 2 and 4): from the level [p]
    along the parent links, up to a level without parent, a level whose
    parent is [Object.prototype], or a level already seen. *)
Fixpoint chain (fuel : nat) (h : gmap ref obj) (p : ref) (seen : gset ref)
  : list ref :=
  match fuel with
  | 0 => []
  | S fuel =>
      if decide (p ∈ seen) then []
      else
        p ::
        match getPrototypeOf h p with
        | Some q =>
            if decide (q = Object_prototype) then []
            else chain fuel h q ({[p]} ∪ seen)
        | None => []
        end
  end.

Definition is_data (d : descriptor) : bool :=
  match d with Data _ _ _ _ => true | Accessor _ _ _ _ => false end.

(** Can the property be copied onto a fresh wrapper (lines 151-163)?  The
    wrapper's own [prototype] is not configurable, and an accessor cannot be
    made writable. *)
Definition copy_ok (kd : string * descriptor) : bool :=
  String.eqb kd.1 "length" || String.eqb kd.1 "name"
  || (is_data kd.2 && negb (String.eqb kd.1 "prototype")).

(** Does [wrapHandler fn] return rather than throw? *)
Definition wrappable (h : gmap ref obj) (fn : value) : bool :=
  match ref_of fn with
  | Some r =>
      match h !! r with
      | Some o => forallb copy_ok (o_props o)
      | None => true
      end
  | None => true
  end.

(** [wrapper] is a function made by [wrapHandler] around [fn]. *)
Definition wraps (h : gmap ref obj) (wrapper : ref) (fn : value) : Prop :=
  exists o expectedArgCount,
    h !! wrapper = Some o /\ o_closure o = Some (fn, expectedArgCount).

(** What has become of the member [key], which was [d] in heap [h0], once
    its level has been gone through and the heap is [h']. *)
Definition member_after (h0 h' : gmap ref obj) (key : string)
    (d d' : descriptor) : Prop :=
  match d with
  | Data v w e c =>
      if negb (String.eqb key "constructor") && isFunction v
      then
        if wrappable h0 v && (c || w)
        then exists r, d' = Data (VFun r) w e c /\ h0 !! r = None /\ wraps h' r v
        else d' = d
      else d' = d
  | Accessor _ _ _ _ => d' = d
  end.

(** Heaps the wrapping code is run on: parent links and function-valued
    members point into the heap, and an object has a name once. *)
Definition in_heap (h : gmap ref obj) (v : value) : bool :=
  match ref_of v with
  | Some r => bool_decide (is_Some (h !! r))
  | None => true
  end.

Definition wf_obj (h : gmap ref obj) (o : obj) : bool :=
  from_option (fun p => bool_decide (is_Some (h !! p))) true (o_proto o)
  && bool_decide (NoDup (fst <$> o_props o))
  && forallb (fun kd => match kd.2 with
                        | Data v _ _ _ => in_heap h v
                        | Accessor _ _ _ _ => true
                        end) (o_props o).

Definition wf_heap (h : gmap ref obj) : Prop :=
  forallb (fun ro => wf_obj h ro.2) (map_to_list h) = true.

(** The wrapping code changes the values of members, never the shape of an
    object. *)
Definition same_entry (kd kd' : string * descriptor) : Prop :=
  kd.1 = kd'.1 /\
  match kd.2, kd'.2 with
  | Data _ w e c, Data _ w' e' c' => w = w' /\ e = e' /\ c = c'
  | Accessor _ _ _ _, d' => d' = kd.2
  | _, _ => False
  end.

Definition evolves (h h' : gmap ref obj) : Prop :=
  forall r o, h !! r = Some o ->
    exists o', h' !! r = Some o' /\ o_proto o' = o_proto o /\
               Forall2 same_entry (o_props o) (o_props o').

(** The state of a wrapper under construction that the copying loop relies
    on: extensible, with a [prototype] that cannot be redefined and nothing
    else that is not configurable. *)
Definition under_construction (W : obj) : Prop :=
  o_extensible W = true /\
  (forall k d, own_property W k = Some d -> k <> "prototype" ->
               is_configurable d = true) /\
  (exists d, own_property W "prototype" = Some d /\ is_configurable d = false).

(** Going through the levels in [L] leaves every other object of the heap
    as it was, and changes no object's shape. *)
Definition touches (L : gset ref) (h h' : gmap ref obj) : Prop :=
  (forall x o, h !! x = Some o -> x ∉ L -> h' !! x = Some o) /\ evolves h h'.

(** ** A small realm to run the code on *)

(** The object [50] is [Object.create(null)]: it cannot be converted to a
    string.  The continuations are those of the tests, [jest.fn()]: they
    return. *)
Definition example_host : Host :=
  {| describe := fun _ => "[object Object]";
     getter_result := fun _ => VUndefined;
     converts := fun r => negb (r =? 50);
     large_number := fun _ => "1e+21";
     next_throws := fun _ _ => None |}.

(** A function as the engine makes it: [length] and [name]. *)
Definition function_object (length : Z) (name : string)
    (more : list (string * descriptor)) : obj :=
  Obj (Some Function_prototype)
      ([("length", Data (VNum length) false false true);
        ("name", Data (VStr name) false false true)] ++ more)
      true None.

(** [0] Object.prototype, [1] Function.prototype, [2] Object,
    [3] Object.prototype.hasOwnProperty,
    [4] an anonymous arrow function of three parameters,
    [5] [function legacy(req, res, next) {}] and [6] its prototype,
    [7] [class Base { baseMethod(req, res, next) {} }], [8] its prototype,
    [9] baseMethod,
    [10] [class Derived extends Base], [11] its prototype, which holds
    testMethod [12], the function [5] as legacyMethod, a getter [13] as id,
    and baseMethod again as a frozen (not writable, not configurable)
    member. *)
Definition realm : gmap ref obj :=
  list_to_map
    [(0, Obj None
           [("constructor", Data (VFun 2) true false true);
            ("hasOwnProperty", Data (VFun 3) true false true)]
           true None);
     (1, Obj (Some 0)
           [("length", Data (VNum 0) false false true);
            ("name", Data (VStr EmptyString) false false true)]
           true None);
     (2, function_object 1 "Object"
           [("prototype", Data (VObj 0) false false false)]);
     (3, function_object 1 "hasOwnProperty" []);
     (4, function_object 3 EmptyString []);
     (5, function_object 3 "legacy"
           [("prototype", Data (VObj 6) true false false)]);
     (6, Obj (Some 0) [("constructor", Data (VFun 5) true false true)] true None);
     (7, function_object 0 "Base"
           [("prototype", Data (VObj 8) false false false)]);
     (8, Obj (Some 0)
           [("constructor", Data (VFun 7) true false true);
            ("baseMethod", Data (VFun 9) true false true)]
           true None);
     (9, function_object 3 "baseMethod" []);
     (10, Obj (Some 7)
            [("length", Data (VNum 0) false false true);
             ("name", Data (VStr "Derived") false false true);
             ("prototype", Data (VObj 11) false false false)]
            true None);
     (11, Obj (Some 8)
            [("constructor", Data (VFun 10) true false true);
             ("testMethod", Data (VFun 12) true false true);
             ("legacyMethod", Data (VFun 5) true false true);
             ("id", Accessor (VFun 13) VUndefined false true);
             ("frozenMethod", Data (VFun 9) false false false)]
            true None);
     (12, function_object 3 "testMethod" []);
     (13, function_object 0 "get id" [])].

Definition req : value := VObj 20.
Definition res : value := VObj 21.
Definition start : world := World false [] [] [] 200.

(** [(req, res, next) => { next(new Error("a")); throw new Error("b") }] *)
Definition next_then_throw : handler :=
  fun _ => SCallNext [VError 100 "a"] (SThrow (VError 101 "b")).


(** [(req, res, next) => { throw "String error" }] *)
Definition throw_string : handler :=
  fun _ => SThrow (VStr "String error").

(** [async (req, res, next) => { await lookup(req); throw new Error("x") }] *)
Definition async_failure : handler :=
  fun _ => SReturnPromise (AReject (VError 102 "x")).

(** A handler that, for request [20], reports an error and later rejects,
    and for any other request just waits:
    [async (req, res, next) => { if (req === first) { next(new Error("a"));
    await pause(); throw new Error("b") } else { await pause() } }] *)
Definition report_then_fail : handler :=
  fun args =>
    match args with
    | VObj 20 :: _ =>
        SCallNext [VError 100 "a"] (SReturnPromise (AReject (VError 101 "b")))
    | _ => SReturnPromise (AResolve VUndefined)
    end.

(** [(req, res, next) => { throw Object.create(null) }] *)
Definition throw_bare_object : handler :=
  fun _ => SThrow (VObj 50).

(** [async (req, res, next) => { throw Object.create(null) }] *)
Definition async_throw_bare_object : handler :=
  fun _ => SReturnPromise (AReject (VObj 50)).

(** ** More to say about the code *)

(** How many calls of the wrapper a schedule holds. *)
Fixpoint calls_in (es : list event) : nat :=
  match es with
  | [] => 0
  | Call _ :: es => S (calls_in es)
  | Tick _ :: es => calls_in es
  end.

(** What one turn of the copying loop (lines 152-162) makes of the wrapper's
    own properties when it goes through. *)
Definition copied (props : list (string * descriptor))
    (kd : string * descriptor) : list (string * descriptor) :=
  match kd.2 with
  | Data v _ e _ =>
      if negb (String.eqb kd.1 "length") && negb (String.eqb kd.1 "name")
      then set_prop kd.1 (Data v true e true) props
      else props
  | Accessor _ _ _ _ => props
  end.

(** The names the copying loop takes over. *)
Definition is_copied (key : string) : bool :=
  negb (String.eqb key "length") && negb (String.eqb key "name").

Definition is_index (key : string) : bool :=
  match array_index key with Some _ => true | None => false end.

(** The array indices among the names come in ascending order, as they do
    in every list [Object.getOwnPropertyNames] returns. *)
Definition indices_ascending (names : list string) : Prop :=
  StronglySorted N.lt (omap array_index names).

(** Every function with a closure that is in [h] and was not in [h0], that
    is every function [wrapHandler] has made since, owns a [prototype]. *)
Definition wrappers_own_prototype (h0 h : gmap ref obj) : Prop :=
  forall r o, h !! r = Some o -> h0 !! r = None -> is_Some (o_closure o) ->
              is_Some (own_property o "prototype").

(** Nothing is left to wrap on level [l]: each callable member either cannot
    be wrapped or cannot be redefined. *)
Definition settled (h : gmap ref obj) (l : ref) : Prop :=
  forall key v w e c,
    getOwnPropertyDescriptor h l key = Some (Data v w e c) ->
    String.eqb key "constructor" = false ->
    isFunction v = true ->
    wrappable h v = false \/ (c || w = false /\ in_heap h v = true).

(** ** Part 3: from an error to a response *)

(** [errorCodes.ts]: the [Map] from status code to status text. *)
Definition errorCodes : list (Z * string) :=
  [(400, "Bad Request");
   (401, "Unauthorized");
   (402, "Payment Required");
   (403, "Forbidden");
   (404, "Not Found");
   (405, "Method Not Allowed");
   (406, "Not Acceptable");
   (407, "Proxy Authentication Required");
   (408, "Request Timeout");
   (409, "Conflict");
   (410, "Gone");
   (411, "Length Required");
   (412, "Precondition Failed");
   (413, "Payload Too Large");
   (414, "URI Too Long");
   (415, "Unsupported Media Type");
   (416, "Range Not Satisfiable");
   (417, "Expectation Failed");
   (418, "I'm a teapot");
   (421, "Misdirected Request");
   (422, "Unprocessable Content");
   (423, "Locked");
   (424, "Failed Dependency");
   (425, "Too Early");
   (426, "Upgrade Required");
   (428, "Precondition Required");
   (429, "Too Many Requests");
   (431, "Request Header Fields Too Large");
   (451, "Unavailable For Legal Reasons");
   (500, "Internal Server Error");
   (501, "Not Implemented");
   (502, "Bad Gateway");
   (503, "Service Unavailable");
   (504, "Gateway Timeout");
   (505, "HTTP Version Not Supported");
   (506, "Variant Also Negotiates");
   (507, "Insufficient Storage");
   (508, "Loop Detected");
   (510, "Not Extended");
   (511, "Network Authentication Required")]%Z.

(** [errorCodes.get(key)] for a numeric key. *)
Definition errorCodes_get (key : Z) : option string :=
  snd <$> List.find (fun kv => (kv.1 =? key)%Z) errorCodes.

(** [errorCodes.has(key)] for any key: the keys of the map are numbers. *)
Definition errorCodes_has (key : value) : bool :=
  match key with
  | VNum n => bool_decide (is_Some (errorCodes_get n))
  | _ => false
  end.

(** An instance of the class [ErrorHandler], by its three fields. *)
Record ErrorHandler := Build_ErrorHandler {
  message : string;
  statusCode : Z;
  statusText : option string
}.

(** [new ErrorHandler(message, statusCode)], for arguments of any kind: a
    parameter takes its default when the argument is [undefined], and
    [super(message)] converts the message to a string, which throws when the
    message cannot be converted. *)
Definition new_ErrorHandler `{Host} (message statusCode : value)
  : result ErrorHandler :=
  let message :=
    match message with
    | VUndefined => VStr "Something went wrong! Please try again"
    | _ => message
    end in
  let statusCode :=
    match statusCode with VUndefined => VNum 500 | _ => statusCode end in
  match ToString message with
  | Some text =>
      let code :=
        match statusCode with
        | VNum n => if errorCodes_has statusCode then n else 500%Z
        | _ => 500%Z
        end in
      Ok (Build_ErrorHandler text code (errorCodes_get code))
  | None => Throw not_convertible
  end.

(** What reading an enumerable own property yields. *)
Definition read_descriptor `{Host} (d : descriptor) : value :=
  match d with
  | Data v _ _ _ => v
  | Accessor (VFun g) _ _ _ => getter_result g
  | Accessor _ _ _ _ => VUndefined
  end.

(** The enumerable own properties of an object, in the order of [o_props]
    (the order [Object.getOwnPropertyNames] lists them in). *)
Definition enumerable_props (h : gmap ref obj) (r : ref)
  : list (string * descriptor) :=
  match h !! r with
  | Some o => List.filter (fun kd => is_enumerable kd.2) (o_props o)
  | None => []
  end.

(** The one-character strings of a string (its code units). *)
Fixpoint characters (s : string) : list string :=
  match s with
  | EmptyString => []
  | String a s => String a EmptyString :: characters s
  end.

(** [Object.values(x)] *)
Definition Object_values `{Host} (h : gmap ref obj) (x : value)
  : result (list value) :=
  match x with
  | VUndefined | VNull =>
      Throw (TypeError "Cannot convert undefined or null to object")
  | VBool _ | VNum _ => Ok []
  | VStr s => Ok (VStr <$> characters s)
  | VObj r | VFun r | VError r _ =>
      Ok ((fun kd => read_descriptor kd.2) <$> enumerable_props h r)
  end.

(** [Object.keys(x)] *)
Definition Object_keys (h : gmap ref obj) (x : value) : result (list string) :=
  match x with
  | VUndefined | VNull =>
      Throw (TypeError "Cannot convert undefined or null to object")
  | VBool _ | VNum _ => Ok []
  | VStr s =>
      Ok ((fun i => NilZero.string_of_uint (Nat.to_uint i)) <$>
            seq 0 (String.length s))
  | VObj r | VFun r | VError r _ => Ok (fst <$> enumerable_props h r)
  end.

(** [values.map((value) => value.message)] *)
Fixpoint map_message `{Host} (h : gmap ref obj) (values : list value)
  : result (list value) :=
  match values with
  | [] => Ok []
  | value :: values =>
      match value with
      | VUndefined | VNull =>
          Throw (TypeError "Cannot read properties of undefined (reading 'message')")
      | _ =>
          match map_message h values with
          | Ok messages => Ok (get h value "message" :: messages)
          | Throw e => Throw e
          | Diverged => Diverged
          end
      end
  end.

(** What [Array.prototype.join] makes of an element: [undefined] and
    [null] give the empty string, anything else is converted. *)
Definition item_string `{Host} (v : value) : option string :=
  match v with
  | VUndefined | VNull => Some EmptyString
  | _ => ToString v
  end.

(** [array.join(separator)]; [None] when an element cannot be converted. *)
Definition Array_join `{Host} (separator : string) (array : list value)
  : option string :=
  String.concat separator <$> mapM item_string array.

(** [handleCommonErrors.ts], lines 10-41. *)
Definition handleCommonErrors `{Host} (h : gmap ref obj) (err : value)
  : result ErrorHandler :=
  if negb (truthy err) || negb (typeof_object err) then
    new_ErrorHandler (VStr "Unexpected error occurred") (VNum 500)
  else
    let name := get h err "name" in
    if bool_decide (name = VStr "CastError") then
      match ToString (get h err "path") with
      | Some path =>
          new_ErrorHandler (VStr ("Resource not found. Invalid " +:+ path))
                           (VNum 400)
      | None => Throw not_convertible
      end
    else if bool_decide (name = VStr "ValidationError") then
      match Object_values h (get h err "errors") with
      | Ok values =>
          match map_message h values with
          | Ok messages =>
              match Array_join ", " messages with
              | Some message => new_ErrorHandler (VStr message) (VNum 400)
              | None => Throw not_convertible
              end
          | Throw e => Throw e
          | Diverged => Diverged
          end
      | Throw e => Throw e
      | Diverged => Diverged
      end
    else if bool_decide (name = VStr "JsonWebTokenError")
            || bool_decide (name = VStr "TokenExpiredError") then
      new_ErrorHandler
        (VStr "JSON Web Token is invalid or expired. Please try again")
        (VNum 400)
    else if bool_decide (name = VStr "AxiosError") then
      new_ErrorHandler (VStr "Error communicating with an external service")
                       (VNum 502)
    else
      new_ErrorHandler
        (if truthy (get h err "message") then get h err "message"
         else VStr "Unhandled server error")
        (if truthy (get h err "statusCode") then get h err "statusCode"
         else VNum 500).

(** What [res.status(...).json(...)] is called with. *)
Record response := Response {
  status : Z;
  json_success : bool;
  json_message : string;
  json_statusCode : Z;
  json_statusText : option string
}.

(** Lines 57-62 of [errorMiddleware.ts]. *)
Definition respond (error : ErrorHandler) : response :=
  Response (statusCode error) false (message error) (statusCode error)
           (statusText error).

(** Lines 28-54 of [errorMiddleware.ts]: the error the [switch] on
    [err.code] leaves in [error]. *)
Definition by_code `{Host} (h : gmap ref obj) (err : value)
    (error : ErrorHandler) : result ErrorHandler :=
  let code := get h err "code" in
  if bool_decide (code = VStr "ENOENT") then
    new_ErrorHandler (VStr "Resource not found") (VNum 404)
  else if bool_decide (code = VNum 11000) then
    let keyValue := get h err "keyValue" in
    match Object_keys h (if truthy keyValue then keyValue
                         else VObj (fresh_ref h)) with
    | Ok keys =>
        match Array_join ", " (VStr <$> keys) with
        | Some duplicateField =>
            new_ErrorHandler
              (VStr ("Duplicate entry for field(s): " +:+ duplicateField))
              (VNum 400)
        | None => Throw not_convertible
        end
    | Throw e => Throw e
    | Diverged => Diverged
    end
  else if bool_decide (code = VStr "EBADCSRFTOKEN") then
    new_ErrorHandler (VStr "Invalid CSRF token") (VNum 403)
  else if bool_decide (code = VStr "ECONNREFUSED") then
    new_ErrorHandler (VStr "Connection refused") (VNum 502)
  else if bool_decide (code = VStr "ECONNRESET") then
    new_ErrorHandler (VStr "Connection reset by peer") (VNum 502)
  else if bool_decide (code = VStr "ETIMEDOUT") then
    new_ErrorHandler (VStr "Connection timed out") (VNum 502)
  else Ok error.

(** [errorMiddleware.ts], lines 20-62; the request and [next] are not used.
    [{}] of line 33 is an object that is not in the heap. *)
Definition errorMiddleware `{Host} (h : gmap ref obj) (err : value)
  : result response :=
  match handleCommonErrors h err with
  | Ok error =>
      match err with
      | VUndefined | VNull =>
          Throw (TypeError "Cannot read properties of undefined (reading 'code')")
      | _ =>
          match by_code h err error with
          | Ok error => Ok (respond error)
          | Throw e => Throw e
          | Diverged => Diverged
          end
      end
  | Throw e => Throw e
  | Diverged => Diverged
  end.

(** [v == null] *)
Definition nullish (v : value) : bool :=
  match v with VUndefined | VNull => true | _ => false end.

(** The names [handleCommonErrors] has a case for. *)
Definition known_names : list value :=
  [VStr "CastError"; VStr "ValidationError"; VStr "JsonWebTokenError";
   VStr "TokenExpiredError"; VStr "AxiosError"].

(** The objects [handleCommonErrors] makes no error of, because a step on
    the way throws: the conversion of [err.path] to a string for a
    CastError; for a ValidationError the listing of [err.errors], the
    reading of [message] on one of its members, or the conversion of one of
    the messages; for any other object the conversion of [err.message]. *)
Definition unanswerable `{Host} (h : gmap ref obj) (err : value) : Prop :=
  truthy err = true /\ typeof_object err = true /\
  ((get h err "name" = VStr "CastError" /\
    ToString (get h err "path") = None) \/
   (get h err "name" = VStr "ValidationError" /\
    (nullish (get h err "errors") = true \/
     exists values,
       Object_values h (get h err "errors") = Ok values /\
       (Exists (fun v => nullish v = true) values \/
        Exists (fun v => item_string (get h v "message") = None) values))) \/
   ((get h err "name" ∉ known_names) /\
    ToString (get h err "message") = None)).

(** The object [err] reads as the instance [e] of [ErrorHandler]: its three
    fields, the name it inherits from [Error.prototype], and no [code]. *)
Definition reads_as `{Host} (h : gmap ref obj) (err : value) (e : ErrorHandler)
  : Prop :=
  typeof_object err = true /\ truthy err = true /\
  get h err "name" = VStr "Error" /\
  get h err "message" = VStr (message e) /\
  get h err "statusCode" = VNum (statusCode e) /\
  get h err "code" = VUndefined.

(** ** More to run the code on *)

(** The realm with one more function, [14]: an arrow function of three
    parameters with properties of its own,
    [tagged = (req, res, next) => {}; tagged.customProp = "test";
    tagged[10] = true; tagged[2] = false]. *)
Definition tagged : obj :=
  Obj (Some Function_prototype)
      [("2", Data (VBool false) true true true);
       ("10", Data (VBool true) true true true);
       ("length", Data (VNum 3) false false true);
       ("name", Data (VStr "tagged") false false true);
       ("customProp", Data (VStr "test") true true true)]
      true None.

Definition tagged_realm : gmap ref obj := <[14 := tagged]> realm.

(** [async (req, res, next) => { res.json(await find(req)) }]: it ends well
    and leaves the continuation alone. *)
Definition answers : handler :=
  fun _ => SReturnPromise (AResolve VUndefined).

(** Errors as they reach the middleware: [0] Object.prototype,
    [40] Error.prototype, [41] ErrorHandler.prototype,
    [42] [new ErrorHandler("No such user", 404)],
    [43] a validation error of Mongoose, with [44] its [errors], which holds
    the failures [45] and [46],
    [47] a duplicate key error of MongoDB, with [48] its [keyValue],
    [49] a validation error without [errors]. *)
Definition thrown_errors : gmap ref obj :=
  list_to_map
    [(0, Obj None [] true None);
     (40, Obj (Some 0)
            [("name", Data (VStr "Error") true false true);
             ("message", Data (VStr EmptyString) true false true)]
            true None);
     (41, Obj (Some 40) [] true None);
     (42, Obj (Some 41)
            [("message", Data (VStr "No such user") true false true);
             ("statusCode", Data (VNum 404) true true true);
             ("statusText", Data (VStr "Not Found") true true true)]
            true None);
     (43, Obj (Some 40)
            [("message", Data (VStr "User validation failed") true false true);
             ("name", Data (VStr "ValidationError") true true true);
             ("errors", Data (VObj 44) true true true)]
            true None);
     (44, Obj (Some 0)
            [("email", Data (VError 45 "Email is required") true true true);
             ("age", Data (VError 46 "Age must be positive") true true true)]
            true None);
     (45, Obj (Some 40)
            [("message", Data (VStr "Email is required") true false true)]
            true None);
     (46, Obj (Some 40)
            [("message", Data (VStr "Age must be positive") true false true)]
            true None);
     (47, Obj (Some 40)
            [("message", Data (VStr "E11000 duplicate key error") true false true);
             ("name", Data (VStr "MongoServerError") true true true);
             ("code", Data (VNum 11000) true true true);
             ("keyValue", Data (VObj 48) true true true)]
            true None);
     (48, Obj (Some 0)
            [("email", Data (VStr "a@b.c") true true true);
             ("tenant", Data (VNum 7) true true true)]
            true None);
     (49, Obj (Some 40)
            [("name", Data (VStr "ValidationError") true true true)]
            true None)].

(** * Proofs *)

(** ** Part 1, proofs: one invocation *)

Section InvocationFacts.
Context `{Host}.

Lemma after_calls_cons next c calls w :
  after_calls next (c :: calls) w =
  after_calls next calls (snd (wrappedNext next c w)).
Proof. done. Qed.

Lemma after_calls_fired next calls w :
  hasCalledNext w = true ->
  after_calls next calls w =
    World true (delivered w) (fn_calls w)
          (console w ++ replicate (length calls) NextCalledMultipleTimes)
          (next_ref w).
Proof.
  revert w. induction calls as [|c calls IH]; intros [f d c0 o n] Hf;
    simpl in Hf; subst.
  - unfold after_calls. simpl. by rewrite app_nil_r.
  - rewrite after_calls_cons. unfold wrappedNext. simpl.
    rewrite IH by done. simpl. by rewrite <- app_assoc.
Qed.

Lemma after_calls_first next c calls w :
  hasCalledNext w = false ->
  after_calls next (c :: calls) w =
    World true (delivered w ++ [(next, c)]) (fn_calls w)
          (console w ++ replicate (length calls) NextCalledMultipleTimes)
          (next_ref w).
Proof.
  intros Hf. rewrite after_calls_cons. unfold wrappedNext. rewrite Hf.
  by rewrite after_calls_fired.
Qed.

Lemma after_calls_app next xs ys w :
  after_calls next (xs ++ ys) w = after_calls next ys (after_calls next xs w).
Proof. unfold after_calls. by rewrite foldl_app. Qed.

(** The synchronous part only touches the world through the guard. *)
Lemma run_sync_spec next s w :
  run_sync next s w = (ending s, after_calls next (sync_calls s) w).
Proof.
  revert w. induction s as [v|p|err|a k IH]; intros w; simpl; [done..|].
  by rewrite IH.
Qed.

Lemma settle_spec next p w :
  settle next p w =
    let w' := after_calls next (async_calls p) w in
    match async_ending p with
    | inl v => (Fulfilled v, w')
    | inr err => caught next err w'
    end.
Proof.
  revert w. induction p as [v|err|a k IH]; intros w; simpl; [done..|].
  by rewrite IH.
Qed.

(** The flag is reset on entry: what an invocation does never depends on
    the value an earlier, finished invocation left in it. *)
Lemma wrappedHandler_resets expectedArgCount fn args b w :
  wrappedHandler expectedArgCount fn args (set_hasCalledNext b w) =
  wrappedHandler expectedArgCount fn args w.
Proof. done. Qed.

Lemma on_thrown_fired next err w :
  hasCalledNext w = true -> on_thrown next err w = (None, w).
Proof. unfold on_thrown. by intros ->. Qed.

Lemma on_rejected_fired next err w :
  hasCalledNext w = true -> on_rejected next err w = (None, w).
Proof. unfold on_rejected. by intros ->. Qed.


Lemma append_empty_r s : s +:+ EmptyString = s.
Proof.
  induction s as [|a s IH]; [reflexivity|].
  change (String a (s +:+ EmptyString) = String a s). by rewrite IH.
Qed.

Lemma contains_suffix pre s : contains (pre +:+ s) s.
Proof. exists pre, EmptyString. by rewrite append_empty_r. Qed.

Lemma ToString_String_ v text : ToString v = Some text -> text = String_ v.
Proof.
  destruct v as [| |b|n|s|r|r|r m]; cbn [ToString];
    try (by intros [= <-]); by case_match; try (intros [= <-]).
Qed.

(** With the flag down, a failure that can be normalized is delivered. *)
Lemma on_thrown_fresh next err w :
  hasCalledNext w = false -> normalizable err = true ->
  exists errorToPass w',
    on_thrown next err w =
      (Uncaught <$> next_throws next [errorToPass], w') /\
    normalized err errorToPass /\
    hasCalledNext w' = true /\
    delivered w' = delivered w ++ [(next, [errorToPass])] /\
    fn_calls w' = fn_calls w /\
    console w' = console w.
Proof.
  intros Hf Hn. unfold on_thrown, normalized, normalizable, deliver in *.
  rewrite Hf. cbn [negb].
  destruct (instanceof_Error err); cbn [orb] in Hn.
  - eexists err, _. split; [done|]. unfold wrappedNext. by rewrite Hf.
  - apply bool_decide_eq_true in Hn as [text Ht]. rewrite Ht.
    cbn. unfold wrappedNext. cbn. rewrite Hf. cbn.
    eexists _, _. split; [done|]. split; [|done].
    do 2 eexists. split; [done|].
    rewrite <- (ToString_String_ _ _ Ht). apply contains_suffix.
Qed.

(** With the flag down, a failure that cannot be converted makes the block
    throw, and nothing is delivered. *)
Lemma on_thrown_stuck next err w :
  hasCalledNext w = false -> normalizable err = false ->
  on_thrown next err w = (Some not_convertible, w).
Proof.
  intros Hf Hn. unfold on_thrown, normalizable in *. rewrite Hf. cbn [negb].
  apply orb_false_iff in Hn as [-> Hn].
  apply bool_decide_eq_false in Hn.
  destruct (ToString err); [|done]. destruct Hn. by eexists.
Qed.

Lemma on_rejected_fresh next err w :
  hasCalledNext w = false -> normalizable err = true ->
  exists errorToPass w',
    on_rejected next err w =
      (Uncaught <$> next_throws next [errorToPass], w') /\
    normalized err errorToPass /\
    hasCalledNext w' = true /\
    delivered w' = delivered w ++ [(next, [errorToPass])] /\
    fn_calls w' = fn_calls w /\
    console w' = console w.
Proof.
  intros Hf Hn. unfold on_rejected, normalized, normalizable, deliver in *.
  rewrite Hf. cbn [negb].
  destruct (instanceof_Error err); cbn [orb] in Hn.
  - eexists err, _. split; [done|]. unfold wrappedNext. by rewrite Hf.
  - apply bool_decide_eq_true in Hn as [text Ht]. rewrite Ht.
    cbn. unfold wrappedNext. cbn. rewrite Hf. cbn.
    eexists _, _. split; [done|]. split; [|done].
    do 2 eexists. split; [done|].
    rewrite <- (ToString_String_ _ _ Ht). apply contains_suffix.
Qed.

Lemma on_rejected_stuck next err w :
  hasCalledNext w = false -> normalizable err = false ->
  on_rejected next err w = (Some not_convertible, w).
Proof.
  intros Hf Hn. unfold on_rejected, normalizable in *. rewrite Hf. cbn [negb].
  apply orb_false_iff in Hn as [-> Hn].
  apply bool_decide_eq_false in Hn.
  destruct (ToString err); [|done]. destruct Hn. by eexists.
Qed.

(** The block of lines 122-128 and the callback of lines 107-117 leave the
    calls of the original and the console alone, and add at most one
    delivery, to [next]. *)
Lemma on_thrown_frame next err w :
  exists calls,
    delivered (on_thrown next err w).2 = delivered w ++ calls /\
    length calls <= 1 /\
    (forall c, c ∈ calls -> c.1 = next) /\
    fn_calls (on_thrown next err w).2 = fn_calls w /\
    console (on_thrown next err w).2 = console w.
Proof.
  destruct (hasCalledNext w) eqn:Hf.
  { rewrite on_thrown_fired by done. exists [].
    rewrite app_nil_r. split_and!; [done|simpl; lia| |done|done].
    by intros ? ?%elem_of_nil. }
  destruct (normalizable err) eqn:Hn.
  - destruct (on_thrown_fresh next err w Hf Hn)
      as (e & w' & -> & _ & _ & Hd & Hc & Ho).
    exists [(next, [e])]. cbn [snd].
    split_and!; [done|simpl; lia| |done|done].
    by intros ? ->%list_elem_of_singleton.
  - rewrite on_thrown_stuck by done. exists [].
    rewrite app_nil_r. split_and!; [done|simpl; lia| |done|done].
    by intros ? ?%elem_of_nil.
Qed.

Lemma on_rejected_frame next err w :
  exists calls,
    delivered (on_rejected next err w).2 = delivered w ++ calls /\
    length calls <= 1 /\
    (forall c, c ∈ calls -> c.1 = next) /\
    fn_calls (on_rejected next err w).2 = fn_calls w /\
    console (on_rejected next err w).2 = console w.
Proof.
  destruct (hasCalledNext w) eqn:Hf.
  { rewrite on_rejected_fired by done. exists [].
    rewrite app_nil_r. split_and!; [done|simpl; lia| |done|done].
    by intros ? ?%elem_of_nil. }
  destruct (normalizable err) eqn:Hn.
  - destruct (on_rejected_fresh next err w Hf Hn)
      as (e & w' & -> & _ & _ & Hd & Hc & Ho).
    exists [(next, [e])]. cbn [snd].
    split_and!; [done|simpl; lia| |done|done].
    by intros ? ->%list_elem_of_singleton.
  - rewrite on_rejected_stuck by done. exists [].
    rewrite app_nil_r. split_and!; [done|simpl; lia| |done|done].
    by intros ? ?%elem_of_nil.
Qed.

Lemma caught_world next err w :
  (caught next err w).2 = (on_rejected next err w).2.
Proof. unfold caught. by destruct (on_rejected next err w) as [[e|] w']. Qed.


(** An invocation whose last argument is callable, in one equation. *)
Lemma invoke_spec expectedArgCount fn args next w :
  last args = Some (VFun next) ->
  let s := script_of fn args w in
  let w1 := after_calls next (explicit_calls s) (entered expectedArgCount args w) in
  invoke expectedArgCount fn args w =
    match ending s with
    | Normal v => (Value v, w1)
    | Thrown err =>
        match on_thrown next err w1 with
        | (None, w2) => (Value VUndefined, w2)
        | (Some e, w2) => (Raised e, w2)
        end
    | Promise p =>
        match async_ending p with
        | inl v => (Fulfilled v, w1)
        | inr err => caught next err w1
        end
    end.
Proof.
  intros Hlast. unfold invoke, wrappedHandler, script_of, explicit_calls,
    returned_promise, entered.
  rewrite Hlast. simpl.
  set (w0 := if length args <? expectedArgCount then _ else _).
  assert (next_ref w0 = next_ref w) as Hn by (subst w0; by case_match).
  rewrite Hn. rewrite run_sync_spec.
  destruct (ending _) as [v|p|err] eqn:He; simpl.
  - by rewrite app_nil_r.
  - rewrite settle_spec, after_calls_app. simpl. by destruct (async_ending p).
  - rewrite app_nil_r. by destruct (on_thrown _ _ _) as [[e|] w2].
Qed.

(** The world an invocation with a callable last argument ends in. *)
Lemma invoke_world expectedArgCount fn args next w :
  last args = Some (VFun next) ->
  let s := script_of fn args w in
  let w1 := after_calls next (explicit_calls s) (entered expectedArgCount args w) in
  (invoke expectedArgCount fn args w).2 =
    match ending s with
    | Normal v => w1
    | Thrown err => (on_thrown next err w1).2
    | Promise p =>
        match async_ending p with
        | inl v => w1
        | inr err => (on_rejected next err w1).2
        end
    end.
Proof.
  intros Hlast. rewrite (invoke_spec _ _ _ next) by done. cbv zeta.
  destruct (ending _) as [v|p|err]; [done| |].
  - destruct (async_ending p); [done|]. apply caught_world.
  - by destruct (on_thrown _ _ _) as [[e|] w2].
Qed.

Lemma entered_fresh expectedArgCount args w :
  hasCalledNext (entered expectedArgCount args w) = false.
Proof. unfold entered. simpl. by case_match. Qed.

Lemma entered_delivered expectedArgCount args w :
  delivered (entered expectedArgCount args w) = delivered w.
Proof. unfold entered. simpl. by case_match. Qed.

Lemma wrappedHandler_not_callable expectedArgCount fn args w :
  isFunction (default VUndefined (last args)) = false ->
  wrappedHandler expectedArgCount fn args w =
    (Returned VUndefined,
     log LastArgNotFunction
       (if length args <? expectedArgCount
        then log (InsufficientArguments expectedArgCount (length args))
                 (set_hasCalledNext false w)
        else set_hasCalledNext false w)).
Proof.
  intros Hnf. unfold wrappedHandler.
  by destruct (default VUndefined (last args)).
Qed.

(** X1. Whatever the handler does, one invocation calls the continuation it
    was given at most once, and no other continuation. *)
Lemma invoke_delivers_at_most_once expectedArgCount fn args w :
  exists calls,
    delivered (invoke expectedArgCount fn args w).2 = delivered w ++ calls /\
    length calls <= 1 /\
    forall c, c ∈ calls -> last args = Some (VFun c.1).
Proof.
  destruct (isFunction (default VUndefined (last args))) eqn:Hfn.
  2:{ exists []. unfold invoke.
      rewrite wrappedHandler_not_callable by done. cbn [snd].
      rewrite app_nil_r.
      split_and!; [by case_match|simpl; lia|by intros ? ?%elem_of_nil]. }
  assert (exists next, last args = Some (VFun next)) as [next Hlast].
  { destruct (last args) as [[]|]; try done. by eexists. }
  rewrite (invoke_world _ _ _ next) by done. cbv zeta.
  set (s := script_of fn args w).
  set (w0 := entered expectedArgCount args w).
  assert (hasCalledNext w0 = false) as Hf by apply entered_fresh.
  assert (delivered w0 = delivered w) as Hd by apply entered_delivered.
  destruct (explicit_calls s) as [|c rest] eqn:Hcalls.
  - unfold after_calls. cbn [foldl].
    destruct (ending s) as [v|p|err]; [|destruct (async_ending p) as [v|err]|];
      try (exists []; rewrite app_nil_r;
           split_and!; [done|simpl; lia|by intros ? ?%elem_of_nil]).
    + destruct (on_rejected_frame next err w0) as (calls & -> & Hl & Hc & _).
      exists calls. rewrite Hd.
      split_and!; [done|done|]. intros c Hin. by rewrite (Hc c Hin).
    + destruct (on_thrown_frame next err w0) as (calls & -> & Hl & Hc & _).
      exists calls. rewrite Hd.
      split_and!; [done|done|]. intros c Hin. by rewrite (Hc c Hin).
  - rewrite after_calls_first by done. exists [(next, c)].
    destruct (ending s) as [v|p|err]; [|destruct (async_ending p) as [v|err]|];
      rewrite ?on_rejected_fired, ?on_thrown_fired by done;
      cbn [snd delivered]; rewrite Hd;
      (split_and!; [done|simpl; lia|by intros ? ->%list_elem_of_singleton]).
Qed.



(** C9. Called with a last argument that is not callable, the wrapper
    returns at once: the original is not applied, no continuation is
    called, and the console gets the error line (after the arity warning,
    if the arguments were also too few). *)
Theorem malformed_continuation_aborts expectedArgCount fn args w :
  isFunction (default VUndefined (last args)) = false ->
  let r := wrappedHandler expectedArgCount fn args w in
  r.1 = Returned VUndefined /\
  fn_calls r.2 = fn_calls w /\
  delivered r.2 = delivered w /\
  console r.2 =
    console w ++
    (if length args <? expectedArgCount
     then [InsufficientArguments expectedArgCount (length args)] else []) ++
    [LastArgNotFunction].
Proof.
  intros Hnf. cbv zeta. rewrite wrappedHandler_not_callable by done.
  cbn [fst snd]. split; [done|].
  case_match; simpl; by rewrite <- ?app_assoc.
Qed.

(** On the event loop, an invocation that is ticked until its promise
    settles, with nothing else in between, ends in the world of [settle]. *)
Lemma run_ticks_settle expectedArgCount fn next p w slots i :
  slots !! i = Some (Some (next, p)) ->
  lworld (run expectedArgCount fn
            (replicate (S (length (async_calls p))) (Tick i))
            (Loop w slots)) = (settle next p w).2.
Proof.
  revert w slots. induction p as [v|err|a k IH]; intros w slots Hi.
  - simpl. by rewrite Hi.
  - simpl. rewrite Hi. cbn [async_step]. by destruct (caught next err w).
  - cbn [async_calls length replicate]. unfold run in *. cbn [foldl].
    cbn [step lworld promises]. rewrite Hi. cbn [async_step settle].
    apply IH. apply list_lookup_insert_eq. by eapply lookup_lt_Some.
Qed.

(** [invoke] is the event loop with one call ticked until it has nothing
    pending, whatever the calls made and finished before it. *)
Lemma run_call_alone expectedArgCount fn args w slots :
  let ticks :=
    match (wrappedHandler expectedArgCount fn args w).1 with
    | Pending _ p => S (length (async_calls p))
    | Returned _ => 0
    | Threw _ => 0
    end in
  lworld (run expectedArgCount fn
            (Call args :: replicate ticks (Tick (length slots)))
            (Loop w slots)) = (invoke expectedArgCount fn args w).2.
Proof.
  cbv zeta. unfold run, invoke. cbn [foldl step lworld promises].
  destruct (wrappedHandler expectedArgCount fn args w) as [[v|next p|e] w1];
    cbn [fst snd]; [done| |done].
  fold (run expectedArgCount fn
          (replicate (S (length (async_calls p))) (Tick (length slots)))
          (Loop w1 (slots ++ [Some (next, p)]))).
  rewrite (run_ticks_settle _ _ next p); [done|].
  by rewrite lookup_app_r, Nat.sub_diag.
Qed.

End InvocationFacts.

Section HeapFacts.
Context `{Host}.

(** *** Property lists *)

Lemma own_property_cons o k d props key :
  own_property (with_props o ((k, d) :: props)) key =
    if String.eqb k key then Some d else own_property (with_props o props) key.
Proof. unfold own_property. simpl. by destruct (String.eqb k key). Qed.

Lemma own_property_is_Some_keys o key :
  is_Some (own_property o key) -> key ∈ (fst <$> o_props o).
Proof.
  unfold own_property. induction (o_props o) as [|[k d] props IH]; simpl.
  - by intros [? ?].
  - destruct (String.eqb_spec k key) as [->|Hk]; simpl; [set_solver|].
    intros ?%IH. set_solver.
Qed.

Lemma find_key_None key (props : list (string * descriptor)) :
  List.find (fun kd => String.eqb kd.1 key) props = None <->
  key ∉ (fst <$> props).
Proof.
  induction props as [|[k d] props IH]; simpl; [set_solver|].
  destruct (String.eqb_spec k key) as [->|Hk]; [set_solver|].
  rewrite IH. set_solver.
Qed.

(** [set_prop], case by case. *)
Lemma set_prop_present key d props :
  key ∈ (fst <$> props) -> set_prop key d props = replace_prop key d props.
Proof.
  intros Hin. unfold set_prop.
  destruct (List.find _ _) eqn:E; [done|]. by apply find_key_None in E.
Qed.

Lemma set_prop_absent key d props :
  key ∉ (fst <$> props) ->
  set_prop key d props =
    match array_index key with
    | Some i => add_index i key d props
    | None => props ++ [(key, d)]
    end.
Proof. intros Hin. unfold set_prop. by apply find_key_None in Hin as ->. Qed.

Lemma own_property_replace_eq o key d props :
  key ∈ (fst <$> props) ->
  own_property (with_props o (replace_prop key d props)) key = Some d.
Proof.
  induction props as [|[k d0] props IH]; simpl; [by intros ?%elem_of_nil|].
  intros Hin. destruct (String.eqb k key) eqn:E; rewrite own_property_cons.
  - by rewrite String.eqb_refl.
  - rewrite E. apply IH. apply String.eqb_neq in E. set_solver.
Qed.

Lemma own_property_replace_ne o key d props key' :
  key' <> key ->
  own_property (with_props o (replace_prop key d props)) key' =
  own_property (with_props o props) key'.
Proof.
  intros Hne. induction props as [|[k d0] props IH]; simpl; [done|].
  destruct (String.eqb_spec k key) as [->|Hk]; rewrite !own_property_cons.
  - by destruct (String.eqb_spec key key'); [congruence|].
  - by rewrite IH.
Qed.

Lemma own_property_add_index_eq o i key d props :
  key ∉ (fst <$> props) ->
  own_property (with_props o (add_index i key d props)) key = Some d.
Proof.
  induction props as [|[k d0] props IH]; simpl; intros Hin.
  - by rewrite own_property_cons, String.eqb_refl.
  - assert (k <> key) as Hk by set_solver.
    destruct (array_index k) as [j|]; [destruct (j <? i)%N|];
      rewrite own_property_cons, ?String.eqb_refl; try done.
    destruct (String.eqb_spec k key); [done|]. apply IH. set_solver.
Qed.

Lemma own_property_add_index_ne o i key d props key' :
  key' <> key ->
  own_property (with_props o (add_index i key d props)) key' =
  own_property (with_props o props) key'.
Proof.
  intros Hne. induction props as [|[k d0] props IH]; simpl.
  - rewrite own_property_cons.
    destruct (String.eqb_spec key key'); [congruence|done].
  - destruct (array_index k) as [j|]; [destruct (j <? i)%N|];
      rewrite !own_property_cons.
    + by rewrite IH.
    + by destruct (String.eqb_spec key key'); [congruence|].
    + by destruct (String.eqb_spec key key'); [congruence|].
Qed.

Lemma own_property_app o props more key :
  own_property (with_props o (props ++ more)) key =
    match own_property (with_props o props) key with
    | Some d => Some d
    | None => own_property (with_props o more) key
    end.
Proof.
  induction props as [|[k d0] props IH]; [done|].
  rewrite <- app_comm_cons, !own_property_cons.
  by destruct (String.eqb k key).
Qed.

Lemma own_property_absent o props key :
  key ∉ (fst <$> props) -> own_property (with_props o props) key = None.
Proof.
  intros Hin. destruct (own_property _ key) eqn:E; [|done].
  destruct Hin. apply (own_property_is_Some_keys (with_props o props)).
  by eexists.
Qed.

Lemma own_property_set_prop_eq o key d props :
  own_property (with_props o (set_prop key d props)) key = Some d.
Proof.
  destruct (decide (key ∈ (fst <$> props))) as [Hin|Hin].
  - rewrite set_prop_present by done. by apply own_property_replace_eq.
  - rewrite set_prop_absent by done. destruct (array_index key).
    + by apply own_property_add_index_eq.
    + rewrite own_property_app, own_property_absent by done.
      by rewrite own_property_cons, String.eqb_refl.
Qed.

Lemma own_property_set_prop_ne o key d props key' :
  key' <> key ->
  own_property (with_props o (set_prop key d props)) key' =
  own_property (with_props o props) key'.
Proof.
  intros Hne. destruct (decide (key ∈ (fst <$> props))) as [Hin|Hin].
  - rewrite set_prop_present by done. by apply own_property_replace_ne.
  - rewrite set_prop_absent by done. destruct (array_index key).
    + by apply own_property_add_index_ne.
    + rewrite own_property_app. destruct (own_property _ key'); [done|].
      rewrite own_property_cons.
      by destruct (String.eqb_spec key key'); [congruence|].
Qed.

Lemma own_property_elem_of o key d :
  own_property o key = Some d -> (key, d) ∈ o_props o.
Proof.
  unfold own_property. destruct (List.find _ _) as [[k d']|] eqn:E; [|done].
  simpl. intros [= ->]. apply find_some in E as [Hin Hk].
  simpl in Hk. apply String.eqb_eq in Hk as ->. by apply list_elem_of_In.
Qed.

Lemma own_property_is_Some o key :
  is_Some (own_property o key) <-> key ∈ (fst <$> o_props o).
Proof.
  unfold own_property. induction (o_props o) as [|[k d] props IH]; simpl.
  - split; [by intros [? ?]|by intros ?%elem_of_nil].
  - destruct (String.eqb_spec k key) as [->|Hk]; simpl.
    + split; [set_solver|eauto].
    + rewrite IH. set_solver.
Qed.

Lemma replace_prop_keys key d props :
  key ∈ (fst <$> props) -> fst <$> replace_prop key d props = fst <$> props.
Proof.
  induction props as [|[k d0] props IH]; [by intros ?%elem_of_nil|].
  cbn [replace_prop]. destruct (String.eqb_spec k key) as [->|Hne]; [done|].
  rewrite !fmap_cons. intros [?|?]%elem_of_cons; [done|]. by rewrite IH.
Qed.

Lemma set_prop_keys key d props :
  key ∈ (fst <$> props) -> fst <$> set_prop key d props = fst <$> props.
Proof.
  intros Hin. rewrite set_prop_present by done. by apply replace_prop_keys.
Qed.

Lemma set_prop_elem_of k key d props :
  k ∈ (fst <$> set_prop key d props) <-> k = key \/ k ∈ (fst <$> props).
Proof.
  pose (o := Obj None [] true None).
  rewrite <- (own_property_is_Some (with_props o (set_prop key d props)) k).
  rewrite <- (own_property_is_Some (with_props o props) k).
  destruct (decide (k = key)) as [->|Hne].
  - rewrite own_property_set_prop_eq. split; [by left|by eexists].
  - rewrite own_property_set_prop_ne by done. naive_solver.
Qed.

Lemma same_entry_refl kd : same_entry kd kd.
Proof. split; [done|]. by destruct (kd.2). Qed.

Lemma same_entry_trans kd1 kd2 kd3 :
  same_entry kd1 kd2 -> same_entry kd2 kd3 -> same_entry kd1 kd3.
Proof.
  destruct kd1 as [k1 []], kd2 as [k2 []], kd3 as [k3 []];
    unfold same_entry; simpl; naive_solver.
Qed.

Lemma Forall2_same_entry_refl props : Forall2 same_entry props props.
Proof. induction props; constructor; auto using same_entry_refl. Qed.

Lemma set_prop_same_entry key w e c v v' props :
  NoDup (fst <$> props) ->
  (key, Data v w e c) ∈ props ->
  Forall2 same_entry props (set_prop key (Data v' w e c) props).
Proof.
  intros Hnd Hin. rewrite set_prop_present; cycle 1.
  { apply list_elem_of_fmap. by exists (key, Data v w e c). }
  revert Hnd Hin.
  induction props as [|[k d0] props IH]; [by intros _ ?%elem_of_nil|].
  rewrite fmap_cons. intros [Hk Hnd]%NoDup_cons Hin. cbn [replace_prop].
  destruct (String.eqb_spec k key) as [->|Hne].
  - apply elem_of_cons in Hin as [Heq|Hin].
    + simplify_eq. constructor; [done|apply Forall2_same_entry_refl].
    + destruct Hk. apply list_elem_of_fmap. by exists (key, Data v w e c).
  - apply elem_of_cons in Hin as [Heq|Hin]; [congruence|].
    constructor; [apply same_entry_refl|by apply IH].
Qed.

Lemma Forall2_same_entry_keys props props' :
  Forall2 same_entry props props' -> fst <$> props = fst <$> props'.
Proof.
  induction 1 as [|?? ?? [Hk _]]; [done|]. rewrite !fmap_cons. congruence.
Qed.

Lemma Forall2_same_entry_copy_ok props props' :
  Forall2 same_entry props props' ->
  forallb copy_ok props = forallb copy_ok props'.
Proof.
  induction 1 as [|[k d] [k' d'] ?? [Hk Hd]]; [done|]. simpl in *. subst.
  f_equal; [|done]. unfold copy_ok. simpl.
  destruct d, d'; simpl in *; try done.
Qed.

(** *** Heaps evolving under the wrapping code *)

Lemma evolves_refl h : evolves h h.
Proof. intros r o Hr. exists o. eauto using Forall2_same_entry_refl. Qed.

Lemma evolves_trans h1 h2 h3 : evolves h1 h2 -> evolves h2 h3 -> evolves h1 h3.
Proof.
  intros H12 H23 r o Hr.
  destruct (H12 r o Hr) as (o2 & Hr2 & Hp2 & Hf2).
  destruct (H23 r o2 Hr2) as (o3 & Hr3 & Hp3 & Hf3).
  exists o3. split_and!; [done|congruence|].
  clear -Hf2 Hf3. revert Hf3. generalize (o_props o3).
  induction Hf2; intros l3 Hf3; inversion Hf3; subst; constructor;
    eauto using same_entry_trans.
Qed.

Lemma evolves_proto h h' r :
  evolves h h' -> is_Some (h !! r) -> getPrototypeOf h' r = getPrototypeOf h r.
Proof.
  intros He [o Hr]. destruct (He r o Hr) as (o' & Hr' & Hp & _).
  unfold getPrototypeOf. by rewrite Hr, Hr'.
Qed.

Lemma evolves_wrappable h h' v :
  evolves h h' -> in_heap h v = true -> wrappable h' v = wrappable h v.
Proof.
  intros He Hin. unfold wrappable, in_heap in *.
  destruct (ref_of v) as [r|]; [|done].
  apply bool_decide_eq_true in Hin as [o Hr].
  destruct (He r o Hr) as (o' & Hr' & _ & Hf). rewrite Hr, Hr'.
  symmetry. by apply Forall2_same_entry_copy_ok.
Qed.

Lemma evolves_dom h h' r : evolves h h' -> is_Some (h !! r) -> is_Some (h' !! r).
Proof. intros He [o Hr]. destruct (He r o Hr) as (o' & -> & _). eauto. Qed.

(** *** Well-formed heaps *)

Lemma wf_heap_obj h r o : wf_heap h -> h !! r = Some o -> wf_obj h o = true.
Proof.
  unfold wf_heap. rewrite forallb_forall. intros Hwf Hr.
  apply (Hwf (r, o)). apply list_elem_of_In. by apply elem_of_map_to_list.
Qed.

Lemma wf_heap_proto h r o p :
  wf_heap h -> h !! r = Some o -> o_proto o = Some p -> is_Some (h !! p).
Proof.
  intros Hwf Hr Hp. pose proof (wf_heap_obj h r o Hwf Hr) as Ho.
  unfold wf_obj in Ho. rewrite !andb_true_iff, Hp in Ho.
  destruct Ho as [[Ho _] _]. by apply bool_decide_eq_true in Ho.
Qed.

Lemma wf_heap_keys h r o :
  wf_heap h -> h !! r = Some o -> NoDup (fst <$> o_props o).
Proof.
  intros Hwf Hr. pose proof (wf_heap_obj h r o Hwf Hr) as Ho.
  unfold wf_obj in Ho. rewrite !andb_true_iff in Ho.
  destruct Ho as [[_ Ho] _]. by apply bool_decide_eq_true in Ho.
Qed.

Lemma wf_heap_value h r o key v w e c :
  wf_heap h -> h !! r = Some o -> (key, Data v w e c) ∈ o_props o ->
  in_heap h v = true.
Proof.
  intros Hwf Hr Hin. pose proof (wf_heap_obj h r o Hwf Hr) as Ho.
  unfold wf_obj in Ho. rewrite !andb_true_iff in Ho.
  destruct Ho as [_ Ho]. rewrite forallb_forall in Ho.
  apply list_elem_of_In in Hin. by apply Ho in Hin.
Qed.

End HeapFacts.

Section WrapHandlerFacts.
Context `{Host}.

Lemma defineProperty_ok O P Desc st o :
  heap st !! O = Some o ->
  match own_property o P with
  | None => o_extensible o
  | Some current => may_redefine current Desc
  end = true ->
  defineProperty O P Desc st =
    (Ok tt, State (<[O := with_props o (set_prop P Desc (o_props o))]> (heap st))
                  (out st)).
Proof. intros Ho Hok. unfold defineProperty. by rewrite Ho, Hok. Qed.

Lemma defineProperty_refused O P Desc st o :
  heap st !! O = Some o ->
  match own_property o P with
  | None => o_extensible o
  | Some current => may_redefine current Desc
  end = false ->
  defineProperty O P Desc st = (Throw (TypeError "Cannot redefine property"), st).
Proof. intros Ho Hok. unfold defineProperty. by rewrite Ho, Hok. Qed.

Lemma fresh_ref_fresh h : h !! fresh_ref h = None.
Proof.
  apply not_elem_of_dom. unfold fresh_ref.
  pose proof (is_fresh ({[Object_prototype; Function_prototype]} ∪ dom h)).
  set_solver.
Qed.

Lemma copy_prop_ok wr W kd st :
  heap st !! wr = Some W -> under_construction W -> copy_ok kd = true ->
  exists W',
    copy_prop wr kd st = (Ok tt, State (<[wr := W']> (heap st)) (out st)) /\
    under_construction W' /\
    o_closure W' = o_closure W /\
    own_property W' "name" = own_property W "name" /\
    own_property W' "length" = own_property W "length".
Proof.
  intros HW Hinv Hok. pose proof Hinv as (Hext & Hconf & dp & Hdp & Hdpc).
  destruct kd as [prop d]. unfold copy_prop, copy_ok in *. simpl in Hok.
  destruct (String.eqb_spec prop "length") as [->|Hl]; simpl in *.
  { exists W. rewrite insert_id by done. by destruct st. }
  destruct (String.eqb_spec prop "name") as [->|Hn]; simpl in *.
  { exists W. rewrite insert_id by done. by destruct st. }
  destruct d as [v w e c|]; [|done]. simpl in Hok.
  destruct (String.eqb_spec prop "prototype") as [->|Hp]; [done|].
  eexists. split.
  { apply defineProperty_ok; [done|].
    destruct (own_property W prop) as [cur|] eqn:Hcur; [|done].
    unfold may_redefine. by rewrite (Hconf prop cur). }
  split_and!; try done.
  - split_and!; [done| |].
    + intros k d. destruct (decide (k = prop)) as [->|Hk].
      * rewrite own_property_set_prop_eq. by intros [= <-].
      * rewrite own_property_set_prop_ne by done. apply Hconf.
    + exists dp. by rewrite own_property_set_prop_ne.
  - by rewrite own_property_set_prop_ne.
  - by rewrite own_property_set_prop_ne.
Qed.

Lemma copy_prop_refused wr W kd st :
  heap st !! wr = Some W -> under_construction W -> copy_ok kd = false ->
  exists e, copy_prop wr kd st = (Throw e, st).
Proof.
  intros HW (Hext & Hconf & dp & Hdp & Hdpc) Hok.
  destruct kd as [prop d]. unfold copy_prop, copy_ok in *. simpl in Hok.
  destruct (String.eqb_spec prop "length") as [->|Hl]; [done|].
  destruct (String.eqb_spec prop "name") as [->|Hn]; [done|].
  simpl in *. destruct d as [v w e c|]; [|by eexists].
  destruct (String.eqb_spec prop "prototype") as [->|Hp]; [|done].
  eexists. apply (defineProperty_refused _ _ _ _ W); [done|].
  rewrite Hdp. unfold may_redefine. by rewrite Hdpc.
Qed.

(** The copying loop goes through iff every property can be copied; either
    way it touches the wrapper only. *)
Lemma copy_props_spec wr W props st :
  heap st !! wr = Some W -> under_construction W ->
  exists W' r,
    copy_props wr props st = (r, State (<[wr := W']> (heap st)) (out st)) /\
    (if forallb copy_ok props
     then r = Ok tt /\ o_closure W' = o_closure W /\
          own_property W' "name" = own_property W "name" /\
          own_property W' "length" = own_property W "length"
     else exists e, r = Throw e).
Proof.
  revert W st. induction props as [|kd props IH]; intros W st HW Hinv.
  - exists W, (Ok tt). simpl. rewrite insert_id by done. by destruct st.
  - simpl. unfold bind. destruct (copy_ok kd) eqn:Hok; simpl.
    + destruct (copy_prop_ok wr W kd st HW Hinv Hok)
        as (W1 & -> & Hinv1 & Hc1 & Hn1 & Hl1).
      destruct (IH W1 (State (<[wr := W1]> (heap st)) (out st)))
        as (W2 & r & -> & Hr); [apply lookup_insert_eq|done|].
      exists W2, r. simpl. rewrite insert_insert_eq. split; [done|].
      destruct (forallb copy_ok props); [|done].
      destruct Hr as (-> & ? & ? & ?). split_and!; congruence.
    + destruct (copy_prop_refused wr W kd st HW Hinv Hok) as [e ->].
      exists W, (Throw e). rewrite insert_id by done. split; [by destruct st|].
      by exists e.
Qed.

Lemma new_wrappedHandler_spec fn n st :
  exists wr p h1,
    new_wrappedHandler fn n st = (Ok wr, State h1 (out st)) /\
    heap st !! wr = None /\
    heap st ⊆ h1 /\
    h1 !! wr =
      Some (Obj (Some Function_prototype)
                [("length", Data (VNum 0) false false true);
                 ("name", Data (VStr "wrappedHandler") false false true);
                 ("prototype", Data (VObj p) true false false)]
                true (Some (fn, n))).
Proof.
  set (h := heap st).
  set (p := fresh_ref h).
  set (P0 := Obj (Some Object_prototype) [] true None).
  set (wr := fresh_ref (<[p := P0]> h)).
  assert (h !! p = None) as Hp by apply fresh_ref_fresh.
  assert (<[p := P0]> h !! wr = None) as Hwr by apply fresh_ref_fresh.
  assert (wr <> p) as Hne.
  { intros E. rewrite E, lookup_insert_eq in Hwr. done. }
  assert (h !! wr = None) as Hwr' by by rewrite lookup_insert_ne in Hwr.
  exists wr, p. eexists. split.
  { unfold new_wrappedHandler, allocate.
    unfold bind at 1. unfold bind at 1. unfold bind at 1.
    cbn [heap out]. fold h p. fold P0. fold wr.
    erewrite defineProperty_ok; cycle 1.
    { cbn [heap]. rewrite lookup_insert_ne by done. apply lookup_insert_eq. }
    { done. }
    reflexivity. }
  split; [done|]. split.
  - apply insert_subseteq_r; [done|].
    apply insert_subseteq_r; [done|]. by apply insert_subseteq.
  - rewrite lookup_insert_ne by done. apply lookup_insert_eq.
Qed.

(** [wrapHandler] on a function: it returns a new function holding [fn] in
    its closure, with the length of [fn] and the prefixed name, iff the
    own properties of [fn] can be copied; nothing that was in the heap is
    touched. *)
Lemma wrapHandler_spec fn st :
  isFunction fn = true ->
  exists r st',
    wrapHandler fn st = (r, st') /\
    out st' = out st /\
    heap st ⊆ heap st' /\
    (if wrappable (heap st) fn
     then exists wr W,
         r = Ok (VFun wr) /\ heap st !! wr = None /\
         heap st' !! wr = Some W /\
         o_closure W = Some (fn, get (heap st) fn "length") /\
         own_property W "length" =
           Some (Data (get (heap st) fn "length") false false true) /\
         own_property W "name" =
           Some (Data (VStr ("wrapped_" +:+
                   String_ (if truthy (get (heap st) fn "name")
                            then get (heap st) fn "name"
                            else VStr "handler"))) true false true)
     else exists e, r = Throw e).
Proof.
  intros Hfn. unfold wrapHandler. rewrite Hfn. cbn [negb].
  set (h := heap st).
  set (props := match ref_of fn with Some r => _ | None => _ end).
  assert (wrappable h fn = forallb copy_ok props) as ->.
  { unfold wrappable, props. destruct (ref_of fn) as [r|]; [|done].
    by destruct (h !! r). }
  destruct (new_wrappedHandler_spec fn (get h fn "length") st)
    as (wr & p & h1 & Hnew & Hfresh & Hsub & Hwr).
  unfold bind at 1. rewrite Hnew.
  unfold bind at 1.
  erewrite defineProperty_ok; [|exact Hwr|done].
  unfold bind at 1.
  erewrite defineProperty_ok; [|apply lookup_insert_eq|done].
  cbn [heap out]. rewrite insert_insert_eq.
  unfold bind at 1.
  match goal with
  | |- context [copy_props wr props (State (<[wr := ?W]> h1) ?o)] =>
      destruct (copy_props_spec wr W props (State (<[wr := W]> h1) o))
        as (W' & r & -> & Hr)
  end.
  { apply lookup_insert_eq. }
  { split_and!; [done| |by eexists].
    intros k d. unfold own_property. cbn.
    repeat (case_match; simplify_eq/=; try done); intros; simplify_eq/=; done. }
  cbn [heap out]. rewrite insert_insert_eq.
  assert (h ⊆ <[wr := W']> h1) by by apply insert_subseteq_r.
  destruct (forallb copy_ok props).
  - destruct Hr as (-> & Hc & Hn & Hl). unfold ret.
    eexists _, _. split; [done|]. split; [done|]. split; [done|].
    exists wr, W'. split_and!; [done|done|apply lookup_insert_eq|done|done|done].
  - destruct Hr as [e ->]. eexists _, _. split; [done|]. split; [done|].
    split; [done|]. by exists e.
Qed.

End WrapHandlerFacts.

Section MemberFacts.
Context `{Host}.

Lemma touches_refl L h : touches L h h.
Proof. split; [done|apply evolves_refl]. Qed.

Lemma touches_trans L1 L2 h1 h2 h3 :
  touches L1 h1 h2 -> touches L2 h2 h3 -> touches (L1 ∪ L2) h1 h3.
Proof.
  intros [F1 E1] [F2 E2]. split; [|by eapply evolves_trans].
  intros x o Hx Hn. apply F2; [apply F1|]; set_solver.
Qed.

Lemma touches_subseteq h h' : h ⊆ h' -> touches ∅ h h'.
Proof.
  intros Hsub. split.
  - intros x o Hx _. by eapply lookup_weaken.
  - intros x o Hx. exists o.
    split_and!; [by eapply lookup_weaken|done|apply Forall2_same_entry_refl].
Qed.

Lemma touches_mono L L' h h' : L ⊆ L' -> touches L h h' -> touches L' h h'.
Proof. intros HL [F E]. split; [|done]. intros x o Hx Hn. apply F; set_solver. Qed.

Lemma in_heap_evolves h h' v : evolves h h' -> in_heap h v = true -> in_heap h' v = true.
Proof.
  unfold in_heap. destruct (ref_of v) as [r|]; [|done].
  rewrite !bool_decide_eq_true. eauto using evolves_dom.
Qed.

Lemma evolves_fresh h h' r : evolves h h' -> h' !! r = None -> h !! r = None.
Proof.
  intros He Hr. destruct (h !! r) as [o|] eqn:E; [|done].
  destruct (evolves_dom h h' r He) as [o' Ho']; [eauto|congruence].
Qed.

Lemma member_after_weaken h0 h1 h' h'' key d d' :
  member_after h1 h' key d d' ->
  (forall v w e c, d = Data v w e c -> wrappable h0 v = wrappable h1 v) ->
  (forall r, h1 !! r = None -> h0 !! r = None) ->
  (forall r o, h1 !! r = None -> h' !! r = Some o -> h'' !! r = Some o) ->
  member_after h0 h'' key d d'.
Proof.
  intros Hm Hw Hfresh Hkeep. unfold member_after in *.
  destruct d as [v w e c|]; [|done].
  case_match; [|done]. rewrite (Hw v w e c eq_refl).
  case_match; [|done].
  destruct Hm as (r & -> & Hr & o & n & Ho & Hc).
  exists r. split_and!; [done|by apply Hfresh|].
  exists o, n. split; [by eapply Hkeep|done].
Qed.

Lemma member_after_unchanged h0 h' key d :
  (match d with
   | Data v w e c =>
       negb (String.eqb key "constructor") && isFunction v
       && wrappable h0 v && (c || w) = false
   | _ => True
   end) ->
  member_after h0 h' key d d.
Proof.
  unfold member_after. destruct d as [v w e c|]; [|done].
  destruct (negb _), (isFunction v), (wrappable h0 v), c, w; simpl; done.
Qed.

(** One turn of the member loop. *)
Lemma wrap_member_spec l key st ol :
  heap st !! l = Some ol ->
  NoDup (fst <$> o_props ol) ->
  (forall v w e c, own_property ol key = Some (Data v w e c) ->
                   in_heap (heap st) v = true) ->
  exists st' ol',
    wrap_member l key st = (Ok tt, st') /\
    touches {[l]} (heap st) (heap st') /\
    heap st' !! l = Some ol' /\
    NoDup (fst <$> o_props ol') /\
    (forall k, k <> key -> own_property ol' k = own_property ol k) /\
    (forall d, own_property ol key = Some d ->
       exists d', own_property ol' key = Some d' /\
                  member_after (heap st) (heap st') key d d').
Proof.
  intros Hl Hnd Hin. unfold wrap_member.
  assert (forall d, own_property ol key = Some d ->
            (match d with
             | Data v w e c =>
                 negb (String.eqb key "constructor") && isFunction v
                 && wrappable (heap st) v && (c || w) = false
             | _ => True
             end) ->
            exists st' ol',
              (Ok tt, st) = (Ok tt, st') /\
              touches {[l]} (heap st) (heap st') /\
              heap st' !! l = Some ol' /\
              NoDup (fst <$> o_props ol') /\
              (forall k, k <> key -> own_property ol' k = own_property ol k) /\
              (forall d, own_property ol key = Some d ->
                 exists d', own_property ol' key = Some d' /\
                            member_after (heap st) (heap st') key d d')) as Hskip.
  { intros d Hd Hc. exists st, ol.
    split_and!; [done|apply touches_refl|done|done|done|].
    intros d0 Hd0. exists d0. split; [done|]. simplify_eq.
    by apply member_after_unchanged. }
  assert (own_property ol key = None ->
            exists st' ol',
              (Ok tt, st) = (Ok tt, st') /\
              touches {[l]} (heap st) (heap st') /\
              heap st' !! l = Some ol' /\
              NoDup (fst <$> o_props ol') /\
              (forall k, k <> key -> own_property ol' k = own_property ol k) /\
              (forall d, own_property ol key = Some d ->
                 exists d', own_property ol' key = Some d' /\
                            member_after (heap st) (heap st') key d d')) as Hnone.
  { intros Hd. exists st, ol.
    split_and!; [done|apply touches_refl|done|done|done|]. by rewrite Hd. }
  destruct (String.eqb key "constructor") eqn:Hk.
  { unfold ret. destruct (own_property ol key) as [d|] eqn:Hd; [|by apply Hnone].
    apply (Hskip d); [done|]. by destruct d. }
  unfold getOwnPropertyDescriptor. rewrite Hl. cbn [mbind option_bind].
  destruct (own_property ol key) as [[v w e c|g s e c]|] eqn:Hd;
    [|by apply (Hskip (Accessor g s e c))|by apply Hnone].
  destruct (isFunction v) eqn:Hv;
    [|apply (Hskip (Data v w e c)); [done|by rewrite Hv, andb_false_r]].
  destruct (wrapHandler_spec v st Hv) as (r & st1 & Hwrap & Hout & Hsub & Hr).
  pose proof (lookup_weaken _ _ _ _ Hl Hsub) as Hl1.
  unfold try_catch, bind. rewrite Hwrap.
  destruct (wrappable (heap st) v) eqn:Hw.
  - destruct Hr as (wr & W & -> & Hfresh & HW & Hclos & _).
    destruct (c || w) eqn:Hcw.
    + erewrite defineProperty_ok; [|exact Hl1|]; cycle 1.
      { rewrite Hd. unfold may_redefine. clear -Hcw.
        destruct c, w, e; simpl in *; done. }
      eexists _, _. split; [done|]. cbn [heap].
      assert (wr <> l) as Hne by congruence.
      split_and!.
      * apply (touches_mono (∅ ∪ {[l]})); [set_solver|].
        eapply touches_trans; [by apply touches_subseteq|].
        split.
        -- intros x o Hx Hn. rewrite lookup_insert_ne by set_solver. done.
        -- intros x o Hx. destruct (decide (x = l)) as [->|Hxl].
           ++ rewrite lookup_insert_eq. eexists. split; [done|].
              simplify_eq. split; [done|]. cbn.
              eapply set_prop_same_entry; [done|].
              by apply own_property_elem_of.
           ++ rewrite lookup_insert_ne by done. exists o.
              eauto using Forall2_same_entry_refl.
      * apply lookup_insert_eq.
      * cbn. rewrite set_prop_keys; [done|].
        apply own_property_is_Some. eauto.
      * intros k Hkk. by rewrite own_property_set_prop_ne.
      * intros d [= <-]. eexists. split; [apply own_property_set_prop_eq|].
        unfold member_after. rewrite Hk, Hv, Hw, Hcw. cbn.
        exists wr. split_and!; [done|done|].
        exists W, (get (heap st) v "length").
        split; [by rewrite lookup_insert_ne|done].
    + erewrite defineProperty_refused; [|exact Hl1|]; cycle 1.
      { rewrite Hd. unfold may_redefine.
        apply orb_false_iff in Hcw as [-> ->]. cbn.
        rewrite Bool.eqb_reflx. cbn.
        apply bool_decide_eq_false. intros <-.
        specialize (Hin _ _ _ _ eq_refl). unfold in_heap in Hin. cbn in Hin.
        apply bool_decide_eq_true in Hin as [? ?]. congruence. }
      unfold console_log. eexists _, ol. split; [done|]. cbn [heap].
      split_and!; [|done..|].
      * apply (touches_mono ∅); [set_solver|]. by apply touches_subseteq.
      * intros d [= <-]. exists (Data v w e c). split; [done|].
        apply member_after_unchanged. by rewrite Hk, Hv, Hw, Hcw.
  - destruct Hr as [e0 ->]. unfold console_log.
    eexists _, ol. split; [done|]. cbn [heap].
    split_and!; [|done..|].
    * apply (touches_mono ∅); [set_solver|]. by apply touches_subseteq.
    * intros d [= <-]. exists (Data v w e c). split; [done|].
      apply member_after_unchanged. by rewrite Hk, Hv, Hw.
Qed.

End MemberFacts.

Section LevelFacts.
Context `{Host}.

(** The member loop on one level: every name is handled on its own, and
    what one member ends as does not depend on the others. *)
Lemma wrap_members_spec l ks st ol :
  heap st !! l = Some ol ->
  NoDup (fst <$> o_props ol) ->
  NoDup ks ->
  (forall k v w e c, k ∈ ks -> own_property ol k = Some (Data v w e c) ->
                     in_heap (heap st) v = true) ->
  exists st' ol',
    wrap_members l ks st = (Ok tt, st') /\
    touches {[l]} (heap st) (heap st') /\
    heap st' !! l = Some ol' /\
    (forall k, k ∉ ks -> own_property ol' k = own_property ol k) /\
    (forall k d, k ∈ ks -> own_property ol k = Some d ->
       exists d', own_property ol' k = Some d' /\
                  member_after (heap st) (heap st') k d d').
Proof.
  revert st ol. induction ks as [|k ks IH]; intros st ol Hl Hnd Hks Hin.
  { exists st, ol. split_and!; [done|apply touches_refl|done|done|].
    by intros k d ?%elem_of_nil. }
  apply NoDup_cons in Hks as [Hk Hks].
  destruct (wrap_member_spec l k st ol Hl Hnd) as
    (st1 & ol1 & Hrun1 & Ht1 & Hl1 & Hnd1 & Hother1 & Hkey1).
  { intros v w e c. apply Hin. set_solver. }
  destruct (IH st1 ol1 Hl1 Hnd1 Hks) as
    (st' & ol' & Hrun & Ht & Hl' & Hother & Hkeys).
  { intros k' v w e c Hk' Hd. rewrite Hother1 in Hd by set_solver.
    eapply in_heap_evolves; [apply Ht1|]. eapply Hin; [|done]. set_solver. }
  exists st', ol'. split_and!.
  - simpl. unfold bind. by rewrite Hrun1.
  - apply (touches_mono ({[l]} ∪ {[l]})); [set_solver|].
    by eapply touches_trans.
  - done.
  - intros k0 Hk0. rewrite Hother by set_solver.
    apply Hother1. set_solver.
  - intros k0 d [->|Hk0]%elem_of_cons Hd.
    + destruct (Hkey1 d Hd) as (d1 & Hd1 & Hm1).
      exists d1. split; [by rewrite Hother|].
      eapply member_after_weaken; [exact Hm1|done|done|].
      intros r o Hr Ho. apply Ht; [done|].
      apply not_elem_of_singleton. congruence.
    + assert (k0 <> k) as Hne by set_solver.
      destruct (Hkeys k0 d Hk0) as (d' & Hd' & Hm); [by rewrite Hother1|].
      exists d'. split; [done|].
      eapply member_after_weaken; [exact Hm| | |done].
      * intros v w e c ->. symmetry. eapply evolves_wrappable; [apply Ht1|].
        eapply (Hin k0); [set_solver|done].
      * intros r. apply evolves_fresh, Ht1.
Qed.

End LevelFacts.

Section TraversalFacts.
Context `{Host}.

(** *** The levels of a bundle *)

Lemma chain_not_seen fuel h p seen x :
  x ∈ chain fuel h p seen -> x ∉ seen.
Proof.
  revert p seen. induction fuel as [|fuel IH]; intros p seen; simpl.
  { by intros ?%elem_of_nil. }
  case_decide; [by intros ?%elem_of_nil|].
  intros [->|Hx]%elem_of_cons; [done|].
  destruct (getPrototypeOf h p) as [q|]; [|by apply elem_of_nil in Hx].
  case_decide; [by apply elem_of_nil in Hx|].
  apply IH in Hx. set_solver.
Qed.

Lemma chain_NoDup fuel h p seen : NoDup (chain fuel h p seen).
Proof.
  revert p seen. induction fuel as [|fuel IH]; intros p seen; simpl.
  { constructor. }
  case_decide; [constructor|].
  apply NoDup_cons. split; [|repeat case_match; auto using NoDup_nil_2].
  destruct (getPrototypeOf h p) as [q|]; [|by intros ?%elem_of_nil].
  case_decide; [by intros ?%elem_of_nil|].
  intros Hp%chain_not_seen. set_solver.
Qed.

Lemma chain_in_heap fuel h p seen x :
  wf_heap h -> is_Some (h !! p) ->
  x ∈ chain fuel h p seen -> is_Some (h !! x).
Proof.
  intros Hwf. revert p seen. induction fuel as [|fuel IH]; intros p seen Hp;
    simpl.
  { by intros ?%elem_of_nil. }
  case_decide; [by intros ?%elem_of_nil|].
  intros [->|Hx]%elem_of_cons; [done|].
  unfold getPrototypeOf in Hx. destruct Hp as [o Hp]. rewrite Hp in Hx.
  simpl in Hx. destruct (o_proto o) as [q|] eqn:Hq;
    [|by apply elem_of_nil in Hx].
  case_decide; [by apply elem_of_nil in Hx|].
  eapply IH; [|done]. by eapply wf_heap_proto.
Qed.

(** [Object.prototype] is gone through only when the bundle starts there. *)
Lemma chain_terminal_base fuel h p seen :
  Object_prototype ∈ chain fuel h p seen -> p = Object_prototype.
Proof.
  revert p seen. induction fuel as [|fuel IH]; intros p seen; simpl.
  { by intros ?%elem_of_nil. }
  case_decide; [by intros ?%elem_of_nil|].
  intros [?|Hx]%elem_of_cons; [done|].
  destruct (getPrototypeOf h p) as [q|]; [|by apply elem_of_nil in Hx].
  case_decide; [by apply elem_of_nil in Hx|].
  by apply IH in Hx.
Qed.

(** *** The traversal *)

Lemma processPrototype_spec h0 :
  wf_heap h0 ->
  forall fuel p visited st,
    is_Some (h0 !! p) ->
    size (dom h0 ∖ visited) < fuel ->
    evolves h0 (heap st) ->
    (forall x o, h0 !! x = Some o -> x ∉ visited -> heap st !! x = Some o) ->
    exists st',
      processPrototype fuel p visited st =
        (Ok (visited ∪ list_to_set (chain fuel h0 p visited),
             chain fuel h0 p visited), st') /\
      touches (list_to_set (chain fuel h0 p visited)) (heap st) (heap st') /\
      (forall l k d,
          l ∈ chain fuel h0 p visited ->
          getOwnPropertyDescriptor h0 l k = Some d ->
          exists d', getOwnPropertyDescriptor (heap st') l k = Some d' /\
                     member_after h0 (heap st') k d d').
Proof.
  intros Hwf. induction fuel as [|fuel IH];
    intros p visited st Hp Hsize Hev Hfresh; [lia|].
  simpl. case_decide as Hvis.
  { exists st. split_and!.
    - unfold ret. by replace (visited ∪ list_to_set []) with visited by set_solver.
    - apply touches_refl.
    - by intros l k d ?%elem_of_nil. }
  destruct Hp as [o0 Hp0].
  pose proof (Hfresh p o0 Hp0 Hvis) as Hp.
  destruct (wrap_members_spec p (getOwnPropertyNames (heap st) p) st o0)
    as (st1 & ol1 & Hrun1 & Ht1 & Hl1 & Hother1 & Hkeys1).
  { done. }
  { by eapply wf_heap_keys. }
  { unfold getOwnPropertyNames. rewrite Hp. by eapply wf_heap_keys. }
  { intros k v w e c _ Hd. eapply in_heap_evolves; [done|].
    eapply wf_heap_value; [done..|]. by apply own_property_elem_of. }
  unfold bind at 1. rewrite Hrun1.
  assert (getPrototypeOf (heap st1) p = getPrototypeOf h0 p) as Hproto.
  { apply evolves_proto; [|by eauto].
    eapply evolves_trans; [done|apply Ht1]. }
  rewrite Hproto.
  assert (forall k d,
             getOwnPropertyDescriptor h0 p k = Some d ->
             forall st', touches (list_to_set
                 match getPrototypeOf h0 p with
                 | Some q => if decide (q = Object_prototype) then []
                             else chain fuel h0 q ({[p]} ∪ visited)
                 | None => []
                 end) (heap st1) (heap st') ->
             exists d', getOwnPropertyDescriptor (heap st') p k = Some d' /\
                        member_after h0 (heap st') k d d') as Hlevel.
  { intros k d Hd st' [Hframe' _]. unfold getOwnPropertyDescriptor in *.
    rewrite Hp0 in Hd. simpl in Hd.
    destruct (Hkeys1 k d) as (d1 & Hd1 & Hm1); [|done|].
    { unfold getOwnPropertyNames. rewrite Hp.
      apply own_property_is_Some. eauto. }
    assert (forall r, r ∈ (list_to_set
                 match getPrototypeOf h0 p with
                 | Some q => if decide (q = Object_prototype) then []
                             else chain fuel h0 q ({[p]} ∪ visited)
                 | None => []
                 end : gset ref) -> is_Some (h0 !! r) /\ r <> p) as Hrest.
    { intros r Hr%elem_of_list_to_set.
      unfold getPrototypeOf in Hr. rewrite Hp0 in Hr. simpl in Hr.
      destruct (o_proto o0) as [q|] eqn:Hq; [|by apply elem_of_nil in Hr].
      case_decide; [by apply elem_of_nil in Hr|]. split.
      - eapply chain_in_heap; [done| |done]. by eapply wf_heap_proto.
      - apply chain_not_seen in Hr. set_solver. }
    exists d1. rewrite (Hframe' p ol1 Hl1); cycle 1.
    { intros Hr. by apply Hrest in Hr as [_ ?]. }
    split; [done|].
    eapply member_after_weaken; [exact Hm1| | |].
    - intros v w e c ->. symmetry. eapply evolves_wrappable; [done|].
      eapply wf_heap_value; [done..|]. by apply own_property_elem_of.
    - intros r. by apply evolves_fresh.
    - intros r o Hr Ho. apply Hframe'; [done|].
      intros [[o' Ho'] _]%Hrest.
      destruct (evolves_dom h0 (heap st) r Hev) as [? ?]; [eauto|congruence]. }
  destruct (getPrototypeOf h0 p) as [q|] eqn:Hq; cycle 1.
  { exists st1. split_and!.
    - by replace (visited ∪ list_to_set [p]) with ({[p]} ∪ visited) by set_solver.
    - eapply touches_mono; [|done]. set_solver.
    - intros l k d ->%list_elem_of_singleton Hd.
      apply (Hlevel k d Hd st1). apply touches_refl. }
  case_decide as Hbase.
  { exists st1. split_and!.
    - by replace (visited ∪ list_to_set [p]) with ({[p]} ∪ visited) by set_solver.
    - eapply touches_mono; [|done]. set_solver.
    - intros l k d ->%list_elem_of_singleton Hd.
      apply (Hlevel k d Hd st1). apply touches_refl. }
  destruct (IH q ({[p]} ∪ visited) st1) as (st' & Hrun & Ht & Hout).
  { unfold getPrototypeOf in Hq. rewrite Hp0 in Hq. by eapply wf_heap_proto. }
  { assert (dom h0 ∖ ({[p]} ∪ visited) ⊂ dom h0 ∖ visited) as Hsub.
    { apply elem_of_dom_2 in Hp0. set_solver. }
    apply subset_size in Hsub. lia. }
  { eapply evolves_trans; [done|apply Ht1]. }
  { intros x o Hx Hn. apply Ht1; [apply Hfresh|]; set_solver. }
  exists st'. split_and!.
  - unfold bind. rewrite Hrun. unfold ret. cbn [fst snd].
    by replace (visited ∪ list_to_set (p :: chain fuel h0 q ({[p]} ∪ visited)))
      with ({[p]} ∪ visited ∪ list_to_set (chain fuel h0 q ({[p]} ∪ visited)))
      by set_solver.
  - eapply touches_mono; [|by eapply touches_trans]. set_solver.
  - intros l k d [->|Hl]%elem_of_cons Hd; [by apply Hlevel|by eapply Hout].
Qed.

End TraversalFacts.

Section BundleFacts.
Context `{Host}.

(** Enough fuel: the embedding of the traversal is never cut short. *)
Lemma processPrototype_total h0 p out0 :
  wf_heap h0 -> is_Some (h0 !! p) ->
  exists st',
    processPrototype (S (size h0)) p ∅ (State h0 out0) =
      (Ok (list_to_set (chain (S (size h0)) h0 p ∅),
           chain (S (size h0)) h0 p ∅), st').
Proof.
  intros Hwf Hp.
  destruct (processPrototype_spec h0 Hwf (S (size h0)) p ∅ (State h0 out0))
    as (st' & Hrun & _); [done| |apply evolves_refl|done|].
  { rewrite difference_empty_L, size_dom. lia. }
  exists st'. rewrite Hrun. do 3 f_equal. set_solver.
Qed.

Lemma processPrototype_unfold fuel p visited st :
  processPrototype (S fuel) p visited st =
    if decide (p ∈ visited) then (Ok (visited, []), st)
    else
      match wrap_members p (getOwnPropertyNames (heap st) p) st with
      | (Ok _, st) =>
          match getPrototypeOf (heap st) p with
          | Some q =>
              if decide (q = Object_prototype)
              then (Ok ({[p]} ∪ visited, [p]), st)
              else
                match processPrototype fuel q ({[p]} ∪ visited) st with
                | (Ok r, st) => (Ok (r.1, p :: r.2), st)
                | (Throw e, st) => (Throw e, st)
                | (Diverged, st) => (Diverged, st)
                end
          | None => (Ok ({[p]} ∪ visited, [p]), st)
          end
      | (Throw e, st) => (Throw e, st)
      | (Diverged, st) => (Diverged, st)
      end.
Proof.
  simpl. case_decide; [done|]. unfold bind.
  repeat (case_match; simplify_eq; try done).
Qed.

(** More fuel changes nothing. *)
Lemma processPrototype_fuel fuel p visited st r st' :
  processPrototype fuel p visited st = (Ok r, st') ->
  processPrototype (S fuel) p visited st = (Ok r, st').
Proof.
  revert p visited st r st'. induction fuel as [|fuel IH];
    intros p visited st r st'; [done|].
  rewrite (processPrototype_unfold (S fuel)), (processPrototype_unfold fuel).
  case_decide; [done|].
  destruct (wrap_members _ _ _) as [[[]| |] st1]; [|done..].
  destruct (getPrototypeOf (heap st1) p) as [q|]; [|done].
  case_decide; [done|].
  destruct (processPrototype fuel q _ st1) as [[r1| |] st2] eqn:Hrec;
    [|done..].
  by rewrite (IH _ _ _ _ _ Hrec).
Qed.

(** The levels gone through are closed under "parent of", short of
    [Object.prototype]: together with [chain]'s first element this is
    every ancestor level of the bundle. *)
Lemma chain_closed h fuel p seen l q :
  size (dom h ∖ seen) < fuel ->
  is_Some (h !! p) -> wf_heap h ->
  l ∈ chain fuel h p seen ->
  getPrototypeOf h l = Some q -> q <> Object_prototype ->
  q ∈ chain fuel h p seen \/ q ∈ seen.
Proof.
  intros Hsize Hp Hwf. revert p seen Hsize Hp.
  induction fuel as [|fuel IH]; intros p seen Hsize Hp; [lia|].
  simpl. case_decide as Hseen; [by intros ?%elem_of_nil|].
  assert (size (dom h ∖ ({[p]} ∪ seen)) < fuel) as Hsize'.
  { assert (dom h ∖ ({[p]} ∪ seen) ⊂ dom h ∖ seen) as Hsub.
    { destruct Hp as [o Hp]. apply elem_of_dom_2 in Hp. set_solver. }
    apply subset_size in Hsub. lia. }
  intros [->|Hl]%elem_of_cons Hq Hne.
  - rewrite Hq. rewrite decide_False by done.
    destruct (decide (q ∈ {[p]} ∪ seen)) as [Hin|Hnin]; [set_solver|].
    left. apply elem_of_cons. right.
    destruct fuel as [|fuel]; [lia|]. simpl.
    rewrite decide_False by done. set_solver.
  - destruct (getPrototypeOf h p) as [q'|] eqn:Hq';
      [|by apply elem_of_nil in Hl].
    case_decide; [by apply elem_of_nil in Hl|].
    destruct (IH q' ({[p]} ∪ seen)) as [?|?]; [done| |done..|set_solver|set_solver].
    unfold getPrototypeOf in Hq'. destruct Hp as [o Hp]. rewrite Hp in Hq'.
    by eapply wf_heap_proto.
Qed.

(** X14. The traversal of a bundle ends, and the levels it goes through are
    the bundle's own level and its ancestors, each once;
    [Object.prototype] is among them only as the bundle's own level. *)
Lemma traversal_levels h0 p out0 :
  wf_heap h0 -> is_Some (h0 !! p) ->
  exists visited levels st',
    processPrototype (S (size h0)) p ∅ (State h0 out0) =
      (Ok (visited, levels), st') /\
    NoDup levels /\
    p ∈ levels /\
    (forall l q, l ∈ levels -> getPrototypeOf h0 l = Some q ->
                 q <> Object_prototype -> q ∈ levels) /\
    (Object_prototype ∈ levels -> p = Object_prototype).
Proof.
  intros Hwf Hp. destruct (processPrototype_total h0 p out0 Hwf Hp) as [st' Hrun].
  eexists _, _, st'. split; [exact Hrun|]. split_and!.
  - apply chain_NoDup.
  - simpl. rewrite decide_False by set_solver. set_solver.
  - intros l q Hl Hq Hne.
    assert (size (dom h0 ∖ ∅) < S (size h0)) as Hsize.
    { rewrite difference_empty_L, size_dom. lia. }
    destruct (chain_closed h0 (S (size h0)) p ∅ l q Hsize Hp Hwf Hl Hq Hne)
      as [?|?]; [done|set_solver].
  - apply chain_terminal_base.
Qed.

Lemma get_own_data h r o key v w e c f :
  ref_of f = Some r ->
  h !! r = Some o ->
  own_property o key = Some (Data v w e c) ->
  get h f key = v.
Proof.
  intros Hr Ho Hk. unfold get. rewrite Hr.
  destruct (size h) as [|n] eqn:Hn.
  - by destruct (map_size_ne_0_lookup_2 h r); [rewrite Ho|].
  - simpl. by rewrite Ho, Hk.
Qed.

(** C6. After a bundle has been wrapped, take any level of its chain and
    any own member of that level.  If it is a data property holding a
    function, is not [constructor], and both [wrapHandler] and the
    redefinition go through for it, it now holds a function made by
    [wrapHandler] around the original value (a new object, so the member
    is wrapped once and not re-wrapped); otherwise, accessors and
    [constructor] included, it is exactly as before.  Whether a member
    ends wrapped depends on that member alone. *)
Theorem bundle_members_wrapped_once constructor p h0 out0 :
  wf_heap h0 ->
  isFunction constructor = true ->
  ref_of (get h0 constructor "prototype") = Some p ->
  is_Some (h0 !! p) ->
  exists st',
    wrapControllerClass constructor (State h0 out0) = (Ok constructor, st') /\
    forall l key d,
      l ∈ chain (S (size h0)) h0 p ∅ ->
      getOwnPropertyDescriptor h0 l key = Some d ->
      exists d', getOwnPropertyDescriptor (heap st') l key = Some d' /\
                 member_after h0 (heap st') key d d'.
Proof.
  intros Hwf Hfn Hproto Hp.
  destruct (processPrototype_spec h0 Hwf (S (size h0)) p ∅ (State h0 out0))
    as (st' & Hrun & _ & Hmembers); [done| |apply evolves_refl|done|].
  { rewrite difference_empty_L, size_dom. lia. }
  exists st'. split; [|done].
  unfold wrapControllerClass. rewrite Hfn. cbn [negb heap].
  assert (truthy (get h0 constructor "prototype") = true) as ->.
  { by destruct (get h0 constructor "prototype"). }
  cbn [negb]. rewrite Hproto. unfold bind. by rewrite Hrun.
Qed.

(** C8, as the code has it.  Whenever [wrapHandler] returns a wrapper for
    a function, the wrapper has the [length] of the function, and its
    [name] is ["wrapped_"] followed by the name of the function, or by
    ["handler"] when that name is empty (or otherwise falsy). *)
Theorem wrapHandler_length_and_name fn st wrapped st' :
  isFunction fn = true ->
  wrapHandler fn st = (Ok wrapped, st') ->
  get (heap st') wrapped "length" = get (heap st) fn "length" /\
  get (heap st') wrapped "name" =
    VStr ("wrapped_" +:+
          String_ (if truthy (get (heap st) fn "name")
                   then get (heap st) fn "name" else VStr "handler")).
Proof.
  intros Hfn Hrun.
  destruct (wrapHandler_spec fn st Hfn) as (r & st1 & Hrun1 & _ & _ & Hr).
  rewrite Hrun in Hrun1. simplify_eq.
  destruct (wrappable (heap st) fn); [|by destruct Hr].
  destruct Hr as (wr & W & [= ->] & _ & HW & _ & Hlen & Hname).
  split; by eapply get_own_data.
Qed.

End BundleFacts.

(** ** Part 2, proofs: wrapping *)

Section WrappingFacts.
Context `{Host}.

(** C7. [null] and [undefined] come back as they are, with nothing
    touched; any other value that is not callable makes the entry point
    throw a [TypeError]. *)
Theorem catchAsync_not_callable target st :
  isFunction target = false ->
  catchAsync target st =
    (match target with
     | VNull | VUndefined => Ok target
     | _ => Throw (TypeError "Target must be a function or a class constructor")
     end, st).
Proof. by destruct target. Qed.

Lemma wrap_members_constructor_only prototype names st :
  (forall k, k ∈ names -> k = "constructor") ->
  wrap_members prototype names st = (Ok tt, st).
Proof.
  induction names as [|k names IH]; intros Hk; [done|].
  simpl. unfold bind, wrap_member.
  rewrite (Hk k) by set_solver. simpl. apply IH. set_solver.
Qed.

(** C10. A function written with the [function] keyword owns a
    [prototype] object whose only own member is [constructor] and whose
    parent is [Object.prototype].  The entry point takes it for a class,
    finds nothing to wrap and hands back the very same function: heap and
    console are as before. *)
Theorem catchAsync_function_keyword_untouched F o p po w e c st :
  heap st !! F = Some o ->
  own_property o "prototype" = Some (Data (VObj p) w e c) ->
  heap st !! p = Some po ->
  o_proto po = Some Object_prototype ->
  (forall k, k ∈ getOwnPropertyNames (heap st) p -> k = "constructor") ->
  catchAsync (VFun F) st = wrapControllerClass (VFun F) st /\
  catchAsync (VFun F) st = (Ok (VFun F), st).
Proof.
  intros HF Hproto Hp Hparent Hkeys.
  pose proof (get_own_data _ F o "prototype" (VObj p) w e c (VFun F)
                eq_refl HF Hproto) as Hg.
  assert (catchAsync (VFun F) st = wrapControllerClass (VFun F) st) as Hpath.
  { unfold catchAsync. by rewrite Hg. }
  split; [done|]. rewrite Hpath.
  unfold wrapControllerClass. cbn [isFunction negb]. rewrite Hg.
  cbn [truthy negb ref_of processPrototype].
  rewrite decide_False by set_solver.
  unfold bind at 1. unfold bind at 1.
  rewrite wrap_members_constructor_only by done.
  unfold getPrototypeOf. rewrite Hp. simpl. rewrite Hparent.
  by rewrite decide_True.
Qed.

End WrappingFacts.

(** ** The code run on the example realm *)

Section Examples.
#[local] Existing Instance example_host.



Lemma malformed_continuation_aborts_witness :
  isFunction (default VUndefined (last [req; res])) = false /\
  (wrappedHandler 3 throw_string [req; res] start).1 = Returned VUndefined /\
  fn_calls (wrappedHandler 3 throw_string [req; res] start).2 = [].
Proof.
  split; [reflexivity|].
  destruct (malformed_continuation_aborts 3 throw_string [req; res] start)
    as (Hr & Hfn & _); [reflexivity|].
  split; [exact Hr|exact Hfn].
Defined.

Lemma catchAsync_not_callable_witness :
  isFunction (VNum 42) = false /\
  catchAsync (VNum 42) (State realm []) =
    (Throw (TypeError "Target must be a function or a class constructor"),
     State realm []).
Proof.
  split; [reflexivity|].
  apply (catchAsync_not_callable (VNum 42) (State realm [])). reflexivity.
Defined.

Lemma catchAsync_function_keyword_untouched_witness :
  catchAsync (VFun 5) (State realm []) =
    wrapControllerClass (VFun 5) (State realm []) /\
  catchAsync (VFun 5) (State realm []) = (Ok (VFun 5), State realm []).
Proof.
  apply (catchAsync_function_keyword_untouched 5
           (function_object 3 "legacy"
              [("prototype", Data (VObj 6) true false false)])
           6
           (Obj (Some 0) [("constructor", Data (VFun 5) true false true)]
                true None)
           true false false (State realm []));
    [reflexivity|reflexivity|reflexivity|reflexivity|].
  intros k Hk. vm_compute in Hk. apply list_elem_of_singleton in Hk. exact Hk.
Defined.

Lemma bundle_members_wrapped_once_witness :
  wf_heap realm /\
  exists st',
    wrapControllerClass (VFun 10) (State realm []) = (Ok (VFun 10), st') /\
    forall l key d,
      l ∈ chain (S (size realm)) realm 11 ∅ ->
      getOwnPropertyDescriptor realm l key = Some d ->
      exists d', getOwnPropertyDescriptor (heap st') l key = Some d' /\
                 member_after realm (heap st') key d d'.
Proof.
  split; [vm_compute; reflexivity|].
  apply (bundle_members_wrapped_once (VFun 10) 11 realm []);
    [vm_compute; reflexivity|reflexivity|vm_compute; reflexivity|].
  eexists. vm_compute. reflexivity.
Defined.

Lemma wrapHandler_length_and_name_witness :
  get (heap (wrapHandler (VFun 9) (State realm [])).2) (VFun 15) "length" =
    get realm (VFun 9) "length" /\
  get (heap (wrapHandler (VFun 9) (State realm [])).2) (VFun 15) "name" =
    VStr "wrapped_baseMethod".
Proof.
  apply (wrapHandler_length_and_name (VFun 9) (State realm []) (VFun 15)
           (wrapHandler (VFun 9) (State realm [])).2);
    [reflexivity|vm_compute; reflexivity].
Defined.

(** C8, as it is written, fails on the commonest input: an anonymous
    function, such as the arrow function handed to [catchAsync] in place.
    Its name is empty, and the wrapper is named ["wrapped_handler"], not
    ["wrapped_"]. *)
Lemma anonymous_function_wrapper_name :
  (wrapHandler (VFun 4) (State realm [])).1 = Ok (VFun 15) /\
  get realm (VFun 4) "name" = VStr EmptyString /\
  get (heap (wrapHandler (VFun 4) (State realm [])).2) (VFun 15) "name" =
    VStr "wrapped_handler" /\
  get (heap (wrapHandler (VFun 4) (State realm [])).2) (VFun 15) "name" <>
    VStr ("wrapped_" +:+ String_ (get realm (VFun 4) "name")).
Proof. vm_compute. split_and!; [reflexivity..|discriminate]. Qed.

(** A function that owns a [prototype], as every [function] declaration
    does, cannot be wrapped at all: copying [prototype] onto the wrapper
    is refused. *)
Lemma wrapHandler_function_keyword_throws :
  (wrapHandler (VFun 5) (State realm [])).1 =
    Throw (TypeError "Cannot redefine property").
Proof. reflexivity. Qed.

(** C5, where the code departs from it: [catchAsync(Object)].  The bundle's
    own level is [Object.prototype]; the test of line 240 guards the
    parents only, so the traversal goes through [Object.prototype] and
    replaces [hasOwnProperty] by a wrapper. *)
Theorem Object_prototype_is_processed :
  let r := catchAsync (VFun 2) (State realm []) in
  r.1 = Ok (VFun 2) /\
  match (processPrototype (S (size realm)) Object_prototype ∅
           (State realm [])).1 with
  | Ok (_, levels) => levels = [Object_prototype]
  | _ => False
  end /\
  getOwnPropertyDescriptor realm Object_prototype "hasOwnProperty" =
    Some (Data (VFun 3) true false true) /\
  getOwnPropertyDescriptor (heap r.2) Object_prototype "hasOwnProperty" =
    Some (Data (VFun 15) true false true) /\
  wraps (heap r.2) 15 (VFun 3).
Proof.
  split_and!; [reflexivity..|].
  eexists _, _. split; vm_compute; reflexivity.
Qed.

(** C2, where the code departs from it.  [hasCalledNext] is one variable
    per wrapper (line 56), reset at every call (line 65).  Two requests
    are handled by the same wrapped handler, which fails after an
    [await]: the first rejection sets the flag, and the failure of the
    second request is never delivered to its continuation [31], although
    on its own it is.  And a second call re-arms the guard of the first:
    the continuation [30] of a handler that reported an error and then
    failed is called twice. *)
Theorem shared_flag_leaks_between_invocations :
  let second := [VObj 22; VObj 23; VFun 31] in
  received 31 (invoke 3 async_failure second start).2 = [[VError 102 "x"]] /\
  received 31
    (lworld (run 3 async_failure
               [Call [req; res; VFun 30]; Call second; Tick 0; Tick 1]
               (Loop start []))) = [] /\
  received 30 (invoke 3 report_then_fail [req; res; VFun 30] start).2 =
    [[VError 100 "a"]] /\
  received 30
    (lworld (run 3 report_then_fail
               [Call [req; res; VFun 30]; Call second; Tick 0]
               (Loop start []))) = [[VError 100 "a"]; [VError 101 "b"]].
Proof. split_and!; reflexivity. Qed.

(** C1, where the code departs from it; the defect is the one of C2.  The
    handler calls the continuation with the error [a] and, after an
    [await], rejects with [b]: the invocation the claim speaks of.  On its
    own it delivers [a] and nothing else.  But when the wrapper is called
    for another request before the rejection, line 65 puts the shared flag
    down again, and the rejection of the first invocation goes through its
    guard: the continuation [30] is called a second time, with [b], and no
    warning is written. *)
Theorem second_call_rearms_guard :
  let first := [req; res; VFun 30] in
  let second := [VObj 22; VObj 23; VFun 31] in
  let alone := (invoke 3 report_then_fail first start).2 in
  let interleaved :=
    lworld (run 3 report_then_fail [Call first; Call second; Tick 0; Tick 1]
                (Loop start [])) in
  explicit_calls (script_of report_then_fail first start) =
    [[VError 100 "a"]] /\
  rejects (script_of report_then_fail first start) = Some (VError 101 "b") /\
  delivered alone = [(30, [VError 100 "a"])] /\
  delivered interleaved =
    [(30, [VError 100 "a"]); (30, [VError 101 "b"])] /\
  console interleaved = [].
Proof. split_and!; reflexivity. Qed.

(** C3, where the code departs from it, in two ways.  [String(err)] on
    line 112 is evaluated inside the callback given to [result.catch]: for a
    rejection value that cannot be converted, such as [Object.create(null)],
    the callback throws, so the promise the wrapper returned rejects with a
    [TypeError] and the continuation is never called.  And, by the defect of
    C2, a rejection whose own guard never fired is dropped when another
    invocation of the wrapper has set the shared flag in the meantime: here
    the second request fails first, and the failure of the first request
    never reaches its continuation [30]. *)
Theorem rejection_can_be_lost :
  let args := [req; res; VFun 30] in
  let second := [VObj 22; VObj 23; VFun 31] in
  rejects (script_of async_throw_bare_object args start) = Some (VObj 50) /\
  explicit_calls (script_of async_throw_bare_object args start) = [] /\
  ToString (VObj 50) = None /\
  invoke 3 async_throw_bare_object args start =
    (Rejected (TypeError "Cannot convert object to primitive value"),
     World false [] [[req; res; VFun 200]] [] 201) /\
  rejects (script_of async_failure args start) = Some (VError 102 "x") /\
  explicit_calls (script_of async_failure args start) = [] /\
  received 30 (invoke 3 async_failure args start).2 = [[VError 102 "x"]] /\
  received 30
    (lworld (run 3 async_failure [Call args; Call second; Tick 1; Tick 0]
                 (Loop start []))) = [].
Proof. split_and!; reflexivity. Qed.

(** C4, where the code departs from it.  [String(err)] on line 126 is
    evaluated inside the [catch] block, where nothing protects it: for a
    thrown value that cannot be converted, such as [Object.create(null)], the
    conversion throws a [TypeError] that escapes the wrapper, and the
    continuation is not called. *)
Theorem thrown_value_can_escape :
  let args := [req; res; VFun 30] in
  throws (script_of throw_bare_object args start) = Some (VObj 50) /\
  sync_calls (script_of throw_bare_object args start) = [] /\
  instanceof_Error (VObj 50) = false /\
  ToString (VObj 50) = None /\
  wrappedHandler 3 throw_bare_object args start =
    (Threw (TypeError "Cannot convert object to primitive value"),
     World false [] [[req; res; VFun 200]] [] 201).
Proof. split_and!; reflexivity. Qed.

End Examples.

(** ** More on one invocation, and on many *)

Section InvocationMore.
Context `{Host}.

(** X2. In one invocation that is followed to the settlement of its promise
    with no other call of the wrapper in between ([invoke]), the first call
    of the continuation goes through with its arguments as they are, none
    included, whether or not the handler fails later; what the handler
    throws or rejects with after it is dropped, and only the later explicit
    calls leave a warning. *)
Theorem first_call_forwarded_verbatim expectedArgCount fn args next w first later :
  last args = Some (VFun next) ->
  explicit_calls (script_of fn args w) = first :: later ->
  delivered (invoke expectedArgCount fn args w).2 =
    delivered w ++ [(next, first)] /\
  console (invoke expectedArgCount fn args w).2 =
    console (entered expectedArgCount args w) ++
    replicate (length later) NextCalledMultipleTimes.
Proof.
  intros Hlast Hcalls. rewrite (invoke_spec _ _ _ next) by done.
  cbv zeta. rewrite Hcalls.
  pose proof (after_calls_first next first later
                (entered expectedArgCount args w)
                (entered_fresh _ _ _)) as ->.
  rewrite entered_delivered.
  destruct (ending _) as [v|p|e]; [|destruct (async_ending p)|];
    cbn [snd]; rewrite ?on_rejected_fired, ?on_thrown_fired by done; done.
Qed.

(** X3. A handler that ends well without calling the continuation: the wrapper
    hands back what the handler returned (or a promise fulfilled with what
    the handler's promise was fulfilled with), and the continuation is not
    called. *)
Theorem success_passes_through expectedArgCount fn args next w :
  last args = Some (VFun next) ->
  explicit_calls (script_of fn args w) = [] ->
  throws (script_of fn args w) = None ->
  rejects (script_of fn args w) = None ->
  (invoke expectedArgCount fn args w).1 =
    match ending (script_of fn args w) with
    | Normal v => Value v
    | Promise p =>
        Fulfilled match async_ending p with inl v => v | inr _ => VUndefined end
    | Thrown _ => Value VUndefined
    end /\
  delivered (invoke expectedArgCount fn args w).2 = delivered w /\
  console (invoke expectedArgCount fn args w).2 =
    console (entered expectedArgCount args w).
Proof.
  intros Hlast Hcalls Hthr Hrej. rewrite (invoke_spec _ _ _ next) by done.
  cbv zeta. rewrite Hcalls. unfold after_calls. cbn [foldl].
  unfold throws, rejects in *.
  destruct (ending _) as [v|p|e]; [|destruct (async_ending p)|]; try done;
    cbn [fst snd]; by rewrite entered_delivered.
Qed.

(** X4. With a callable last argument the original is applied exactly once,
    whatever the number of arguments: too few of them cost a warning and
    nothing else.  It sees the arguments it was called with, the last one
    replaced by the guard. *)
Theorem original_applied_once expectedArgCount fn args next w :
  last args = Some (VFun next) ->
  fn_calls (invoke expectedArgCount fn args w).2 =
    fn_calls w ++ [<[pred (length args) := VFun (next_ref w)]> args].
Proof.
  intros Hlast.
  rewrite (invoke_world _ _ _ next) by done. cbv zeta.
  set (s := script_of fn args w).
  set (w0 := entered expectedArgCount args w).
  assert (fn_calls w0 =
            fn_calls w ++ [<[pred (length args) := VFun (next_ref w)]> args])
    as Hfn.
  { unfold w0, entered. simpl. by case_match. }
  assert (hasCalledNext w0 = false) as Hf by apply entered_fresh.
  assert (fn_calls (after_calls next (explicit_calls s) w0) = fn_calls w0)
    as Hcalls.
  { destruct (explicit_calls s) as [|c rest]; [done|].
    by rewrite after_calls_first. }
  destruct (ending s) as [v|p|err]; [|destruct (async_ending p) as [v|err]|];
    try (by rewrite Hcalls).
  - destruct (on_rejected_frame next err (after_calls next (explicit_calls s) w0))
      as (calls & _ & _ & _ & -> & _). by rewrite Hcalls.
  - destruct (on_thrown_frame next err (after_calls next (explicit_calls s) w0))
      as (calls & _ & _ & _ & -> & _). by rewrite Hcalls.
Qed.

Lemma wrappedNext_budget next nextArgs w :
  length (delivered (wrappedNext next nextArgs w).2) +
    (if hasCalledNext (wrappedNext next nextArgs w).2 then 0 else 1) =
  length (delivered w) + (if hasCalledNext w then 0 else 1) /\
  hasCalledNext (wrappedNext next nextArgs w).2 = true.
Proof.
  unfold wrappedNext. destruct (hasCalledNext w) eqn:Hf; simpl.
  - by rewrite Hf.
  - rewrite length_app. simpl. split; [lia|done].
Qed.

Lemma after_calls_budget next calls w :
  length (delivered (after_calls next calls w)) +
    (if hasCalledNext (after_calls next calls w) then 0 else 1) =
  length (delivered w) + (if hasCalledNext w then 0 else 1).
Proof.
  revert w. induction calls as [|c calls IH]; intros w; [done|].
  rewrite after_calls_cons, IH. apply wrappedNext_budget.
Qed.

Lemma on_rejected_budget next err w :
  length (delivered (on_rejected next err w).2) +
    (if hasCalledNext (on_rejected next err w).2 then 0 else 1) =
  length (delivered w) + (if hasCalledNext w then 0 else 1).
Proof.
  destruct (hasCalledNext w) eqn:Hf.
  { rewrite on_rejected_fired by done. cbn [snd]. by rewrite Hf. }
  destruct (normalizable err) eqn:Hn.
  - destruct (on_rejected_fresh next err w Hf Hn)
      as (e & w' & -> & _ & Hf' & Hd & _).
    cbn [snd]. rewrite Hf', Hd, length_app. simpl. lia.
  - rewrite on_rejected_stuck by done. cbn [snd]. by rewrite Hf.
Qed.

Lemma on_thrown_budget next err w :
  length (delivered (on_thrown next err w).2) +
    (if hasCalledNext (on_thrown next err w).2 then 0 else 1) =
  length (delivered w) + (if hasCalledNext w then 0 else 1).
Proof.
  destruct (hasCalledNext w) eqn:Hf.
  { rewrite on_thrown_fired by done. cbn [snd]. by rewrite Hf. }
  destruct (normalizable err) eqn:Hn.
  - destruct (on_thrown_fresh next err w Hf Hn)
      as (e & w' & -> & _ & Hf' & Hd & _).
    cbn [snd]. rewrite Hf', Hd, length_app. simpl. lia.
  - rewrite on_thrown_stuck by done. cbn [snd]. by rewrite Hf.
Qed.

(** A call of the wrapper grants one delivery, used or not. *)
Lemma wrappedHandler_budget expectedArgCount fn args w :
  length (delivered (wrappedHandler expectedArgCount fn args w).2) +
    (if hasCalledNext (wrappedHandler expectedArgCount fn args w).2
     then 0 else 1) =
  length (delivered w) + 1.
Proof.
  unfold wrappedHandler.
  set (w0 := if length args <? expectedArgCount then _ else _).
  assert (hasCalledNext w0 = false /\ delivered w0 = delivered w) as [Hf Hd].
  { unfold w0. by case_match. }
  destruct (default VUndefined (last args)) eqn:Hlast;
    try (cbn [snd log hasCalledNext delivered]; rewrite Hf, Hd; lia).
  cbn [alloc]. rewrite run_sync_spec.
  match goal with
  | |- context [after_calls ?n ?c ?w1] =>
      pose proof (after_calls_budget n c w1) as Hb;
      assert (hasCalledNext w1 = false /\ delivered w1 = delivered w) as [Hf1 Hd1]
        by (by simpl)
  end.
  rewrite Hf1, Hd1 in Hb.
  destruct (ending _) as [v|p|err]; cbn [snd]; [done..|].
  match goal with
  | |- context [on_thrown ?n ?e ?w1] =>
      pose proof (on_thrown_budget n e w1) as Ht;
      destruct (on_thrown n e w1) as [[x|] w2]
  end; cbn [snd] in *; lia.
Qed.

Lemma async_step_budget next p w :
  length (delivered (async_step next p w).2) +
    (if hasCalledNext (async_step next p w).2 then 0 else 1) =
  length (delivered w) + (if hasCalledNext w then 0 else 1).
Proof.
  destruct p as [v|err|a k]; cbn [async_step]; [done| |].
  - pose proof (caught_world next err w) as Hc.
    pose proof (on_rejected_budget next err w) as Hb.
    destruct (caught next err w) as [o w']. cbn [snd] in *. by rewrite Hc.
  - apply wrappedNext_budget.
Qed.

Lemma step_budget expectedArgCount fn e l :
  length (delivered (lworld (step expectedArgCount fn e l))) +
    (if hasCalledNext (lworld (step expectedArgCount fn e l)) then 0 else 1) <=
  length (delivered (lworld l)) +
    (if hasCalledNext (lworld l) then 0 else 1) +
    match e with Call _ => 1 | Tick _ => 0 end.
Proof.
  destruct e as [args|i]; simpl.
  - pose proof (wrappedHandler_budget expectedArgCount fn args (lworld l)) as Hb.
    destruct (wrappedHandler _ _ _ _) as [[v|next p|x] w1]; simpl in *;
      destruct (hasCalledNext (lworld l)); lia.
  - destruct (promises l !! i) as [[[next p]|]|]; [|lia..].
    pose proof (async_step_budget next p (lworld l)) as Hb.
    destruct (async_step next p (lworld l)) as [[k|v] w1]; simpl in *; lia.
Qed.

(** X5. However the invocations of one wrapper are interleaved, the
    continuations are called at most once per call of the wrapper (and once
    more if the schedule starts with the flag down and a promise pending):
    the shared flag can lose or misplace a delivery, it never multiplies
    them beyond the number of calls. *)
Theorem deliveries_bounded_by_calls expectedArgCount fn es l :
  length (delivered (lworld (run expectedArgCount fn es l))) <=
  length (delivered (lworld l)) + calls_in es +
    (if hasCalledNext (lworld l) then 0 else 1).
Proof.
  enough (length (delivered (lworld (run expectedArgCount fn es l))) +
            (if hasCalledNext (lworld (run expectedArgCount fn es l))
             then 0 else 1) <=
          length (delivered (lworld l)) +
            (if hasCalledNext (lworld l) then 0 else 1) + calls_in es)
    by (destruct (hasCalledNext (lworld (run _ _ _ _))); lia).
  revert l. induction es as [|e es IH]; intros l; [simpl; lia|].
  unfold run in *. cbn [foldl].
  etrans; [apply IH|].
  pose proof (step_budget expectedArgCount fn e l).
  destruct e; simpl in *; lia.
Qed.

End InvocationMore.

(** ** More on [wrapHandler] *)

Section WrapHandlerMore.
Context `{Host}.

Lemma set_prop_keys_new key d props :
  key ∉ (fst <$> props) -> array_index key = None ->
  fst <$> set_prop key d props = (fst <$> props) ++ [key].
Proof.
  intros Hk Hi. rewrite set_prop_absent, Hi by done. by rewrite fmap_app.
Qed.

(** A new index that is larger than the indices there are goes right after
    them. *)
Lemma add_index_last i key d indexed others :
  Forall (fun kd => exists j, array_index kd.1 = Some j /\ (j < i)%N) indexed ->
  Forall (fun kd => array_index kd.1 = None) others ->
  add_index i key d (indexed ++ others) = indexed ++ (key, d) :: others.
Proof.
  intros Hi Ho. induction Hi as [|[k d0] indexed (j & Hj & Hlt) _ IH].
  - destruct Ho as [|[k d0] others Hk _]; [done|].
    cbn in Hk |- *. by rewrite Hk.
  - cbn in Hj |- *. rewrite Hj.
    apply N.ltb_lt in Hlt as ->. by rewrite IH.
Qed.

Lemma copy_prop_exact wr W kd st :
  heap st !! wr = Some W -> under_construction W -> copy_ok kd = true ->
  copy_prop wr kd st =
    (Ok tt, State (<[wr := with_props W (copied (o_props W) kd)]> (heap st))
                  (out st)) /\
  under_construction (with_props W (copied (o_props W) kd)) /\
  own_property (with_props W (copied (o_props W) kd)) "prototype" =
    own_property W "prototype".
Proof.
  intros HW Hinv Hok. pose proof Hinv as (Hext & Hconf & dp & Hdp & Hdpc).
  destruct kd as [prop d]. unfold copy_prop, copy_ok, copied in *. simpl in *.
  assert (with_props W (o_props W) = W) as Hsame by by destruct W.
  destruct (String.eqb_spec prop "length") as [->|Hl]; simpl in *.
  { destruct d; rewrite Hsame, insert_id by done; by destruct st. }
  destruct (String.eqb_spec prop "name") as [->|Hn]; simpl in *.
  { destruct d; rewrite Hsame, insert_id by done; by destruct st. }
  destruct d as [v w e c|]; [|done]. simpl in Hok.
  destruct (String.eqb_spec prop "prototype") as [->|Hp]; [done|].
  split_and!.
  - apply defineProperty_ok; [done|].
    destruct (own_property W prop) as [cur|] eqn:Hcur; [|done].
    unfold may_redefine. by rewrite (Hconf prop cur).
  - split_and!; [done| |].
    + intros k d. destruct (decide (k = prop)) as [->|Hk].
      * rewrite own_property_set_prop_eq. by intros [= <-].
      * rewrite own_property_set_prop_ne by done. apply Hconf.
    + exists dp. by rewrite own_property_set_prop_ne.
  - by rewrite own_property_set_prop_ne.
Qed.

(** The copying loop, when every property can be copied, in one equation. *)
Lemma copy_props_exact wr W props st :
  heap st !! wr = Some W -> under_construction W ->
  forallb copy_ok props = true ->
  copy_props wr props st =
    (Ok tt, State (<[wr := with_props W (foldl copied (o_props W) props)]> (heap st))
                  (out st)) /\
  own_property (with_props W (foldl copied (o_props W) props)) "prototype" =
    own_property W "prototype".
Proof.
  revert W st. induction props as [|kd props IH]; intros W st HW Hinv Hok.
  - simpl. assert (with_props W (o_props W) = W) as -> by by destruct W.
    rewrite insert_id by done. by destruct st.
  - simpl in Hok. apply andb_true_iff in Hok as [Hkd Hok].
    destruct (copy_prop_exact wr W kd st HW Hinv Hkd) as (Hrun & Hinv1 & Hp1).
    cbn [copy_props foldl]. unfold bind. rewrite Hrun.
    destruct (IH (with_props W (copied (o_props W) kd))
                 (State (<[wr := with_props W (copied (o_props W) kd)]> (heap st))
                        (out st))) as [Hrun2 Hp2];
      [apply lookup_insert_eq|done|done|].
    rewrite Hrun2. cbn [heap out o_props with_props].
    rewrite insert_insert_eq. split; [done|].
    cbn [o_props with_props] in Hp2. by rewrite <- Hp1, <- Hp2.
Qed.

(** What the loop has copied, read back. *)
Lemma copied_content o acc props :
  NoDup (fst <$> props) ->
  (forall k, k ∈ (fst <$> props) -> is_copied k = true -> k ∉ (fst <$> acc)) ->
  forallb copy_ok props = true ->
  (forall k, k ∈ (fst <$> acc) ->
     own_property (with_props o (foldl copied acc props)) k =
     own_property (with_props o acc) k) /\
  (forall k d, (k, d) ∈ props -> is_copied k = true ->
     exists v w e c,
       d = Data v w e c /\
       own_property (with_props o (foldl copied acc props)) k =
         Some (Data v true e true)).
Proof.
  revert acc. induction props as [|[k d] props IH]; intros acc Hnd Hnew Hok.
  { simpl. split; [done|]. by intros ?? ?%elem_of_nil. }
  rewrite fmap_cons in Hnd. apply NoDup_cons in Hnd as [Hk Hnd].
  simpl in Hok. apply andb_true_iff in Hok as [Hkd Hok].
  cbn [foldl].
  destruct (is_copied k) eqn:Hc.
  - assert (exists v w e c, d = Data v w e c) as (v & w & e & c & ->).
    { unfold copy_ok, is_copied in *. simpl in *.
      destruct (String.eqb k "length"), (String.eqb k "name"), d;
        simpl in *; try done; eauto. }
    assert (copied acc (k, Data v w e c) = set_prop k (Data v true e true) acc)
      as Hstep.
    { unfold copied, is_copied in *. simpl. by rewrite Hc. }
    rewrite Hstep.
    assert (k ∉ (fst <$> acc)) as Hfresh by (apply Hnew; [set_solver|done]).
    destruct (IH (set_prop k (Data v true e true) acc)) as (Hold & Hnewp);
      [done| |done|].
    { intros k' Hk' Hc'. rewrite set_prop_elem_of.
      intros [->|Hin]; [done|].
      eapply Hnew; [|done..]. set_solver. }
    split.
    + intros k' Hk'. rewrite Hold.
      * apply own_property_set_prop_ne. intros ->. done.
      * apply set_prop_elem_of. by right.
    + intros k' d' [Heq|Hin]%elem_of_cons Hc'.
      * simplify_eq. exists v, w, e, c. split; [done|].
        rewrite Hold; [apply own_property_set_prop_eq|].
        apply set_prop_elem_of. by left.
      * by apply Hnewp.
  - assert (copied acc (k, d) = acc) as Hstep.
    { unfold copied, is_copied in *. simpl. rewrite Hc. by destruct d. }
    rewrite Hstep.
    destruct (IH acc) as (Hold & Hnewp); [done| |done|].
    { intros k' Hk' Hc'. apply Hnew; [set_solver|done]. }
    split; [done|].
    intros k' d' [Heq|Hin]%elem_of_cons Hc'; [|by apply Hnewp].
    simplify_eq. congruence.
Qed.

Lemma is_index_copied k : is_index k = true -> is_copied k = true.
Proof.
  unfold is_copied.
  destruct (String.eqb_spec k "length") as [->|_]; [done|].
  by destruct (String.eqb_spec k "name") as [->|_].
Qed.

(** The names on the wrapper once the loop is through: a copied index joins
    the indices, any other copied name goes last. *)
Lemma copied_names props :
  forall indexed others,
  NoDup (fst <$> props) ->
  (forall k, k ∈ (fst <$> props) -> is_copied k = true ->
             k ∉ (fst <$> indexed ++ others)) ->
  forallb copy_ok props = true ->
  Forall (fun kd => is_index kd.1 = true) indexed ->
  Forall (fun kd => array_index kd.1 = None) others ->
  StronglySorted N.lt
    (omap array_index (fst <$> indexed) ++ omap array_index (fst <$> props)) ->
  fst <$> foldl copied (indexed ++ others) props =
    (fst <$> indexed) ++
    filter (fun k => is_index k = true) (fst <$> props) ++
    (fst <$> others) ++
    filter (fun k => is_index k = false /\ is_copied k = true) (fst <$> props).
Proof.
  induction props as [|[k d] props IH];
    intros indexed others Hnd Hnew Hok Hidx Hoth Hsort.
  { cbn. by rewrite app_nil_r, fmap_app. }
  rewrite fmap_cons in Hnd. apply NoDup_cons in Hnd as [Hk Hnd].
  simpl in Hok. apply andb_true_iff in Hok as [Hkd Hok].
  cbn [foldl]. rewrite !fmap_cons. cbn [fst].
  rewrite fmap_cons in Hsort. cbn [omap list_omap fst] in Hsort.
  destruct (is_copied k) eqn:Hc.
  - assert (exists v w e c, d = Data v w e c) as (v & w & e & c & ->).
    { unfold copy_ok, is_copied in *. simpl in *.
      destruct (String.eqb k "length"), (String.eqb k "name"), d;
        simpl in *; try done; eauto. }
    assert (copied (indexed ++ others) (k, Data v w e c) =
            set_prop k (Data v true e true) (indexed ++ others)) as ->.
    { unfold copied, is_copied in *. simpl. by rewrite Hc. }
    assert (k ∉ (fst <$> indexed ++ others)) as Hfresh
      by (apply Hnew; [set_solver|done]).
    rewrite set_prop_absent by done.
    destruct (array_index k) as [i|] eqn:Hi.
    + (* an index *)
      assert (is_index k = true) as Hik by (unfold is_index; by rewrite Hi).
      rewrite add_index_last; [|
        |done].
      2:{ apply Forall_forall. intros [k' d'] Hin.
          rewrite Forall_forall in Hidx. pose proof (Hidx _ Hin) as Hk'.
          unfold is_index in Hk'. cbn in Hk' |- *.
          destruct (array_index k') as [j|] eqn:Hj; [|done].
          exists j. split; [done|].
          eapply (StronglySorted_app_1_elem_of _ _ _ j i Hsort);
            [|set_solver].
          apply list_elem_of_omap. exists k'. split; [|done].
          apply list_elem_of_fmap. by exists (k', d'). }
      replace (indexed ++ (k, Data v true e true) :: others)
        with ((indexed ++ [(k, Data v true e true)]) ++ others)
        by (by rewrite <- app_assoc).
      rewrite (IH (indexed ++ [(k, Data v true e true)]) others); try done.
      * rewrite fmap_app. cbn [fmap list_fmap fst].
        rewrite filter_cons_True by done.
        rewrite filter_cons_False by (intros [? _]; congruence).
        by rewrite <- !app_assoc.
      * intros k' Hk' Hc'. rewrite <- app_assoc. cbn.
        rewrite fmap_app, fmap_cons. intros Hin.
        apply elem_of_app in Hin as [Hin|Hin].
        -- eapply (Hnew k'); [set_solver|done|]. rewrite fmap_app. set_solver.
        -- apply elem_of_cons in Hin as [->|Hin]; [done|].
           eapply (Hnew k'); [set_solver|done|]. rewrite fmap_app. set_solver.
      * apply Forall_app. split; [done|]. by constructor.
      * rewrite fmap_app, omap_app. cbn [fmap list_fmap fst omap list_omap].
        rewrite Hi. by rewrite <- app_assoc.
    + (* any other name *)
      assert (is_index k = false) as Hik by (unfold is_index; by rewrite Hi).
      rewrite <- app_assoc.
      rewrite (IH indexed (others ++ [(k, Data v true e true)])); try done.
      * rewrite (fmap_app _ others). cbn [fmap list_fmap fst].
        rewrite filter_cons_False by congruence.
        rewrite filter_cons_True by done.
        by rewrite <- !app_assoc.
      * intros k' Hk' Hc'. rewrite app_assoc, fmap_app. cbn.
        intros Hin. apply elem_of_app in Hin as [Hin|Hin].
        -- eapply (Hnew k'); [set_solver|done..].
        -- apply list_elem_of_singleton in Hin as ->. done.
      * apply Forall_app. split; [done|]. by constructor.
  - assert (copied (indexed ++ others) (k, d) = indexed ++ others) as ->.
    { unfold copied, is_copied in *. simpl. rewrite Hc. by destruct d. }
    assert (is_index k = false) as Hni.
    { destruct (is_index k) eqn:E; [|done].
      apply is_index_copied in E. congruence. }
    rewrite (IH indexed others); try done.
    * rewrite filter_cons_False by (by rewrite Hni).
      rewrite filter_cons_False by (intros [_ ?]; congruence). done.
    * intros k' Hk' Hc'. apply Hnew; [set_solver|done].
    * unfold is_index in Hni. by destruct (array_index k).
Qed.


Lemma new_wrappedHandler_shape fn n st :
  exists wr p,
    new_wrappedHandler fn n st =
      (Ok wr,
       State (<[wr := Obj (Some Function_prototype)
                          [("length", Data (VNum 0) false false true);
                           ("name", Data (VStr "wrappedHandler") false false true);
                           ("prototype", Data (VObj p) true false false)]
                          true (Some (fn, n))]>
                (<[p := Obj (Some Object_prototype)
                            [("constructor", Data (VFun wr) true false true)]
                            true None]> (heap st)))
             (out st)) /\
    heap st !! wr = None /\ heap st !! p = None /\ wr <> p /\
    wr <> Object_prototype.
Proof.
  set (h := heap st).
  set (p := fresh_ref h).
  set (P0 := Obj (Some Object_prototype) [] true None).
  set (wr := fresh_ref (<[p := P0]> h)).
  assert (h !! p = None) as Hp by apply fresh_ref_fresh.
  assert (<[p := P0]> h !! wr = None) as Hwr by apply fresh_ref_fresh.
  assert (wr <> p) as Hne.
  { intros E. rewrite E, lookup_insert_eq in Hwr. done. }
  assert (h !! wr = None) as Hwr' by by rewrite lookup_insert_ne in Hwr.
  assert (wr <> Object_prototype) as Hbase.
  { unfold wr, fresh_ref.
    pose proof (is_fresh ({[Object_prototype; Function_prototype]}
                            ∪ dom (<[p := P0]> h))).
    set_solver. }
  exists wr, p. split; [|done].
  unfold new_wrappedHandler, allocate.
  unfold bind at 1. unfold bind at 1. unfold bind at 1.
  cbn [heap out]. fold h p. fold P0. fold wr.
  erewrite defineProperty_ok; cycle 1.
  { cbn [heap]. rewrite lookup_insert_ne by done. apply lookup_insert_eq. }
  { done. }
  unfold ret. cbn [heap out]. do 2 f_equal.
  rewrite (insert_insert_ne _ p wr) by done.
  by rewrite insert_insert_eq.
Qed.

(** [wrapHandler] on a function whose properties can be copied, in full:
    the wrapper, its prototype object, and nothing else new. *)
Lemma wrapHandler_shape fn st :
  isFunction fn = true ->
  wrappable (heap st) fn = true ->
  exists wr p W,
    wrapHandler fn st =
      (Ok (VFun wr),
       State (<[wr := W]>
                (<[p := Obj (Some Object_prototype)
                            [("constructor", Data (VFun wr) true false true)]
                            true None]> (heap st)))
             (out st)) /\
    heap st !! wr = None /\ heap st !! p = None /\ wr <> p /\
    wr <> Object_prototype /\
    o_proto W = Some Function_prototype /\
    o_closure W = Some (fn, get (heap st) fn "length") /\
    o_props W =
      foldl copied
        [("length", Data (get (heap st) fn "length") false false true);
         ("name",
          Data (VStr ("wrapped_" +:+
                      String_ (if truthy (get (heap st) fn "name")
                               then get (heap st) fn "name"
                               else VStr "handler"))) true false true);
         ("prototype", Data (VObj p) true false false)]
        (match ref_of fn with
         | Some r => match heap st !! r with
                     | Some o => o_props o
                     | None => []
                     end
         | None => []
         end) /\
    own_property W "prototype" = Some (Data (VObj p) true false false).
Proof.
  intros Hfn Hw. unfold wrapHandler. rewrite Hfn. cbn [negb].
  set (h := heap st) in *.
  set (props := match ref_of fn with Some r => _ | None => _ end).
  assert (forallb copy_ok props = true) as Hok.
  { unfold wrappable in Hw. unfold props.
    destruct (ref_of fn) as [r|]; [|done]. by destruct (h !! r). }
  destruct (new_wrappedHandler_shape fn (get h fn "length") st)
    as (wr & p & Hnew & Hfresh & Hpfresh & Hne & Hbase).
  unfold bind at 1. rewrite Hnew.
  unfold bind at 1.
  erewrite defineProperty_ok; [|apply lookup_insert_eq|done].
  cbn [heap out]. rewrite insert_insert_eq.
  unfold bind at 1.
  erewrite defineProperty_ok; [|apply lookup_insert_eq|done].
  cbn [heap out]. rewrite insert_insert_eq.
  unfold bind at 1.
  match goal with
  | |- context [copy_props wr props (State (<[wr := ?W]> ?h1) ?o)] =>
      destruct (copy_props_exact wr W props (State (<[wr := W]> h1) o))
        as [Hrun Hproto]; [apply lookup_insert_eq| |done|]
  end.
  { split_and!; [done| |by eexists].
    intros k d. unfold own_property. cbn.
    repeat (case_match; simplify_eq/=; try done); intros; simplify_eq/=; done. }
  rewrite Hrun. cbn [heap out]. rewrite insert_insert_eq. unfold ret.
  eexists wr, p, _. split_and!; [reflexivity|done..| | | |].
  - done.
  - done.
  - done.
  - rewrite Hproto. done.
Qed.

End WrapHandlerMore.

Section WrapHandlerResults.
Context `{Host}.

(** X6. [wrapHandler] changes no object that exists, the function it is given
    included, whether it returns or throws; and for a function it writes
    nothing to the console. *)
Theorem wrapHandler_preserves_heap fn st :
  heap st ⊆ heap (wrapHandler fn st).2 /\
  (isFunction fn = true -> out (wrapHandler fn st).2 = out st).
Proof.
  destruct (isFunction fn) eqn:Hfn.
  - destruct (wrapHandler_spec fn st Hfn) as (r & st' & -> & Hout & Hsub & _).
    by split.
  - unfold wrapHandler. rewrite Hfn. simpl. split; [done|discriminate].
Qed.

Lemma forallb_copy_ok_false props :
  forallb copy_ok props = false <->
  exists k d, (k, d) ∈ props /\ is_copied k = true /\
              (k = "prototype" \/ is_data d = false).
Proof.
  induction props as [|[k d] props IH]; simpl.
  { split; [done|]. by intros (? & ? & ?%elem_of_nil & _). }
  rewrite andb_false_iff, IH. split.
  - intros [Hkd|(k' & d' & Hin & Hc)].
    + exists k, d. split; [set_solver|].
      unfold copy_ok, is_copied in *. simpl in *.
      destruct (String.eqb k "length"), (String.eqb k "name"); try done.
      split; [done|].
      destruct (String.eqb_spec k "prototype"), (is_data d); simpl in *;
        auto; done.
    + exists k', d'. split; [set_solver|done].
  - intros (k' & d' & [Heq|Hin]%elem_of_cons & Hc & Hbad).
    + simplify_eq. left. unfold copy_ok, is_copied in *. simpl in *.
      destruct (String.eqb k "length"), (String.eqb k "name"); try done.
      simpl. destruct Hbad as [->| ->]; [|done].
      by rewrite andb_false_r.
    + right. eauto.
Qed.

Lemma wrapHandler_outcome f o st :
  heap st !! f = Some o ->
  (exists e, (wrapHandler (VFun f) st).1 = Throw e) <->
  forallb copy_ok (o_props o) = false.
Proof.
  intros Ho.
  destruct (wrapHandler_spec (VFun f) st eq_refl) as (r & st' & -> & _ & _ & Hr).
  unfold wrappable in Hr. cbn [ref_of] in Hr. rewrite Ho in Hr. cbn [fst].
  destruct (forallb copy_ok (o_props o)).
  - destruct Hr as (wr & W & -> & _). split; [by intros [e ?]|done].
  - destruct Hr as [e ->]. split; [done|by exists e].
Qed.

(** X7. [wrapHandler] throws on a function exactly when the function owns,
    besides [length] and [name], a property called [prototype] or an
    accessor: a [function] declaration, a class, a generator, or a function
    with a getter attached cannot be wrapped. *)
Theorem wrapHandler_throws_iff f o st :
  heap st !! f = Some o ->
  (exists e, (wrapHandler (VFun f) st).1 = Throw e) <->
  (exists k d, (k, d) ∈ o_props o /\ is_copied k = true /\
               (k = "prototype" \/ is_data d = false)).
Proof.
  intros Ho. rewrite <- forallb_copy_ok_false. by apply wrapHandler_outcome.
Qed.

(** X8. When [wrapHandler] returns a wrapper, every own property of the
    function other than [length] and [name] is on the wrapper, with its
    value and enumerability, writable and configurable; and the wrapper owns
    these besides [length], [name] and [prototype], nothing else.  Its own
    names are listed as an engine lists them: the array indices copied from
    the function first, then [length], [name], [prototype], then the other
    copied names, each group in the function's order. *)
Theorem wrapHandler_copies_properties f o st wr st' :
  heap st !! f = Some o ->
  NoDup (fst <$> o_props o) ->
  indices_ascending (fst <$> o_props o) ->
  wrapHandler (VFun f) st = (Ok (VFun wr), st') ->
  getOwnPropertyNames (heap st') wr =
    filter (fun k => is_index k = true) (getOwnPropertyNames (heap st) f) ++
    ["length"; "name"; "prototype"] ++
    filter (fun k => is_index k = false /\ is_copied k = true)
           (getOwnPropertyNames (heap st) f) /\
  forall k d,
    getOwnPropertyDescriptor (heap st) f k = Some d -> is_copied k = true ->
    exists v w e c,
      d = Data v w e c /\
      getOwnPropertyDescriptor (heap st') wr k = Some (Data v true e true).
Proof.
  intros Ho Hnd Hasc Hrun.
  assert (wrappable (heap st) (VFun f) = true) as Hw.
  { destruct (wrapHandler_spec (VFun f) st eq_refl)
      as (r & st1 & Hrun1 & _ & _ & Hr).
    rewrite Hrun in Hrun1. simplify_eq.
    destruct (wrappable (heap st) (VFun f)); [done|by destruct Hr]. }
  destruct (wrapHandler_shape (VFun f) st eq_refl Hw)
    as (wr' & p & W & Hrun' & _ & _ & _ & _ & _ & _ & Hprops & _).
  rewrite Hrun in Hrun'. simplify_eq. cbn [heap ref_of] in *.
  rewrite Ho in Hprops.
  unfold wrappable in Hw. cbn [ref_of] in Hw. rewrite Ho in Hw.
  match type of Hprops with
  | _ = foldl copied ?acc _ =>
      assert (forall k, k ∈ (fst <$> o_props o) -> is_copied k = true ->
                        k ∉ (fst <$> acc)) as Hfresh;
      [|destruct (copied_content W acc (o_props o) Hnd Hfresh Hw)
          as (_ & Hnew);
        pose proof (copied_names (o_props o) [] acc Hnd Hfresh Hw) as Hkeys]
  end.
  { intros k Hk Hc.
    assert (k <> "prototype") as Hp.
    { intros ->. apply list_elem_of_fmap in Hk as [[k d] [Hkd Hin]].
      cbn in Hkd. subst k.
      rewrite forallb_forall in Hw. apply list_elem_of_In in Hin.
      apply Hw in Hin. unfold copy_ok in Hin. cbn in Hin.
      by rewrite andb_false_r in Hin. }
    unfold is_copied in Hc. cbn.
    destruct (String.eqb_spec k "length"), (String.eqb_spec k "name");
      try done.
    set_solver. }
  unfold getOwnPropertyNames, getOwnPropertyDescriptor.
  rewrite lookup_insert_eq, Ho. cbn [mbind option_bind]. split.
  - rewrite Hprops. cbn [app] in Hkeys. rewrite Hkeys; [done|done| |done].
    repeat constructor.
  - intros k d Hd Hc.
    destruct (Hnew k d) as (v & w & e & c & -> & Hown);
      [by apply own_property_elem_of|done|].
    exists v, w, e, c. split; [done|].
    rewrite <- Hown. unfold own_property. cbn. by rewrite Hprops.
Qed.

(** X9. A function made by [wrapHandler] owns a [prototype], so [wrapHandler]
    throws on it: a wrapper is never wrapped again. *)
Theorem wrapHandler_wrapper_throws fn st wrapped st' st'' :
  isFunction fn = true ->
  wrapHandler fn st = (Ok wrapped, st') ->
  heap st' ⊆ heap st'' ->
  exists e, (wrapHandler wrapped st'').1 = Throw e.
Proof.
  intros Hfn Hrun Hsub.
  assert (wrappable (heap st) fn = true) as Hw.
  { destruct (wrapHandler_spec fn st Hfn) as (r & st1 & Hrun1 & _ & _ & Hr).
    rewrite Hrun in Hrun1. simplify_eq.
    destruct (wrappable (heap st) fn); [done|by destruct Hr]. }
  destruct (wrapHandler_shape fn st Hfn Hw)
    as (wr & p & W & Hrun' & _ & _ & _ & _ & _ & _ & _ & Hproto).
  rewrite Hrun in Hrun'. simplify_eq.
  assert (heap st'' !! wr = Some W) as HW.
  { eapply lookup_weaken; [|done]. apply lookup_insert_eq. }
  apply (wrapHandler_outcome wr W st'' HW), forallb_copy_ok_false.
  exists "prototype", (Data (VObj p) true false false).
  split; [by apply own_property_elem_of|]. split; [done|by left].
Qed.

Lemma constructor_only_untouched prototype names st :
  (forall k, k ∈ names -> k = "constructor") ->
  wrap_members prototype names st = (Ok tt, st).
Proof.
  induction names as [|k names IH]; intros Hk; [done|].
  simpl. unfold bind, wrap_member.
  rewrite (Hk k) by set_solver. simpl. apply IH. set_solver.
Qed.

(** X10. The entry point applied to the result of [wrapHandler] hands it back as
    it is: the wrapper owns a [prototype] object, so it is taken for a
    class, and that object holds [constructor] only. *)
Theorem catchAsync_wrapper_unchanged fn st wrapped st' :
  isFunction fn = true ->
  wrapHandler fn st = (Ok wrapped, st') ->
  catchAsync wrapped st' = (Ok wrapped, st').
Proof.
  intros Hfn Hrun.
  assert (wrappable (heap st) fn = true) as Hw.
  { destruct (wrapHandler_spec fn st Hfn) as (r & st1 & Hrun1 & _ & _ & Hr).
    rewrite Hrun in Hrun1. simplify_eq.
    destruct (wrappable (heap st) fn); [done|by destruct Hr]. }
  destruct (wrapHandler_shape fn st Hfn Hw)
    as (wr & p & W & Hrun' & _ & _ & Hne & _ & _ & _ & _ & Hproto).
  rewrite Hrun in Hrun'. simplify_eq. cbn [heap].
  set (st' := State _ (out st)).
  assert (heap st' !! wr = Some W) as HW by apply lookup_insert_eq.
  assert (heap st' !! p =
            Some (Obj (Some Object_prototype)
                      [("constructor", Data (VFun wr) true false true)]
                      true None)) as Hp.
  { unfold st'. cbn [heap]. rewrite lookup_insert_ne by done.
    apply lookup_insert_eq. }
  pose proof (get_own_data _ wr W "prototype" (VObj p) true false false
                (VFun wr) eq_refl HW Hproto) as Hg.
  unfold catchAsync. rewrite Hg. cbn [isFunction truthy typeof_object andb].
  unfold wrapControllerClass. cbn [isFunction negb]. rewrite Hg.
  cbn [truthy negb ref_of processPrototype].
  case_decide; [set_solver|].
  unfold bind at 1. unfold bind at 1.
  rewrite constructor_only_untouched; cycle 1.
  { unfold getOwnPropertyNames. rewrite Hp. cbn.
    by intros k ->%list_elem_of_singleton. }
  unfold getPrototypeOf. rewrite Hp. cbn [mbind option_bind o_proto].
  by case_decide.
Qed.

(** X11. The entry point applied to a callable that has no object for
    [prototype] (an arrow function, an async function, a method) is
    [wrapHandler]: when the properties of the callable can be copied it
    returns a new function that holds the callable in its closure, and
    nothing that existed is changed. *)
Theorem catchAsync_plain_callable target st :
  isFunction target = true ->
  truthy (get (heap st) target "prototype")
    && typeof_object (get (heap st) target "prototype") = false ->
  wrappable (heap st) target = true ->
  exists wr st',
    catchAsync target st = (Ok (VFun wr), st') /\
    heap st !! wr = None /\
    wraps (heap st') wr target /\
    heap st ⊆ heap st' /\
    out st' = out st.
Proof.
  intros Hfn Hproto Hw.
  assert (catchAsync target st = wrapHandler target st) as ->.
  { unfold catchAsync. destruct target; try done.
    cbn [isFunction andb] in *. by rewrite Hproto. }
  destruct (wrapHandler_spec target st Hfn) as (r & st' & Hrun & Hout & Hsub & Hr).
  rewrite Hw in Hr. destruct Hr as (wr & W & -> & Hfresh & HW & Hclos & _).
  exists wr, st'. split_and!; try done. by exists W, (get (heap st) target "length").
Qed.

End WrapHandlerResults.

(** ** More on wrapping a bundle *)

Section BundleMore.
Context `{Host}.

(** X12. As a decorator [wrapControllerClass] hands back the very value it was
    given, in every case but one: a function whose [prototype] is a truthy
    primitive makes the WeakSet refuse it.  On a well-formed heap the
    traversal always ends. *)
Theorem wrapControllerClass_returns_constructor constructor h0 out0 :
  wf_heap h0 ->
  in_heap h0 (get h0 constructor "prototype") = true ->
  (wrapControllerClass constructor (State h0 out0)).1 =
    if isFunction constructor
       && truthy (get h0 constructor "prototype")
       && negb (bool_decide (is_Some (ref_of (get h0 constructor "prototype"))))
    then Throw (TypeError "Invalid value used in weak set")
    else Ok constructor.
Proof.
  intros Hwf Hin. unfold wrapControllerClass.
  destruct (isFunction constructor) eqn:Hfn; [|done]. cbn [negb heap andb].
  destruct (truthy (get h0 constructor "prototype")) eqn:Htr; [|done].
  cbn [negb andb].
  unfold in_heap in Hin.
  destruct (ref_of (get h0 constructor "prototype")) as [p|] eqn:Hp; [|done].
  apply bool_decide_eq_true in Hin.
  rewrite bool_decide_eq_true_2 by eauto. cbn [negb].
  destruct (processPrototype_total h0 p out0 Hwf Hin) as [st' Hrun].
  unfold bind. by rewrite Hrun.
Qed.

(** X13. Wrapping a bundle leaves every object off its chain as it was, the
    constructor's own object included when it is not a level; and on the
    chain and off it no object changes parent or gains, loses or reorders a
    member. *)
Theorem bundle_wrapping_frame constructor p h0 out0 :
  wf_heap h0 ->
  isFunction constructor = true ->
  ref_of (get h0 constructor "prototype") = Some p ->
  is_Some (h0 !! p) ->
  let st' := (wrapControllerClass constructor (State h0 out0)).2 in
  (forall x o, h0 !! x = Some o -> x ∉ chain (S (size h0)) h0 p ∅ ->
               heap st' !! x = Some o) /\
  (forall x, is_Some (h0 !! x) ->
             getPrototypeOf (heap st') x = getPrototypeOf h0 x /\
             getOwnPropertyNames (heap st') x = getOwnPropertyNames h0 x).
Proof.
  intros Hwf Hfn Hproto Hp. cbv zeta.
  destruct (processPrototype_spec h0 Hwf (S (size h0)) p ∅ (State h0 out0))
    as (st' & Hrun & [Hframe Hev] & _); [done| |apply evolves_refl|done|].
  { rewrite difference_empty_L, size_dom. lia. }
  assert ((wrapControllerClass constructor (State h0 out0)).2 = st') as ->.
  { unfold wrapControllerClass. rewrite Hfn. cbn [negb heap].
    assert (truthy (get h0 constructor "prototype") = true) as ->.
    { by destruct (get h0 constructor "prototype"). }
    cbn [negb]. rewrite Hproto. unfold bind. by rewrite Hrun. }
  cbn [heap] in *. split.
  - intros x o Hx Hn. apply Hframe; [done|]. by rewrite elem_of_list_to_set.
  - intros x [o Hx]. split; [by apply evolves_proto; eauto|].
    destruct (Hev x o Hx) as (o' & Hx' & _ & Hf).
    unfold getOwnPropertyNames. rewrite Hx, Hx'.
    symmetry. by apply Forall2_same_entry_keys.
Qed.

End BundleMore.

(** ** Wrapping a bundle twice *)

Section TwiceFacts.
Context `{Host}.

Lemma copy_props_under_construction wr W props st :
  heap st !! wr = Some W -> under_construction W ->
  exists W' r,
    copy_props wr props st = (r, State (<[wr := W']> (heap st)) (out st)) /\
    under_construction W' /\ o_closure W' = o_closure W.
Proof.
  revert W st. induction props as [|kd props IH]; intros W st HW Hinv.
  - exists W, (Ok tt). simpl. rewrite insert_id by done. by destruct st.
  - simpl. unfold bind. destruct (copy_ok kd) eqn:Hok.
    + destruct (copy_prop_ok wr W kd st HW Hinv Hok)
        as (W1 & -> & Hinv1 & Hc1 & _).
      destruct (IH W1 (State (<[wr := W1]> (heap st)) (out st)))
        as (W2 & r & -> & Hinv2 & Hc2); [apply lookup_insert_eq|done|].
      exists W2, r. simpl. rewrite insert_insert_eq.
      split_and!; [done|done|congruence].
    + destruct (copy_prop_refused wr W kd st HW Hinv Hok) as [e ->].
      exists W, (Throw e). rewrite insert_id by done. by destruct st.
Qed.

(** The objects [wrapHandler] adds: a function with a closure owns a
    [prototype], even when the copying failed half-way. *)
Lemma wrapHandler_new_objects fn st x o :
  heap (wrapHandler fn st).2 !! x = Some o ->
  heap st !! x = None ->
  is_Some (o_closure o) ->
  is_Some (own_property o "prototype").
Proof.
  unfold wrapHandler. destruct (isFunction fn) eqn:Hfn; cbn [negb].
  2:{ simpl. congruence. }
  set (h := heap st).
  set (props := match ref_of fn with Some r => _ | None => _ end).
  destruct (new_wrappedHandler_shape fn (get h fn "length") st)
    as (wr & p & Hnew & Hfresh & Hpfresh & Hne & Hbase).
  unfold bind at 1. rewrite Hnew.
  unfold bind at 1.
  erewrite defineProperty_ok; [|apply lookup_insert_eq|done].
  cbn [heap out]. rewrite insert_insert_eq.
  unfold bind at 1.
  erewrite defineProperty_ok; [|apply lookup_insert_eq|done].
  cbn [heap out]. rewrite insert_insert_eq.
  unfold bind at 1.
  match goal with
  | |- context [copy_props wr props (State (<[wr := ?W]> ?h1) ?o)] =>
      destruct (copy_props_under_construction wr W props (State (<[wr := W]> h1) o))
        as (W' & r & -> & Hinv & _); [apply lookup_insert_eq| |]
  end.
  { split_and!; [done| |by eexists].
    intros k d. unfold own_property. cbn.
    repeat (case_match; simplify_eq/=; try done); intros; simplify_eq/=; done. }
  cbn [heap out]. rewrite insert_insert_eq.
  assert (forall r0 : result unit,
            heap (match r0 with
                  | Ok _ => ret (VFun wr) (State (<[wr := W']> (<[p :=
                      Obj (Some Object_prototype)
                          [("constructor", Data (VFun wr) true false true)]
                          true None]> (heap st))) (out st))
                  | Throw e => (Throw e, State (<[wr := W']> (<[p :=
                      Obj (Some Object_prototype)
                          [("constructor", Data (VFun wr) true false true)]
                          true None]> (heap st))) (out st))
                  | Diverged => (Diverged, State (<[wr := W']> (<[p :=
                      Obj (Some Object_prototype)
                          [("constructor", Data (VFun wr) true false true)]
                          true None]> (heap st))) (out st))
                  end).2 =
            <[wr := W']> (<[p := Obj (Some Object_prototype)
                          [("constructor", Data (VFun wr) true false true)]
                          true None]> (heap st))) as Hheap.
  { by intros [| |]. }
  rewrite Hheap. intros Hx Hold Hclos.
  destruct (decide (x = wr)) as [->|Hxw].
  { rewrite lookup_insert_eq in Hx. simplify_eq.
    destruct Hinv as (_ & _ & d & -> & _). eauto. }
  rewrite lookup_insert_ne in Hx by done.
  destruct (decide (x = p)) as [->|Hxp].
  { rewrite lookup_insert_eq in Hx. simplify_eq. by destruct Hclos. }
  rewrite lookup_insert_ne in Hx by done. subst h. congruence.
Qed.

Lemma set_prop_keeps key d props k :
  k ∈ (fst <$> props) -> k ∈ (fst <$> set_prop key d props).
Proof. intros Hin. apply set_prop_elem_of. by right. Qed.

(** One turn of the member loop, by what it does to the heap. *)
Lemma wrap_member_heap l key st :
  exists st',
    wrap_member l key st = (Ok tt, st') /\
    (heap st' = heap st \/
     exists v,
       heap st' = heap (wrapHandler v st).2 \/
       exists ol D,
         heap (wrapHandler v st).2 !! l = Some ol /\
         heap st' =
           <[l := with_props ol (set_prop key D (o_props ol))]>
             (heap (wrapHandler v st).2)).
Proof.
  unfold wrap_member. destruct (String.eqb key "constructor"); [by eauto|].
  destruct (getOwnPropertyDescriptor (heap st) l key) as [[v w e c|]|];
    [|by eauto..].
  destruct (isFunction v) eqn:Hv; [|by eauto].
  unfold try_catch, bind.
  destruct (wrapHandler v st) as [[wrappedMethod| |] st1] eqn:Hrun.
  - destruct (heap st1 !! l) as [ol|] eqn:Hl.
    + destruct (match own_property ol key with
                | None => o_extensible ol
                | Some current => may_redefine current (Data wrappedMethod w e c)
                end) eqn:Hok.
      * rewrite (defineProperty_ok _ _ _ _ ol Hl Hok).
        eexists. split; [reflexivity|]. right. exists v. right.
        rewrite Hrun. cbn [snd heap]. eauto.
      * rewrite (defineProperty_refused _ _ _ _ ol Hl Hok).
        eexists. split; [reflexivity|]. right. exists v. left. by rewrite Hrun.
    + unfold defineProperty. rewrite Hl.
      eexists. split; [reflexivity|]. right. exists v. left. by rewrite Hrun.
  - eexists. split; [reflexivity|]. right. exists v. left. by rewrite Hrun.
  - destruct (wrapHandler_spec v st Hv) as (r & st2 & Hrun2 & _ & _ & Hr).
    rewrite Hrun in Hrun2. simplify_eq.
    destruct (wrappable (heap st) v); [by destruct Hr as (? & ? & ? & _)|].
    by destruct Hr.
Qed.

Lemma wrapHandler_subseteq fn st : heap st ⊆ heap (wrapHandler fn st).2.
Proof.
  destruct (isFunction fn) eqn:Hfn.
  - by destruct (wrapHandler_spec fn st Hfn) as (r & st' & -> & _ & Hsub & _).
  - unfold wrapHandler. by rewrite Hfn.
Qed.

Lemma wrapHandler_keeps_wrappers h0 v st :
  wrappers_own_prototype h0 (heap st) ->
  wrappers_own_prototype h0 (heap (wrapHandler v st).2).
Proof.
  intros HJ r o Hr Hnew Hclos.
  destruct (heap st !! r) as [o0|] eqn:Hold.
  - pose proof (lookup_weaken _ _ _ _ Hold (wrapHandler_subseteq v st)).
    simplify_eq. by eapply HJ.
  - by eapply wrapHandler_new_objects.
Qed.

Lemma wrap_member_keeps_wrappers h0 l key st st' :
  wrappers_own_prototype h0 (heap st) ->
  wrap_member l key st = (Ok tt, st') ->
  wrappers_own_prototype h0 (heap st').
Proof.
  intros HJ Hrun.
  destruct (wrap_member_heap l key st) as (st1 & Hrun1 & Hheap).
  rewrite Hrun in Hrun1. simplify_eq.
  destruct Hheap as [->|[v [->|(ol & D & Hl & ->)]]];
    [done|by apply wrapHandler_keeps_wrappers|].
  pose proof (wrapHandler_keeps_wrappers h0 v st HJ) as HJ1.
  intros r o Hr Hnew Hclos.
  destruct (decide (r = l)) as [->|Hne].
  - rewrite lookup_insert_eq in Hr. simplify_eq.
    apply own_property_is_Some. cbn. apply set_prop_keeps.
    apply own_property_is_Some. by eapply HJ1.
  - rewrite lookup_insert_ne in Hr by done. by eapply HJ1.
Qed.

Lemma wrap_members_keeps_wrappers h0 l ks st st' :
  wrappers_own_prototype h0 (heap st) ->
  wrap_members l ks st = (Ok tt, st') ->
  wrappers_own_prototype h0 (heap st').
Proof.
  revert st. induction ks as [|k ks IH]; intros st HJ Hrun.
  { simpl in Hrun. unfold ret in Hrun. by simplify_eq. }
  simpl in Hrun. unfold bind in Hrun.
  destruct (wrap_member l k st) as [[[]| |] st1] eqn:Hk; [|done..].
  eapply IH; [|done]. by eapply wrap_member_keeps_wrappers.
Qed.

Lemma processPrototype_keeps_wrappers h0 fuel p visited st r st' :
  wrappers_own_prototype h0 (heap st) ->
  processPrototype fuel p visited st = (Ok r, st') ->
  wrappers_own_prototype h0 (heap st').
Proof.
  revert p visited st r st'. induction fuel as [|fuel IH];
    intros p visited st r st' HJ; [done|].
  rewrite processPrototype_unfold. case_decide; [by intros [= _ <-]|].
  destruct (wrap_members _ _ _) as [[[]| |] st1] eqn:Hm; [|done..].
  pose proof (wrap_members_keeps_wrappers _ _ _ _ _ HJ Hm) as HJ1.
  destruct (getPrototypeOf (heap st1) p) as [q|]; [|by intros [= _ <-]].
  case_decide; [by intros [= _ <-]|].
  destruct (processPrototype fuel q _ st1) as [[r1| |] st2] eqn:Hrec; [|done..].
  intros [= _ <-]. by eapply IH.
Qed.

(** A turn of the member loop on a member that cannot be wrapped or cannot
    be redefined changes nothing that exists. *)
Lemma wrap_member_noop l key st :
  (forall v w e c,
      getOwnPropertyDescriptor (heap st) l key = Some (Data v w e c) ->
      String.eqb key "constructor" = false ->
      isFunction v = true ->
      wrappable (heap st) v = false \/
      (c || w = false /\ in_heap (heap st) v = true)) ->
  exists st', wrap_member l key st = (Ok tt, st') /\ heap st ⊆ heap st'.
Proof.
  intros Hcond. unfold wrap_member.
  destruct (String.eqb key "constructor") eqn:Hk; [by eauto|].
  destruct (getOwnPropertyDescriptor (heap st) l key) as [[v w e c|]|] eqn:Hd;
    [|by eauto..].
  destruct (isFunction v) eqn:Hv; [|by eauto].
  specialize (Hcond v w e c eq_refl eq_refl Hv).
  destruct (wrapHandler_spec v st Hv) as (r & st1 & Hrun & Hout & Hsub & Hr).
  unfold try_catch, bind. rewrite Hrun.
  destruct (wrappable (heap st) v) eqn:Hw.
  - destruct Hcond as [?|[Hcw Hin]]; [done|].
    destruct Hr as (wr & W & -> & Hfresh & _).
    unfold getOwnPropertyDescriptor in Hd.
    destruct (heap st !! l) as [ol|] eqn:Hl; [|done]. cbn in Hd.
    pose proof (lookup_weaken _ _ _ _ Hl Hsub) as Hl1.
    erewrite defineProperty_refused; [|exact Hl1|].
    + unfold console_log. eexists. split; [done|]. done.
    + rewrite Hd. unfold may_redefine.
      apply orb_false_iff in Hcw as [-> ->]. cbn.
      rewrite Bool.eqb_reflx. cbn.
      apply bool_decide_eq_false. intros <-.
      unfold in_heap in Hin. cbn in Hin.
      apply bool_decide_eq_true in Hin as [? ?]. congruence.
  - destruct Hr as [e0 ->]. unfold console_log. eexists. split; [done|]. done.
Qed.

Lemma settled_weaken h1 h l key :
  h1 ⊆ h -> is_Some (h1 !! l) -> settled h1 l ->
  forall v w e c,
    getOwnPropertyDescriptor h l key = Some (Data v w e c) ->
    String.eqb key "constructor" = false ->
    isFunction v = true ->
    wrappable h v = false \/ (c || w = false /\ in_heap h v = true).
Proof.
  intros Hsub [ol Hl] Hs v w e c Hd Hk Hv.
  assert (getOwnPropertyDescriptor h1 l key = Some (Data v w e c)) as Hd1.
  { unfold getOwnPropertyDescriptor in *.
    by rewrite (lookup_weaken _ _ _ _ Hl Hsub) in Hd; rewrite Hl. }
  destruct (Hs key v w e c Hd1 Hk Hv) as [Hw|[Hcw Hin]].
  - left. unfold wrappable in *. destruct (ref_of v) as [r|]; [|done].
    destruct (h1 !! r) as [o|] eqn:Hr; [|done].
    by rewrite (lookup_weaken _ _ _ _ Hr Hsub).
  - right. split; [done|]. unfold in_heap in *.
    destruct (ref_of v) as [r|]; [|done].
    apply bool_decide_eq_true in Hin as [o Hr].
    apply bool_decide_eq_true. rewrite (lookup_weaken _ _ _ _ Hr Hsub). eauto.
Qed.

Lemma wrap_members_noop h1 l ks st :
  h1 ⊆ heap st -> is_Some (h1 !! l) -> settled h1 l ->
  exists st', wrap_members l ks st = (Ok tt, st') /\ h1 ⊆ heap st'.
Proof.
  intros Hsub Hl Hs. revert st Hsub.
  induction ks as [|k ks IH]; intros st Hsub; [by exists st|].
  destruct (wrap_member_noop l k st) as (st1 & Hrun & Hsub1).
  { by apply (settled_weaken h1). }
  destruct (IH st1) as (st' & Hrun' & Hsub'); [by etrans|].
  exists st'. split; [|done]. simpl. unfold bind. by rewrite Hrun.
Qed.

(** The traversal over levels on which nothing is left to wrap: it ends,
    goes through the same levels, and changes nothing that exists. *)
Lemma processPrototype_noop h0 h1 :
  wf_heap h0 -> evolves h0 h1 ->
  forall fuel p visited st,
    is_Some (h0 !! p) ->
    size (dom h0 ∖ visited) < fuel ->
    h1 ⊆ heap st ->
    (forall l, l ∈ chain fuel h0 p visited -> settled h1 l) ->
    exists st',
      processPrototype fuel p visited st =
        (Ok (visited ∪ list_to_set (chain fuel h0 p visited),
             chain fuel h0 p visited), st') /\
      h1 ⊆ heap st'.
Proof.
  intros Hwf Hev. induction fuel as [|fuel IH];
    intros p visited st Hp Hsize Hsub Hs; [lia|].
  rewrite processPrototype_unfold. simpl in Hs |- *.
  case_decide as Hvis.
  { exists st. split; [|done].
    by replace (visited ∪ list_to_set []) with visited by set_solver. }
  pose proof (evolves_dom _ _ _ Hev Hp) as Hp1.
  destruct (wrap_members_noop h1 p (getOwnPropertyNames (heap st) p) st)
    as (st1 & -> & Hsub1); [done|done|apply Hs; set_solver|].
  assert (getPrototypeOf (heap st1) p = getPrototypeOf h0 p) as ->.
  { rewrite <- (evolves_proto h0 h1 p Hev Hp).
    destruct Hp1 as [o1 Hp1]. unfold getPrototypeOf.
    by rewrite (lookup_weaken _ _ _ _ Hp1 Hsub1), Hp1. }
  destruct (getPrototypeOf h0 p) as [q|] eqn:Hq; cycle 1.
  { exists st1. split; [|done].
    by replace (visited ∪ list_to_set [p]) with ({[p]} ∪ visited) by set_solver. }
  case_decide as Hbase.
  { exists st1. split; [|done].
    by replace (visited ∪ list_to_set [p]) with ({[p]} ∪ visited) by set_solver. }
  destruct (IH q ({[p]} ∪ visited) st1) as (st' & -> & Hsub'); [| |done| |].
  - destruct Hp as [o Hp]. unfold getPrototypeOf in Hq. rewrite Hp in Hq.
    by eapply wf_heap_proto.
  - assert (dom h0 ∖ ({[p]} ∪ visited) ⊂ dom h0 ∖ visited) as Hlt.
    { destruct Hp as [o Hp]. apply elem_of_dom_2 in Hp. set_solver. }
    apply subset_size in Hlt. lia.
  - intros l Hl. apply Hs. set_solver.
  - exists st'. split; [|done]. cbn [fst snd].
    by replace (visited ∪ list_to_set (p :: chain fuel h0 q ({[p]} ∪ visited)))
      with ({[p]} ∪ visited ∪ list_to_set (chain fuel h0 q ({[p]} ∪ visited)))
      by set_solver.
Qed.

(** With enough fuel the levels of a bundle no longer depend on it. *)
Lemma chain_enough h fuel fuel' p seen :
  wf_heap h -> is_Some (h !! p) ->
  size (dom h ∖ seen) < fuel -> fuel <= fuel' ->
  chain fuel' h p seen = chain fuel h p seen.
Proof.
  intros Hwf. revert fuel' p seen.
  induction fuel as [|fuel IH]; intros fuel' p seen Hp Hsize Hle; [lia|].
  destruct fuel' as [|fuel']; [lia|]. simpl.
  case_decide as Hseen; [done|]. f_equal.
  destruct (getPrototypeOf h p) as [q|] eqn:Hq; [|done].
  case_decide; [done|].
  apply IH; [| |lia].
  - destruct Hp as [o Hp]. unfold getPrototypeOf in Hq. rewrite Hp in Hq.
    by eapply wf_heap_proto.
  - assert (dom h ∖ ({[p]} ∪ seen) ⊂ dom h ∖ seen) as Hlt.
    { destruct Hp as [o Hp]. apply elem_of_dom_2 in Hp. set_solver. }
    apply subset_size in Hlt. lia.
Qed.

(** Once a bundle has been wrapped, nothing is left to wrap on its levels:
    a member is a wrapper, which owns a [prototype], or it could not be
    wrapped the first time for a reason that still holds. *)
Lemma wrapped_levels_settled h0 h1 l :
  wf_heap h0 -> evolves h0 h1 -> wrappers_own_prototype h0 h1 ->
  is_Some (h0 !! l) ->
  (forall k d, getOwnPropertyDescriptor h0 l k = Some d ->
     exists d', getOwnPropertyDescriptor h1 l k = Some d' /\
                member_after h0 h1 k d d') ->
  settled h1 l.
Proof.
  intros Hwf Hev HJ [ol Hl] Hmembers key v' w e c Hd' Hk Hv'.
  destruct (Hev l ol Hl) as (ol1 & Hl1 & _ & Hf).
  assert (is_Some (own_property ol key)) as [d Hd].
  { apply own_property_is_Some.
    rewrite (Forall2_same_entry_keys _ _ Hf). apply own_property_is_Some.
    unfold getOwnPropertyDescriptor in Hd'. rewrite Hl1 in Hd'. eauto. }
  destruct (Hmembers key d) as (d'' & Hd'' & Hm).
  { unfold getOwnPropertyDescriptor. by rewrite Hl. }
  rewrite Hd' in Hd''. simplify_eq. unfold member_after in Hm.
  destruct d as [v0 w0 e0 c0|]; [|done].
  assert (in_heap h0 v0 = true) as Hin0.
  { eapply wf_heap_value; [done..|]. by apply own_property_elem_of. }
  rewrite Hk in Hm. cbn [negb andb] in Hm.
  destruct (isFunction v0) eqn:Hv0; [|by simplify_eq; congruence].
  destruct (wrappable h0 v0) eqn:Hw0; cbn [andb] in Hm.
  - destruct (c0 || w0) eqn:Hcw.
    + destruct Hm as (r & [= -> -> -> ->] & Hfresh & o_r & n & Hr & Hclos).
      left. unfold wrappable. cbn [ref_of]. rewrite Hr.
      apply forallb_copy_ok_false.
      destruct (HJ r o_r Hr Hfresh) as [dp Hdp]; [by rewrite Hclos|].
      exists "prototype", dp. split; [by apply own_property_elem_of|].
      split; [done|by left].
    + simplify_eq. right. split; [done|]. by eapply in_heap_evolves.
  - simplify_eq. left. by rewrite (evolves_wrappable h0 h1).
Qed.

(** X15. Wrapping a class a second time changes nothing that exists: no member
    is wrapped again.  (Each wrapper is tried and refused, so the second
    pass only leaves new, unreachable objects and console lines behind.) *)
Theorem bundle_wrapped_twice C o p w e c h0 out0 :
  wf_heap h0 ->
  h0 !! C = Some o ->
  own_property o "prototype" = Some (Data (VObj p) w e c) ->
  exists st1 st2,
    wrapControllerClass (VFun C) (State h0 out0) = (Ok (VFun C), st1) /\
    wrapControllerClass (VFun C) st1 = (Ok (VFun C), st2) /\
    heap st1 ⊆ heap st2.
Proof.
  intros Hwf HC Hproto.
  assert (is_Some (h0 !! p)) as Hp.
  { pose proof (wf_heap_value h0 C o "prototype" (VObj p) w e c Hwf HC
                  (own_property_elem_of _ _ _ Hproto)) as Hin.
    unfold in_heap in Hin. cbn in Hin. by apply bool_decide_eq_true in Hin. }
  assert (size (dom h0 ∖ ∅) < S (size h0)) as Hsize.
  { rewrite difference_empty_L, size_dom. lia. }
  destruct (processPrototype_spec h0 Hwf (S (size h0)) p ∅ (State h0 out0))
    as (st1 & Hrun & [Hframe Hev] & Hmembers); [done|done|apply evolves_refl|done|].
  cbn [heap] in *.
  assert (wrappers_own_prototype h0 (heap st1)) as HJ.
  { eapply processPrototype_keeps_wrappers; [|exact Hrun].
    intros r o0 Hr Hnone. cbn in Hr. congruence. }
  assert (exists o1, heap st1 !! C = Some o1 /\
            own_property o1 "prototype" = Some (Data (VObj p) w e c))
    as (o1 & HC1 & Hproto1).
  { destruct (decide (C ∈ chain (S (size h0)) h0 p ∅)) as [Hin|Hnin].
    - destruct (Hmembers C "prototype" (Data (VObj p) w e c) Hin)
        as (d' & Hd' & Hm).
      { unfold getOwnPropertyDescriptor. by rewrite HC. }
      unfold member_after in Hm. cbn [isFunction] in Hm.
      rewrite andb_false_r in Hm. subst d'.
      unfold getOwnPropertyDescriptor in Hd'.
      destruct (heap st1 !! C) as [o1|]; [|done]. eauto.
    - exists o. split; [|done]. apply Hframe; [done|].
      by rewrite elem_of_list_to_set. }
  exists st1.
  destruct (processPrototype_noop h0 (heap st1) Hwf Hev
              (S (size (heap st1))) p ∅ st1) as (st2 & Hrun2 & Hsub);
    [done| |done| |].
  { rewrite difference_empty_L, size_dom.
    assert (dom h0 ⊆ dom (heap st1)) as Hdom.
    { intros x Hx%elem_of_dom. apply elem_of_dom. by eapply evolves_dom. }
    apply subseteq_size in Hdom. rewrite !size_dom in Hdom. lia. }
  { intros l Hl.
    rewrite (chain_enough h0 (S (size h0))) in Hl; [|done..| ].
    2:{ assert (dom h0 ⊆ dom (heap st1)) as Hdom.
        { intros x Hx%elem_of_dom. apply elem_of_dom. by eapply evolves_dom. }
        apply subseteq_size in Hdom. rewrite !size_dom in Hdom. lia. }
    apply (wrapped_levels_settled h0); [done..| |].
    - by eapply chain_in_heap.
    - intros k d. by apply Hmembers. }
  exists st2. split_and!; [| |done].
  - unfold wrapControllerClass. cbn [isFunction negb heap].
    rewrite (get_own_data h0 C o "prototype" (VObj p) w e c) by done.
    cbn [truthy negb ref_of]. unfold bind. by rewrite Hrun.
  - unfold wrapControllerClass. cbn [isFunction negb].
    rewrite (get_own_data (heap st1) C o1 "prototype" (VObj p) w e c) by done.
    cbn [truthy negb ref_of]. unfold bind. by rewrite Hrun2.
Qed.

End TwiceFacts.

Section ResponseFacts.
Context `{Host}.

Lemma errorCodes_get_bounds key text :
  errorCodes_get key = Some text -> (400 <= key <= 511)%Z.
Proof.
  unfold errorCodes_get. destruct (List.find _ _) as [[k t]|] eqn:E; [|done].
  intros _. apply find_some in E as [E1 E2]. cbn [fst] in E2.
  apply Z.eqb_eq in E2 as <-.
  unfold errorCodes in E1. cbn [In] in E1.
  repeat (destruct E1 as [E1|E1]; [inversion E1; lia|]). done.
Qed.

(** The code an [ErrorHandler] ends up with. *)
Lemma status_code_in_table statusCode0 :
  let code :=
    match match statusCode0 with VUndefined => VNum 500 | _ => statusCode0 end
    with
    | VNum n =>
        if errorCodes_has
             match statusCode0 with VUndefined => VNum 500 | _ => statusCode0 end
        then n else 500%Z
    | _ => 500%Z
    end in
  is_Some (errorCodes_get code) /\
  (if errorCodes_has statusCode0 then VNum code = statusCode0
   else code = 500%Z).
Proof.
  destruct statusCode0 as [| |b|n|s|r|r|r m]; cbn; try (split; [by eexists|done]).
  case_bool_decide; [done|]. split; [by eexists|done].
Qed.

Lemma new_ErrorHandler_Ok message0 statusCode0 error :
  new_ErrorHandler message0 statusCode0 = Ok error ->
  statusText error = errorCodes_get (statusCode error) /\
  is_Some (errorCodes_get (statusCode error)) /\
  (if errorCodes_has statusCode0 then VNum (statusCode error) = statusCode0
   else statusCode error = 500%Z).
Proof.
  unfold new_ErrorHandler. destruct (ToString _) as [text|]; [|done].
  intros [= <-]. cbn [statusText statusCode].
  split; [done|]. apply status_code_in_table.
Qed.

Lemma new_ErrorHandler_Throw message0 statusCode0 e :
  new_ErrorHandler message0 statusCode0 = Throw e ->
  message0 <> VUndefined /\ ToString message0 = None.
Proof.
  unfold new_ErrorHandler. destruct message0; cbn; try done.
  all: by case_match.
Qed.

Lemma new_ErrorHandler_not_Diverged message0 statusCode0 :
  new_ErrorHandler message0 statusCode0 <> Diverged.
Proof. unfold new_ErrorHandler. by case_match. Qed.

(** With a message that converts, the constructor returns. *)
Lemma new_ErrorHandler_converts message0 statusCode0 text :
  message0 <> VUndefined -> ToString message0 = Some text ->
  exists error,
    new_ErrorHandler message0 statusCode0 = Ok error /\ message error = text.
Proof.
  intros Hm Ht. unfold new_ErrorHandler.
  assert (match message0 with
          | VUndefined => VStr "Something went wrong! Please try again"
          | _ => message0
          end = message0) as -> by by destruct message0.
  rewrite Ht. by eexists.
Qed.

Lemma new_ErrorHandler_string text statusCode0 :
  exists error,
    new_ErrorHandler (VStr text) statusCode0 = Ok error /\ message error = text.
Proof. by apply new_ErrorHandler_converts. Qed.

(** A string and a code of the table make the error one expects. *)
Lemma new_ErrorHandler_exact text code status :
  errorCodes_get code = Some status ->
  new_ErrorHandler (VStr text) (VNum code) =
    Ok (Build_ErrorHandler text code (Some status)).
Proof.
  intros Hc. unfold new_ErrorHandler. cbn [ToString String_ errorCodes_has].
  rewrite bool_decide_eq_true_2 by (by eexists). by rewrite Hc.
Qed.

Lemma map_message_not_Diverged h values : map_message h values <> Diverged.
Proof.
  induction values as [|v values IH]; [done|].
  cbn [map_message]. destruct (map_message h values); by destruct v.
Qed.

Lemma map_message_throws h values :
  (exists e, map_message h values = Throw e) <->
  Exists (fun v => nullish v = true) values.
Proof.
  induction values as [|v values IH].
  - split; [by intros [? ?]|by intros ?%Exists_nil].
  - rewrite Exists_cons, <- IH. cbn [map_message].
    pose proof (map_message_not_Diverged h values) as ND.
    destruct (map_message h values) as [ms|e|] eqn:E; [| |done].
    + destruct v; cbn [nullish]; split;
        try (by intros [? ?]); try (by intros [?|[? ?]]);
        try (by intros _; left); by intros _; eexists.
    + destruct v; cbn [nullish]; split;
        try (by intros _; right; eexists); by intros _; eexists.
Qed.

Lemma map_message_Ok h values messages :
  map_message h values = Ok messages ->
  messages = (fun v => get h v "message") <$> values.
Proof.
  revert messages. induction values as [|v values IH]; intros messages.
  { by intros [= <-]. }
  cbn [map_message].
  destruct (map_message h values) as [ms|e|]; destruct v; try done;
    intros [= <-]; by rewrite (IH ms).
Qed.

Lemma map_message_strings h values messages :
  Forall2 (fun v m => get h v "message" = VStr m) values messages ->
  map_message h values = Ok (VStr <$> messages).
Proof.
  induction 1 as [|v m values messages Hm _ IH]; [done|].
  cbn [map_message]. rewrite IH, Hm.
  destruct v; try done; by cbn in Hm.
Qed.

Lemma Array_join_strings separator strings :
  Array_join separator (VStr <$> strings) =
    Some (String.concat separator strings).
Proof.
  unfold Array_join. rewrite (mapM_Some_2 _ _ strings); [done|].
  induction strings as [|s strings IH]; constructor; done.
Qed.

Lemma Array_join_None separator array :
  Array_join separator array = None <->
  Exists (fun v => item_string v = None) array.
Proof.
  unfold Array_join. split.
  - destruct (mapM item_string array) eqn:E; [done|].
    intros _. by apply mapM_None_1.
  - intros Hex. by rewrite (mapM_None_2 _ _ Hex).
Qed.

Lemma Object_values_throws h x :
  match Object_values h x with
  | Ok _ => nullish x = false
  | Throw _ => nullish x = true
  | Diverged => False
  end.
Proof. by destruct x. Qed.

Lemma Object_keys_fresh h : Object_keys h (VObj (fresh_ref h)) = Ok [].
Proof. cbn [Object_keys]. unfold enumerable_props. by rewrite fresh_ref_fresh. Qed.

Lemma known_names_spec name :
  name ∉ known_names <->
  name <> VStr "CastError" /\ name <> VStr "ValidationError" /\
  name <> VStr "JsonWebTokenError" /\ name <> VStr "TokenExpiredError" /\
  name <> VStr "AxiosError".
Proof. unfold known_names. rewrite !not_elem_of_cons. set_solver. Qed.

(** When [handleCommonErrors] returns and when it throws. *)
Lemma handleCommonErrors_result h err :
  match handleCommonErrors h err with
  | Ok _ => ~ unanswerable h err
  | Throw _ => unanswerable h err
  | Diverged => False
  end.
Proof.
  unfold handleCommonErrors, unanswerable.
  destruct (truthy err) eqn:T; cbn [negb orb]; cycle 1.
  { destruct (new_ErrorHandler_string "Unexpected error occurred" (VNum 500))
      as (e & -> & _). cbv beta iota. by intros (? & _). }
  destruct (typeof_object err) eqn:O; cbn [negb orb]; cycle 1.
  { destruct (new_ErrorHandler_string "Unexpected error occurred" (VNum 500))
      as (e & -> & _). cbv beta iota. by intros (_ & ? & _). }
  set (name := get h err "name").
  case_bool_decide as N1.
  { (* CastError *)
    destruct (ToString (get h err "path")) as [path|] eqn:P.
    - destruct (new_ErrorHandler_string
                  ("Resource not found. Invalid " +:+ path) (VNum 400))
        as (e & -> & _). cbv beta iota.
      intros (_ & _ & [[_ ?]|[[? _]|[Hk _]]]); [done|congruence|].
      apply known_names_spec in Hk. naive_solver.
    - split; [done|]. split; [done|]. by left. }
  case_bool_decide as N2.
  { (* ValidationError *)
    pose proof (Object_values_throws h (get h err "errors")) as OV.
    destruct (Object_values h (get h err "errors")) as [values|e|] eqn:V;
      [| |done]; cycle 1.
    { split; [done|]. split; [done|]. right. left. split; [done|by left]. }
    pose proof (map_message_throws h values) as MT.
    pose proof (map_message_not_Diverged h values) as ND.
    destruct (map_message h values) as [messages|e|] eqn:E; [| |done]; cycle 1.
    { split; [done|]. split; [done|]. right. left. split; [done|]. right.
      exists values. split; [done|]. left. apply MT. by eexists. }
    pose proof (map_message_Ok _ _ _ E) as ->.
    pose proof (Array_join_None ", " ((fun v => get h v "message") <$> values))
      as AJ.
    rewrite Exists_fmap in AJ.
    destruct (Array_join _ _) as [text|] eqn:J.
    - destruct (new_ErrorHandler_string text (VNum 400)) as (e & -> & _). cbv beta iota.
      intros (_ & _ & [[? _]|[[_ Hv]|[Hk _]]]); [congruence| |].
      + destruct Hv as [Hn|(vs & [= <-] & [Hex|Hex])]; [congruence| |].
        * apply MT in Hex as [? ?]. done.
        * apply AJ in Hex. done.
      + apply known_names_spec in Hk. naive_solver.
    - split; [done|]. split; [done|]. right. left. split; [done|]. right.
      exists values. split; [done|]. right. by apply AJ. }
  destruct (_ || _) eqn:N3.
  { destruct (new_ErrorHandler_string
                "JSON Web Token is invalid or expired. Please try again"
                (VNum 400)) as (e & -> & _). cbv beta iota.
    intros (_ & _ & [[? _]|[[? _]|[Hk _]]]); [done|done|].
    apply known_names_spec in Hk.
    apply orb_true_iff in N3 as [N3|N3]; apply bool_decide_eq_true in N3;
      naive_solver. }
  apply orb_false_iff in N3 as [N3 N5].
  apply bool_decide_eq_false in N3, N5.
  case_bool_decide as N4.
  { destruct (new_ErrorHandler_string
                "Error communicating with an external service" (VNum 502))
      as (e & -> & _). cbv beta iota.
    intros (_ & _ & [[? _]|[[? _]|[Hk _]]]); [done|done|].
    apply known_names_spec in Hk. naive_solver. }
  (* any other object *)
  assert (name ∉ known_names) as Hk by (apply known_names_spec; done).
  set (m := if truthy (get h err "message") then get h err "message"
            else VStr "Unhandled server error").
  set (c := if truthy (get h err "statusCode") then get h err "statusCode"
            else VNum 500).
  assert (m <> VUndefined) as Hm.
  { unfold m. destruct (truthy (get h err "message")) eqn:Tm; [|done].
    by destruct (get h err "message"). }
  assert (ToString m = None <-> ToString (get h err "message") = None) as Hc.
  { unfold m. destruct (truthy (get h err "message")) eqn:Tm; [done|].
    destruct (get h err "message"); by cbn in *. }
  pose proof (new_ErrorHandler_not_Diverged m c) as ND.
  destruct (new_ErrorHandler m c) as [e|e|] eqn:E; [| |done]; cbv beta iota.
  - intros (_ & _ & [[? _]|[[? _]|[_ Ht]]]); [done|done|].
    apply Hc in Ht.
    unfold new_ErrorHandler in E.
    assert (match m with
            | VUndefined => VStr "Something went wrong! Please try again"
            | _ => m
            end = m) as Hmm by by destruct m.
    rewrite Hmm, Ht in E. done.
  - apply new_ErrorHandler_Throw in E as [_ Ht].
    split; [done|]. split; [done|]. right. right. split; [done|by apply Hc].
Qed.

Lemma handleCommonErrors_made h err error :
  handleCommonErrors h err = Ok error ->
  statusText error = errorCodes_get (statusCode error) /\
  is_Some (errorCodes_get (statusCode error)).
Proof.
  unfold handleCommonErrors.
  repeat (case_match; try done);
    intros (? & ? & _)%new_ErrorHandler_Ok; done.
Qed.

(** The [switch] on [err.code] always leaves an error. *)
Lemma by_code_Ok h err error :
  statusText error = errorCodes_get (statusCode error) /\
  is_Some (errorCodes_get (statusCode error)) ->
  exists error',
    by_code h err error = Ok error' /\
    statusText error' = errorCodes_get (statusCode error') /\
    is_Some (errorCodes_get (statusCode error')).
Proof.
  intros Hwf. unfold by_code.
  assert (forall text code,
             exists error',
               new_ErrorHandler (VStr text) code = Ok error' /\
               statusText error' = errorCodes_get (statusCode error') /\
               is_Some (errorCodes_get (statusCode error'))) as Hnew.
  { intros text code.
    destruct (new_ErrorHandler_string text code) as (e & He & _).
    exists e. split; [done|].
    by apply new_ErrorHandler_Ok in He as (? & ? & _). }
  assert (exists keys,
             Object_keys h (if truthy (get h err "keyValue")
                            then get h err "keyValue"
                            else VObj (fresh_ref h)) = Ok keys) as [keys ->].
  { destruct (truthy (get h err "keyValue")) eqn:TK;
      [|rewrite Object_keys_fresh; by eexists].
    destruct (get h err "keyValue"); try done; by eexists. }
  rewrite Array_join_strings.
  repeat (case_bool_decide; [apply Hnew|]). by exists error.
Qed.

Lemma errorMiddleware_made h err r :
  errorMiddleware h err = Ok r ->
  exists error,
    r = respond error /\
    statusText error = errorCodes_get (statusCode error) /\
    is_Some (errorCodes_get (statusCode error)).
Proof.
  unfold errorMiddleware.
  destruct (handleCommonErrors h err) as [error|e|] eqn:E; [|done..].
  apply handleCommonErrors_made in E.
  destruct (by_code_Ok h err error E) as (error' & -> & Hwf).
  destruct err; try done; intros [= <-]; by exists error'.
Qed.

Lemma errorMiddleware_responds h err error :
  handleCommonErrors h err = Ok error -> nullish err = false ->
  exists r, errorMiddleware h err = Ok r.
Proof.
  intros E N. unfold errorMiddleware. rewrite E.
  apply handleCommonErrors_made in E.
  destruct (by_code_Ok h err error E) as (error' & -> & _).
  destruct err; try done; by eexists.
Qed.

(** X16. An [ErrorHandler], whatever it is built from, carries a status code
    of the table and the text the table gives for it, so [statusText] is
    never [undefined]; a code of the table is kept, and every other argument
    (a code that is not in the table, a missing one, one that is no number)
    gives 500.  The constructor fails only on a message that cannot be
    converted to a string. *)
Theorem ErrorHandler_status_in_table (message0 statusCode0 : value) :
  match new_ErrorHandler message0 statusCode0 with
  | Ok error =>
      statusText error = errorCodes_get (statusCode error) /\
      is_Some (statusText error) /\
      (400 <= statusCode error <= 511)%Z /\
      (if errorCodes_has statusCode0 then VNum (statusCode error) = statusCode0
       else statusCode error = 500%Z)
  | Throw _ => message0 <> VUndefined /\ ToString message0 = None
  | Diverged => False
  end.
Proof.
  pose proof (new_ErrorHandler_not_Diverged message0 statusCode0) as ND.
  destruct (new_ErrorHandler message0 statusCode0) as [error|e|] eqn:E;
    [| |done].
  - apply new_ErrorHandler_Ok in E as (Ht & [text Hs] & Hc).
    split; [done|]. split; [rewrite Ht, Hs; by eexists|].
    split; [by eapply errorCodes_get_bounds|done].
  - by eapply new_ErrorHandler_Throw.
Qed.

(** X17. Whenever the middleware responds, the body says [success: false], the
    HTTP status is the [statusCode] of the body, it is a code of the table
    (so between 400 and 511) and [statusText] is the table's text for it,
    never [undefined]. *)
Theorem errorMiddleware_response_consistent h err r :
  errorMiddleware h err = Ok r ->
  json_success r = false /\
  status r = json_statusCode r /\
  json_statusText r = errorCodes_get (status r) /\
  is_Some (json_statusText r) /\
  (400 <= status r <= 511)%Z.
Proof.
  intros (error & -> & Ht & [text Hs])%errorMiddleware_made.
  unfold respond. cbn [json_success status json_statusCode json_statusText].
  split; [done|]. split; [done|]. split; [done|].
  split; [rewrite Ht, Hs; by eexists|by eapply errorCodes_get_bounds].
Qed.

(** X18. The middleware throws instead of responding in exactly these
    situations: [err] is [null] or [undefined] (reading [err.code] fails), or
    [err] is an object [handleCommonErrors] throws on: a CastError whose
    [path] cannot be converted to a string; a ValidationError whose [errors]
    is [null] or [undefined], or has an enumerable member that is, or one
    whose [message] cannot be converted; or an object of any other name
    whose [message] cannot be converted.  In every other case it
    responds. *)
Theorem errorMiddleware_throws_iff h err :
  let fails := nullish err = true \/ unanswerable h err in
  ((exists e, errorMiddleware h err = Throw e) <-> fails) /\
  ((exists r, errorMiddleware h err = Ok r) <-> ~ fails).
Proof.
  intros fails.
  pose proof (handleCommonErrors_result h err) as HR.
  destruct (handleCommonErrors h err) as [error|e|] eqn:E; [| |done].
  - destruct (nullish err) eqn:N.
    + assert (fails) by (by left).
      assert (exists e, errorMiddleware h err = Throw e) as [e He].
      { unfold errorMiddleware. rewrite E. destruct err; try done; by eexists. }
      split; split; [done|by eexists| |done].
      intros [r Hr]. by rewrite He in Hr.
    + assert (~ fails) as NF by (by intros [?|?]).
      destruct (errorMiddleware_responds h err error E N) as [r Hr].
      split; split; [|done|done|by eexists].
      intros [e He]. by rewrite Hr in He.
  - assert (fails) as F by (by right).
    assert (errorMiddleware h err = Throw e) as He.
    { unfold errorMiddleware. by rewrite E. }
    split; split; [done|by eexists| |done].
    intros [r Hr]. by rewrite He in Hr.
Qed.

(** X19. An error that reads as an instance of [ErrorHandler] (as the
    application makes them with [new ErrorHandler(message, statusCode)]) is
    reported with its own status code, status text and message; only an empty
    message is replaced by the default one. *)
Theorem errorMiddleware_reports_ErrorHandler h err message0 statusCode0 error :
  new_ErrorHandler message0 statusCode0 = Ok error ->
  reads_as h err error ->
  errorMiddleware h err =
    Ok (Response (statusCode error) false
          (if String.eqb (message error) EmptyString
           then "Unhandled server error" else message error)
          (statusCode error) (statusText error)).
Proof.
  intros Hnew (O & T & N & M & C & K).
  apply new_ErrorHandler_Ok in Hnew as (Ht & [text Hs] & _).
  assert ((statusCode error =? 0)%Z = false) as NZ.
  { apply errorCodes_get_bounds in Hs. lia. }
  unfold errorMiddleware, handleCommonErrors, by_code.
  rewrite T, O, N, M, C, K. cbn [negb orb].
  repeat (case_bool_decide; [done|]). cbn [orb truthy].
  rewrite NZ. cbn [negb].
  destruct (String.eqb (message error) EmptyString) eqn:EM; cbn [negb];
    rewrite (new_ErrorHandler_exact _ _ text Hs), Ht, Hs; by destruct err.
Qed.

(** X20. For an object named ValidationError whose [errors] has members with
    the messages [messages], the error made is a 400 whose message lists
    them in the order of the members, separated by a comma and a space. *)
Theorem validation_messages_joined h err values messages :
  truthy err = true -> typeof_object err = true ->
  get h err "name" = VStr "ValidationError" ->
  Object_values h (get h err "errors") = Ok values ->
  Forall2 (fun v m => get h v "message" = VStr m) values messages ->
  handleCommonErrors h err =
    Ok (Build_ErrorHandler (String.concat ", " messages) 400 (Some "Bad Request")).
Proof.
  intros T O N V F. unfold handleCommonErrors.
  rewrite T, O, N, V. cbn [negb orb].
  repeat (case_bool_decide; try done).
  rewrite (map_message_strings _ _ _ F), Array_join_strings.
  by apply new_ErrorHandler_exact.
Qed.

(** X21. An error with the code 11000 is answered with a 400 that names the
    enumerable keys of [err.keyValue], in their order; when [keyValue] is
    missing the list is empty.  The name of the error, its message and its
    own status code play no part. *)
Theorem duplicate_key_names_fields h err error0 :
  handleCommonErrors h err = Ok error0 ->
  nullish err = false ->
  get h err "code" = VNum 11000 ->
  let keyValue := get h err "keyValue" in
  let fields :=
    match keyValue with
    | VObj r | VFun r | VError r _ => fst <$> enumerable_props h r
    | VStr s => (fun i => NilZero.string_of_uint (Nat.to_uint i)) <$>
                  seq 0 (String.length s)
    | _ => []
    end in
  errorMiddleware h err =
    Ok (Response 400 false
          ("Duplicate entry for field(s): " +:+ String.concat ", " fields)
          400 (Some "Bad Request")).
Proof.
  intros E N C keyValue fields. unfold errorMiddleware, by_code.
  rewrite E, C. fold keyValue.
  assert (Object_keys h (if truthy keyValue then keyValue else VObj (fresh_ref h))
          = Ok fields) as ->.
  { subst fields.
    destruct keyValue as [| |b|n|s|r|r|r m]; cbn [truthy];
      rewrite ?Object_keys_fresh; try done.
    - destruct b; by rewrite ?Object_keys_fresh.
    - destruct (negb (n =? 0)%Z); by rewrite ?Object_keys_fresh.
    - destruct s; cbn [String.eqb negb]; by rewrite ?Object_keys_fresh. }
  rewrite Array_join_strings.
  repeat (case_bool_decide; try done).
  rewrite (new_ErrorHandler_exact _ _ "Bad Request") by done.
  by destruct err.
Qed.

(** X22. A thrown value that is no object (a string, a number, a boolean) is
    answered with the fixed 500 response: what was thrown is not reported. *)
Theorem errorMiddleware_primitive_error h err :
  nullish err = false -> ref_of err = None ->
  errorMiddleware h err =
    Ok (Response 500 false "Unexpected error occurred" 500
          (Some "Internal Server Error")).
Proof.
  intros N R. unfold errorMiddleware, handleCommonErrors, by_code.
  assert (typeof_object err = false) as -> by (by destruct err).
  rewrite orb_true_r.
  assert (forall key, get h err key = VUndefined) as G.
  { intros key. unfold get. by rewrite R. }
  rewrite G.
  rewrite (new_ErrorHandler_exact _ _ "Internal Server Error") by done.
  by destruct err.
Qed.

End ResponseFacts.
(** ** The theorems at work *)

Section MoreExamples.
#[local] Existing Instance example_host.

Lemma first_call_forwarded_verbatim_witness :
  delivered (invoke 3 next_then_throw [req; res; VFun 30] start).2 =
    delivered start ++ [(30, [VError 100 "a"])] /\
  console (invoke 3 next_then_throw [req; res; VFun 30] start).2 =
    console (entered 3 [req; res; VFun 30] start) ++
    replicate (length (@nil (list value))) NextCalledMultipleTimes.
Proof.
  apply (first_call_forwarded_verbatim 3 next_then_throw [req; res; VFun 30]
           30 start [VError 100 "a"] []); reflexivity.
Defined.

Lemma success_passes_through_witness :
  (invoke 3 answers [req; res; VFun 30] start).1 = Fulfilled VUndefined /\
  delivered (invoke 3 answers [req; res; VFun 30] start).2 = delivered start /\
  console (invoke 3 answers [req; res; VFun 30] start).2 =
    console (entered 3 [req; res; VFun 30] start).
Proof.
  apply (success_passes_through 3 answers [req; res; VFun 30] 30 start);
    reflexivity.
Defined.

Lemma original_applied_once_witness :
  fn_calls (invoke 3 throw_string [res; VFun 30] start).2 =
    fn_calls start ++ [[res; VFun 200]].
Proof.
  apply (original_applied_once 3 throw_string [res; VFun 30] 30 start).
  reflexivity.
Defined.

Lemma wrapHandler_throws_iff_witness :
  (exists e, (wrapHandler (VFun 5) (State realm [])).1 = Throw e) <->
  (exists k d,
     (k, d) ∈ o_props (function_object 3 "legacy"
                         [("prototype", Data (VObj 6) true false false)]) /\
     is_copied k = true /\ (k = "prototype" \/ is_data d = false)).
Proof.
  apply (wrapHandler_throws_iff 5
           (function_object 3 "legacy"
              [("prototype", Data (VObj 6) true false false)])
           (State realm [])).
  reflexivity.
Defined.

Lemma wrapHandler_copies_properties_witness :
  getOwnPropertyNames tagged_realm 14 =
    ["2"; "10"; "length"; "name"; "customProp"] /\
  getOwnPropertyNames
    (heap (wrapHandler (VFun 14) (State tagged_realm [])).2) 16 =
    ["2"; "10"; "length"; "name"; "prototype"; "customProp"] /\
  forall k d,
    getOwnPropertyDescriptor tagged_realm 14 k = Some d ->
    is_copied k = true ->
    exists v w e c,
      d = Data v w e c /\
      getOwnPropertyDescriptor
        (heap (wrapHandler (VFun 14) (State tagged_realm [])).2) 16 k =
        Some (Data v true e true).
Proof.
  split; [reflexivity|].
  apply (wrapHandler_copies_properties 14 tagged
           (State tagged_realm []) 16
           (wrapHandler (VFun 14) (State tagged_realm [])).2).
  - reflexivity.
  - apply (bool_decide_unpack
             (NoDup ["2"; "10"; "length"; "name"; "customProp"])).
    vm_compute. reflexivity.
  - apply (bool_decide_unpack (StronglySorted N.lt [2%N; 10%N])).
    vm_compute. reflexivity.
  - vm_compute. reflexivity.
Defined.

Lemma wrapHandler_wrapper_throws_witness :
  wrapHandler (VFun 9) (State realm []) =
    (Ok (VFun 15), (wrapHandler (VFun 9) (State realm [])).2) /\
  exists e,
    (wrapHandler (VFun 15) (wrapHandler (VFun 9) (State realm [])).2).1 =
      Throw e.
Proof.
  split; [vm_compute; reflexivity|].
  apply (wrapHandler_wrapper_throws (VFun 9) (State realm []) (VFun 15)
           (wrapHandler (VFun 9) (State realm [])).2
           (wrapHandler (VFun 9) (State realm [])).2);
    [reflexivity|vm_compute; reflexivity|reflexivity].
Defined.

Lemma catchAsync_wrapper_unchanged_witness :
  catchAsync (VFun 15) (wrapHandler (VFun 9) (State realm [])).2 =
    (Ok (VFun 15), (wrapHandler (VFun 9) (State realm [])).2).
Proof.
  apply (catchAsync_wrapper_unchanged (VFun 9) (State realm []) (VFun 15)
           (wrapHandler (VFun 9) (State realm [])).2);
    [reflexivity|vm_compute; reflexivity].
Defined.

Lemma catchAsync_plain_callable_witness :
  exists wr st',
    catchAsync (VFun 4) (State realm []) = (Ok (VFun wr), st') /\
    heap (State realm []) !! wr = None /\
    wraps (heap st') wr (VFun 4) /\
    heap (State realm []) ⊆ heap st' /\
    out st' = out (State realm []).
Proof.
  apply (catchAsync_plain_callable (VFun 4) (State realm []));
    vm_compute; reflexivity.
Defined.

Lemma wrapControllerClass_returns_constructor_witness :
  (wrapControllerClass (VFun 10) (State realm [])).1 = Ok (VFun 10).
Proof.
  apply (wrapControllerClass_returns_constructor (VFun 10) realm []);
    vm_compute; reflexivity.
Defined.

Lemma bundle_wrapping_frame_witness :
  let st' := (wrapControllerClass (VFun 10) (State realm [])).2 in
  (forall x o, realm !! x = Some o -> x ∉ chain (S (size realm)) realm 11 ∅ ->
               heap st' !! x = Some o) /\
  (forall x, is_Some (realm !! x) ->
             getPrototypeOf (heap st') x = getPrototypeOf realm x /\
             getOwnPropertyNames (heap st') x = getOwnPropertyNames realm x).
Proof.
  apply (bundle_wrapping_frame (VFun 10) 11 realm []);
    [vm_compute; reflexivity|reflexivity|vm_compute; reflexivity|].
  eexists. vm_compute. reflexivity.
Defined.

Lemma traversal_levels_witness :
  exists visited levels st',
    processPrototype (S (size realm)) 11 ∅ (State realm []) =
      (Ok (visited, levels), st') /\
    NoDup levels /\
    11 ∈ levels /\
    (forall l q, l ∈ levels -> getPrototypeOf realm l = Some q ->
                 q <> Object_prototype -> q ∈ levels) /\
    (Object_prototype ∈ levels -> 11 = Object_prototype).
Proof.
  apply (traversal_levels realm 11 []); [vm_compute; reflexivity|].
  eexists. vm_compute. reflexivity.
Defined.

Lemma bundle_wrapped_twice_witness :
  exists st1 st2,
    wrapControllerClass (VFun 10) (State realm []) = (Ok (VFun 10), st1) /\
    wrapControllerClass (VFun 10) st1 = (Ok (VFun 10), st2) /\
    heap st1 ⊆ heap st2.
Proof.
  apply (bundle_wrapped_twice 10
           (Obj (Some 7)
              [("length", Data (VNum 0) false false true);
               ("name", Data (VStr "Derived") false false true);
               ("prototype", Data (VObj 11) false false false)]
              true None)
           11 false false false realm []);
    [vm_compute; reflexivity|reflexivity|reflexivity].
Defined.

Lemma errorMiddleware_response_consistent_witness :
  errorMiddleware thrown_errors (VError 42 "No such user") =
    Ok (Response 404 false "No such user" 404 (Some "Not Found")) /\
  status (Response 404 false "No such user" 404 (Some "Not Found")) =
    json_statusCode (Response 404 false "No such user" 404 (Some "Not Found")) /\
  is_Some (json_statusText
             (Response 404 false "No such user" 404 (Some "Not Found"))).
Proof.
  split; [vm_compute; reflexivity|].
  destruct (errorMiddleware_response_consistent thrown_errors
              (VError 42 "No such user")
              (Response 404 false "No such user" 404 (Some "Not Found")))
    as (_ & Hs & _ & Ht & _); [vm_compute; reflexivity|].
  split; [exact Hs|exact Ht].
Defined.

Lemma errorMiddleware_reports_ErrorHandler_witness :
  new_ErrorHandler (VStr "No such user") (VNum 404) =
    Ok (Build_ErrorHandler "No such user" 404 (Some "Not Found")) /\
  reads_as thrown_errors (VError 42 "No such user")
    (Build_ErrorHandler "No such user" 404 (Some "Not Found")) /\
  errorMiddleware thrown_errors (VError 42 "No such user") =
    Ok (Response 404 false "No such user" 404 (Some "Not Found")).
Proof.
  assert (new_ErrorHandler (VStr "No such user") (VNum 404) =
            Ok (Build_ErrorHandler "No such user" 404 (Some "Not Found")))
    as N by reflexivity.
  assert (reads_as thrown_errors (VError 42 "No such user")
            (Build_ErrorHandler "No such user" 404 (Some "Not Found"))) as R.
  { repeat split; vm_compute; reflexivity. }
  split; [exact N|]. split; [exact R|].
  apply (errorMiddleware_reports_ErrorHandler thrown_errors
           (VError 42 "No such user") (VStr "No such user") (VNum 404)
           (Build_ErrorHandler "No such user" 404 (Some "Not Found")) N R).
Defined.

Lemma validation_messages_joined_witness :
  handleCommonErrors thrown_errors (VError 43 "User validation failed") =
    Ok (Build_ErrorHandler
          (String.concat ", " ["Email is required"; "Age must be positive"])
          400 (Some "Bad Request")).
Proof.
  apply (validation_messages_joined thrown_errors
           (VError 43 "User validation failed")
           [VError 45 "Email is required"; VError 46 "Age must be positive"]
           ["Email is required"; "Age must be positive"]);
    [reflexivity|reflexivity|vm_compute; reflexivity|vm_compute; reflexivity|].
  repeat constructor.
Defined.

Lemma duplicate_key_names_fields_witness :
  errorMiddleware thrown_errors (VError 47 "E11000 duplicate key error") =
    Ok (Response 400 false "Duplicate entry for field(s): email, tenant"
          400 (Some "Bad Request")).
Proof.
  apply (duplicate_key_names_fields thrown_errors
           (VError 47 "E11000 duplicate key error")
           (Build_ErrorHandler "E11000 duplicate key error" 500
              (Some "Internal Server Error")));
    [vm_compute; reflexivity|reflexivity|vm_compute; reflexivity].
Defined.

Lemma errorMiddleware_primitive_error_witness :
  errorMiddleware thrown_errors (VStr "String error") =
    Ok (Response 500 false "Unexpected error occurred" 500
          (Some "Internal Server Error")).
Proof.
  apply (errorMiddleware_primitive_error thrown_errors (VStr "String error"));
    reflexivity.
Defined.

End MoreExamples.

